(** * fix-auth-headers.py: the apiFetch codemod

    A shallow embedding of [src/fix-auth-headers.py] and the properties of
    its two operations, [add_apiFetch_to_apiBase] (inject the helper before
    the anchor line) and [update_file_with_apiFetch] (migrate the call sites
    of one file).

    Python [str] values are sequences of Unicode code points: a text is a
    list of code points, each an [N].  The file system is a finite map from
    paths to texts; writes and printed lines are recorded in a trace. *)

From Stdlib Require Import NArith String Ascii List Lia Bool DecimalString.
From stdpp Require Import base option list gmap.
Import ListNotations.

Local Open Scope N_scope.
Local Open Scope nat_scope.

(** ** Texts *)

Module Text.

Definition char := N.
Definition text := list N.

(** A [str] literal written with ASCII characters only. *)
Fixpoint lit (s : string) : text :=
  match s with
  | EmptyString => []
  | String a s' => N_of_ascii a :: lit s'
  end.

Definition dq : char := 34%N.       (* the double quote *)
Definition sq : char := 39%N.       (* the single quote *)
Definition nl : char := 10%N.       (* the line feed *)

(** A JavaScript string literal in double quotes. *)
Definition quoted (s : string) : text := dq :: lit s ++ [dq].

(** [s.startswith(p)] *)
Fixpoint startswith (p s : text) : bool :=
  match p, s with
  | [], _ => true
  | _ :: _, [] => false
  | a :: p', b :: s' => N.eqb a b && startswith p' s'
  end.

(** [p in s] for strings: some position of [s] starts with [p]. *)
Fixpoint contains (p s : text) : bool :=
  startswith p s ||
  match s with
  | [] => false
  | _ :: s' => contains p s'
  end.

(** [s.replace(old, new)]: every occurrence of [old], found from left to
    right without overlap, is replaced.  [skip] counts the characters of
    the current occurrence still to be passed over.  With an empty [old],
    Python inserts [new] before every character and at the end. *)
Fixpoint replace_go (old new s : text) (skip : nat) : text :=
  match s with
  | [] => []
  | c :: s' =>
      match skip with
      | S n => replace_go old new s' n
      | O =>
          if startswith old s
          then new ++ replace_go old new s' (length old - 1)
          else c :: replace_go old new s' 0
      end
  end.

Definition replace (old new s : text) : text :=
  match old with
  | [] => new ++ flat_map (fun c => c :: new) s
  | _ :: _ => replace_go old new s 0
  end.

(** [sep.join(parts)] *)
Fixpoint join (sep : text) (parts : list text) : text :=
  match parts with
  | [] => []
  | [p] => p
  | p :: ps => p ++ sep ++ join sep ps
  end.

(** The number of positions of [s] at which [p] occurs. *)
Fixpoint occurrences (p s : text) : nat :=
  (if startswith p s then 1 else 0) +
  match s with
  | [] => 0
  | _ :: s' => occurrences p s'
  end.

(** [c in cs] for a character. *)
Fixpoint mem (c : char) (cs : list char) : bool :=
  match cs with
  | [] => false
  | d :: cs' => N.eqb c d || mem c cs'
  end.

(** [old] opens with a character that it has nowhere else, so that two
    occurrences of [old] cannot overlap. *)
Definition self_free (old : text) : Prop :=
  match old with
  | [] => False
  | c :: rest => mem c rest = false
  end.

End Text.
Import Text.

(** ** Regular expressions ([re.sub])

    The six patterns of the script use literals, character sets, greedy
    [*] and [+] over one-character items, and capture groups; no
    alternation, no nested repeats.  As in the compiled form the [re]
    module runs, a pattern is a sequence of operations, a group being a
    pair of marks around its body. *)

Module Re.

Inductive cset : Type :=
  | CLit (c : char)            (* the character itself *)
  | CSpace                     (* \s *)
  | CIn (cs : list char)       (* [...] *)
  | CNotIn (cs : list char).   (* [^...] *)

Inductive op : Type :=
  | One (a : cset)             (* one character of the set *)
  | Star (a : cset)            (* a*, greedy *)
  | Plus (a : cset)            (* a+, greedy *)
  | Mark (i : nat).            (* group g opens at mark 2g-2, closes at 2g-1 *)

Definition pattern := list op.

(** Unicode white space, what [\s] matches in a [str] pattern. *)
Definition is_space (c : char) : bool :=
  ((9 <=? c) && (c <=? 13) || (28 <=? c) && (c <=? 32) ||
   (c =? 133) || (c =? 160) || (c =? 5760) ||
   (8192 <=? c) && (c <=? 8202) || (c =? 8232) || (c =? 8233) ||
   (c =? 8239) || (c =? 8287) || (c =? 12288))%N.

Definition accepts (a : cset) (c : char) : bool :=
  match a with
  | CLit d => N.eqb c d
  | CSpace => is_space c
  | CIn cs => mem c cs
  | CNotIn cs => negb (mem c cs)
  end.

(** Marks set so far, the latest first. *)
Definition marks := list (nat * nat).

Fixpoint mark_get (i : nat) (mk : marks) : option nat :=
  match mk with
  | [] => None
  | (j, p) :: mk' => if Nat.eqb i j then Some p else mark_get i mk'
  end.

(** A greedy repeat of a one-character item: take as many characters as
    the set accepts, then try the rest [k] of the pattern, giving the
    characters back one at a time while the rest fails. *)
Fixpoint repeat_max (a : cset) (k : text -> nat -> marks -> option (nat * marks))
    (s : text) (pos : nat) (mk : marks) : option (nat * marks) :=
  match s with
  | c :: s' =>
      if accepts a c then
        match repeat_max a k s' (S pos) mk with
        | Some r => Some r
        | None => k s pos mk
        end
      else k s pos mk
  | [] => k s pos mk
  end.

(** The backtracking matcher.  [exec adv p s pos mk] runs the rest [p] of
    the pattern on the rest [s] of the subject, [pos] characters after
    the start of the attempt, and gives the end position and the marks of
    the first success in backtracking order.  With [adv] (the search must
    advance), an empty match is a failure. *)
Fixpoint exec (adv : bool) (p : pattern) : text -> nat -> marks -> option (nat * marks) :=
  match p with
  | [] => fun _ pos mk =>
      if adv && Nat.eqb pos 0 then None else Some (pos, mk)
  | One a :: p' => fun s pos mk =>
      match s with
      | c :: s' => if accepts a c then exec adv p' s' (S pos) mk else None
      | [] => None
      end
  | Star a :: p' => repeat_max a (exec adv p')
  | Plus a :: p' => fun s pos mk =>
      match s with
      | c :: s' =>
          if accepts a c then repeat_max a (exec adv p') s' (S pos) mk else None
      | [] => None
      end
  | Mark i :: p' => fun s pos mk => exec adv p' s pos ((i, pos) :: mk)
  end.

(** [m.group(g)], the empty string for a group that took no part. *)
Definition group (g : nat) (s : text) (mk : marks) : text :=
  match mark_get (2 * g - 2) mk, mark_get (2 * g - 1) mk with
  | Some b, Some e => take (e - b) (drop b s)
  | _, _ => []
  end.

(** A replacement template: literal text and group references [\g]. *)
Inductive piece : Type :=
  | TLit (t : text)
  | TGroup (g : nat).

Definition template := list piece.

Fixpoint expand (t : template) (s : text) (mk : marks) : text :=
  match t with
  | [] => []
  | TLit l :: t' => l ++ expand t' s mk
  | TGroup g :: t' => group g s mk ++ expand t' s mk
  end.

(** [re.sub(p, t, s)]: the subject is scanned from left to right; at each
    position the matcher is tried; a match is replaced by the expanded
    template and the scan goes on after it.  After an empty match the
    same position is tried once more for a non-empty match, then the
    character is copied.  [skip] counts the characters of the current
    match still to be passed over. *)
Fixpoint sub_go (p : pattern) (t : template) (s : text) (skip : nat) : text :=
  match s with
  | [] =>
      match skip with
      | O =>
          match exec false p [] 0 [] with
          | Some (_, mk) => expand t [] mk
          | None => []
          end
      | S _ => []
      end
  | c :: s' =>
      match skip with
      | S n => sub_go p t s' n
      | O =>
          match exec false p s 0 [] with
          | Some (S n, mk) => expand t s mk ++ sub_go p t s' n
          | Some (O, mk) =>
              expand t s mk ++
              match exec true p s 0 [] with
              | Some (S n, mk') => expand t s mk' ++ sub_go p t s' n
              | _ => c :: sub_go p t s' 0
              end
          | None => c :: sub_go p t s' 0
          end
      end
  end.

Definition sub (p : pattern) (t : template) (s : text) : text :=
  sub_go p t s 0.

(** Pattern syntax. *)
Definition lits (l : text) : pattern := map (fun c => One (CLit c)) l.
Definition str (s : string) : pattern := lits (lit s).
Definition ws : pattern := [Star CSpace].                     (* \s* *)
Definition quote : cset := CIn [dq; sq].                      (* either quote *)
Definition grp (g : nat) (body : pattern) : pattern :=
  Mark (2 * g - 2) :: body ++ [Mark (2 * g - 1)].

(** For the proofs: a repeat stops at [rest], at the end of the text or
    at a character the set refuses. *)
Definition stops (a : cset) (rest : text) : bool :=
  match rest with
  | [] => true
  | c :: _ => negb (accepts a c)
  end.

Definition cont := text -> nat -> marks -> option (nat * marks).

(** A continuation ends between its start and the end of the text. *)
Definition bounded (k : cont) : Prop :=
  forall s pos mk e mk', k s pos mk = Some (e, mk') -> pos <= e <= pos + length s.

End Re.
Import Re.

(** ** The script *)

Module Script.

(** *** The file system and the console *)

Definition path := text.

Inductive event : Type :=
  | EvWrite (p : path) (c : text)     (* Path.write_text *)
  | EvPrint (line : text).            (* print *)

Record world : Type := World {
  files : gmap (list N) (list N);
  trace : list event                  (* oldest first *)
}.

(** The one exception of the model: there is no file at the path.  A
    path that is there and cannot be read as text (a directory, bytes
    that do not decode) is outside the model. *)
Inductive exn : Type :=
  | FileNotFoundError (p : path).

Inductive result (A : Type) : Type :=
  | Ok (a : A)
  | Raise (e : exn).
Arguments Ok {A} a.
Arguments Raise {A} e.

(** Computations that read and change the world and may raise. *)
Definition io (A : Type) : Type := world -> result A * world.

Definition ret {A} (a : A) : io A := fun w => (Ok a, w).

Definition bind {A B} (m : io A) (k : A -> io B) : io B :=
  fun w =>
    match m w with
    | (Ok a, w') => k a w'
    | (Raise e, w') => (Raise e, w')
    end.

#[global] Instance io_ret : MRet io := @ret.
#[global] Instance io_bind : MBind io := fun A B k m => bind m k.

Definition read_text (p : path) : io text :=
  fun w =>
    match files w !! p with
    | Some c => (Ok c, w)
    | None => (Raise (FileNotFoundError p), w)
    end.

Definition write_text (p : path) (c : text) : io unit :=
  fun w => (Ok tt, World (<[p := c]> (files w)) (trace w ++ [EvWrite p c])).

Definition print (line : text) : io unit :=
  fun w => (Ok tt, World (files w) (trace w ++ [EvPrint line])).

Definition unlines (ls : list string) : text :=
  flat_map (fun l => lit l ++ [nl]) ls.

(** The line printed after a write: a check mark, then the path. *)
Definition updated_msg (p : path) : text :=
  9989%N :: lit " Updated " ++ p.

(** *** add_apiFetch_to_apiBase *)

Definition apiBase_path : path := lit "src/lib/apiBase.ts".

Definition apiFetch_code : text :=
  nl :: unlines [
    "/**";
    " * Helper function to make authenticated API requests";
    " * Automatically adds the Authorization header with the token from localStorage";
    " */";
    "export async function apiFetch(path: string, options: RequestInit = {}): Promise<Response> {";
    "  const url = apiUrl(path);";
    EmptyString;
    "  // Get token from localStorage";
    "  const token = typeof window !== 'undefined' ? localStorage.getItem('token') : null;";
    EmptyString;
    "  // Merge headers";
    "  const headers = new Headers(options.headers || {});";
    "  if (token) {";
    "    headers.set('Authorization', `Bearer ${token}`);";
    "  }";
    EmptyString;
    "  // Always include credentials for cookies";
    "  const fetchOptions: RequestInit = {";
    "    ...options,";
    "    headers,";
    "    credentials: 'include',";
    "  };";
    EmptyString;
    "  return fetch(url, fetchOptions);";
    "}"
  ]%string.

Definition anchor : text := nl :: lit "export default apiUrl;".

(** The new content of the target file. *)
Definition inject (content : text) : text :=
  replace anchor (apiFetch_code ++ anchor) content.

Definition add_apiFetch_to_apiBase : io unit :=
  let file_path := apiBase_path in
  content ← read_text file_path;
  let content := inject content in
  write_text file_path content;;
  print (updated_msg file_path).

(** *** update_file_with_apiFetch *)

(** The module path in quotes: a quote (group 1), a run of characters
    other than quotes that has apiBase in it (group 2), a quote (group 3). *)
Definition from_apiBase : pattern :=
  grp 1 [One quote] ++
  grp 2 ([Star (CNotIn [dq; sq])] ++ str "apiBase" ++ [Star (CNotIn [dq; sq])]) ++
  grp 3 [One quote].

(** Pattern 1: import { apiUrl } from ... *)
Definition import1_re : pattern :=
  str "import" ++ ws ++ str "{" ++ ws ++ str "apiUrl" ++ ws ++ str "}" ++ ws ++
  str "from" ++ ws ++ from_apiBase.
Definition import1_to : template :=
  [TLit (lit "import { apiUrl, apiFetch } from "); TGroup 1; TGroup 2; TGroup 3].

(** Pattern 2: import { API_BASE, apiUrl } from ... *)
Definition import2_re : pattern :=
  str "import" ++ ws ++ str "{" ++ ws ++ str "API_BASE," ++ ws ++ str "apiUrl" ++ ws ++
  str "}" ++ ws ++ str "from" ++ ws ++ from_apiBase.
Definition import2_to : template :=
  [TLit (lit "import { API_BASE, apiUrl, apiFetch } from "); TGroup 1; TGroup 2; TGroup 3].

(** The options object holding only the credentials flag, and the closing
    parenthesis of the call. *)
Definition only_credentials : pattern :=
  str "{" ++ ws ++ str "credentials:" ++ ws ++ [One quote] ++ str "include" ++
  [One quote] ++ ws ++ str "})".

(** fetch(apiUrl(ARG) with ARG, free of closing parentheses, as group 1 *)
Definition fetch_apiUrl : pattern :=
  str "fetch(apiUrl(" ++ grp 1 [Plus (CNotIn (lit ")"))] ++ str ")".

(** Pattern 3: fetch(apiUrl(ARG), { credentials: q include q }) *)
Definition creds_re : pattern :=
  fetch_apiUrl ++ str "," ++ ws ++ only_credentials.
Definition creds_to : template :=
  [TLit (lit "apiFetch("); TGroup 1; TLit (lit ")")].

(** Pattern 4: fetch(apiUrl(ARG), { *)
Definition opts_re : pattern :=
  fetch_apiUrl ++ str "," ++ ws ++ str "{".
Definition opts_to : template :=
  [TLit (lit "apiFetch("); TGroup 1; TLit (lit ", {")].

(** Pattern 5: fetch(apiUrl(ARG)) *)
Definition plain_re : pattern :=
  fetch_apiUrl ++ str ")".
Definition plain_to : template :=
  [TLit (lit "apiFetch("); TGroup 1; TLit (lit ")")].

(** Pattern 6: apiFetch(ARG, { credentials: q include q }), ARG free of commas *)
Definition strip_re : pattern :=
  str "apiFetch(" ++ grp 1 [Plus (CNotIn (lit ","))] ++ str "," ++ ws ++ only_credentials.
Definition strip_to : template :=
  [TLit (lit "apiFetch("); TGroup 1; TLit (lit ")")].

(** The six substitutions, in the order of the script. *)
Definition step1 := sub import1_re import1_to.
Definition step2 := sub import2_re import2_to.
Definition step3 := sub creds_re creds_to.
Definition step4 := sub opts_re opts_to.
Definition step5 := sub plain_re plain_to.
Definition step6 := sub strip_re strip_to.

Definition substitutions (content : text) : text :=
  step6 (step5 (step4 (step3 (step2 (step1 content))))).

Definition text_eqb (a b : text) : bool := bool_decide (a = b).

Definition update_file_with_apiFetch (file_path : path) : io bool :=
  content ← read_text file_path;
  let original := content in
  if negb (contains (lit "fetch(apiUrl(") content) &&
     negb (contains (lit "fetch(api") content)
  then ret false
  else
    let content := substitutions content in
    if negb (text_eqb content original)
    then
      write_text file_path content;;
      print (updated_msg file_path);;
      ret true
    else ret false.

(** *** main *)

(** [str(n)] for an integer that is not negative. *)
Definition str_of_nat (n : nat) : text := lit (NilEmpty.string_of_uint (Nat.to_uint n)).

(** The last line of the run: a line feed, a check mark, the count. *)
Definition done_msg (updated_count : nat) : text :=
  nl :: 9989%N :: lit " Done! Updated " ++ str_of_nat updated_count ++ lit " files".

Definition slash : char := 47%N.

(** The components of a path, empty ones left out. *)
Fixpoint components (cur : text) (p : text) : list text :=
  match p with
  | [] => match cur with [] => [] | _ :: _ => [cur] end
  | c :: p' =>
      if N.eqb c slash
      then match cur with [] => components [] p' | _ :: _ => cur :: components [] p' end
      else components (cur ++ [c]) p'
  end.

(** [Path.name]: the last component. *)
Definition name (p : path) : text := List.last (components [] p) [].

(** [s.endswith(suffix)] and [s.endswith((suffix1, suffix2, ...))] *)
Definition endswith (suffix s : text) : bool := startswith (rev suffix) (rev s).

Definition endswith_any (suffixes : list text) (s : text) : bool :=
  existsb (fun suffix => endswith suffix s) suffixes.

(** Glob patterns on a name: literal characters, [?] and [*]. *)
Inductive glob_item : Type :=
  | GLit (c : char)
  | GAny                       (* ? *)
  | GStar.                     (* * *)

(** [*] takes any run of characters: the rest of the pattern matches
    some end of the name. *)
Fixpoint star_match (k : text -> bool) (s : text) : bool :=
  k s ||
  match s with
  | [] => false
  | _ :: s' => star_match k s'
  end.

Fixpoint fnmatch (pat : list glob_item) : text -> bool :=
  match pat with
  | [] => fun s => match s with [] => true | _ :: _ => false end
  | GLit c :: pat' => fun s =>
      match s with
      | d :: s' => N.eqb c d && fnmatch pat' s'
      | [] => false
      end
  | GAny :: pat' => fun s =>
      match s with
      | _ :: s' => fnmatch pat' s'
      | [] => false
      end
  | GStar :: pat' => star_match (fnmatch pat')
  end.

(** The pattern of the script: any name with .ts in it. *)
Definition ts_glob : list glob_item :=
  [GStar; GLit 46%N; GLit 116%N; GLit 115%N; GStar].

(** [p] lies below the directory [dir]. *)
Definition is_below (dir : path) (p : path) : bool :=
  startswith (dir ++ [slash]) p.

(** [dir.rglob(pat)]: the entries below [dir] whose name matches, in the
    order of the scan.  The scan of the working tree, [tree], is what the
    operating system gives: every entry once, in an order of its own. *)
Definition rglob (dir : path) (pat : list glob_item) (tree : list path) : list path :=
  filter (fun p => is_below dir p && fnmatch pat (name p) = true) tree.

(** The loop of [main] over the entries, with the count so far. *)
Fixpoint update_all (entries : list path) (updated_count : nat) : io nat :=
  match entries with
  | [] => mret updated_count
  | file_path :: entries' =>
      if endswith_any [lit ".ts"; lit ".tsx"] (name file_path)
      then
        update_file_with_apiFetch file_path ≫= fun updated : bool =>
        update_all entries' (if updated then updated_count + 1 else updated_count)
      else update_all entries' updated_count
  end.

Definition main (tree : list path) : io unit :=
  add_apiFetch_to_apiBase;;
  let src_dir := lit "src" in
  update_all (rglob src_dir ts_glob tree) 0 ≫= fun updated_count : nat =>
  print (done_msg updated_count).

(** For the properties: what [update_file_with_apiFetch] leaves in a file
    of content [c], and whether that differs from [c]. *)
Definition migrated (c : text) : text :=
  if negb (contains (lit "fetch(apiUrl(") c) && negb (contains (lit "fetch(api") c)
  then c else substitutions c.

Definition changes (c : text) : bool := negb (text_eqb (migrated c) c).

(** The test of the loop on an entry. *)
Definition has_ts_suffix (p : path) : bool :=
  endswith_any [lit ".ts"; lit ".tsx"] (name p).

(** The entries that the loop hands to [update_file_with_apiFetch]. *)
Definition handled (p : path) : bool :=
  is_below (lit "src") p && has_ts_suffix p.

(** Whether the loop changes the entry [p] of the file system [f]. *)
Definition changes_in (f : gmap (list N) (list N)) (p : path) : bool :=
  match f !! p with
  | Some c => changes c
  | None => false
  end.

(** What the loop writes and prints for the entries [l], in a file system
    [f]. *)
Definition loop_events (f : gmap (list N) (list N)) (l : list path) : list event :=
  flat_map (fun p =>
              match f !! p with
              | Some c =>
                  if changes c
                  then [EvWrite p (migrated c); EvPrint (updated_msg p)]
                  else []
              | None => []
              end) l.

(** How many of the entries [l] the loop changes. *)
Definition loop_count (f : gmap (list N) (list N)) (l : list path) : nat :=
  length (filter (fun p => changes_in f p = true) l).

End Script.
Import Script.

(** ** Sample files *)

Module Samples.

Definition a_ts : path := lit "src/a.ts".

Definition one_file (fp : path) (content : text) : world :=
  World {[ fp := content ]} [].

(** The legacy call of the specification, with only the credentials flag. *)
Definition legacy_creds : text :=
  lit "fetch(apiUrl(" ++ quoted "/x" ++ lit "), { credentials: " ++
  quoted "include" ++ lit " })".

(** A legacy call with one more option. *)
Definition legacy_post : text :=
  lit "fetch(apiUrl(" ++ quoted "/x" ++ lit "), { credentials: " ++
  quoted "include" ++ lit ", method: " ++ quoted "POST" ++ lit " })".

Definition migrated_post : text :=
  lit "apiFetch(" ++ quoted "/x" ++ lit ", { credentials: " ++
  quoted "include" ++ lit ", method: " ++ quoted "POST" ++ lit " })".

(** A legacy call without options. *)
Definition legacy_plain : text := lit "fetch(apiUrl(" ++ quoted "/x" ++ lit "))".

Definition helper_call : text := lit "apiFetch(" ++ quoted "/x" ++ lit ")".

(** A legacy call whose argument is a legacy call. *)
Definition nested : text := lit "fetch(apiUrl(fetch(apiUrl(x))))".

(** A legacy call whose argument has a comma in it. *)
Definition comma_arg : text :=
  lit "fetch(apiUrl(f(a, b)), { credentials: " ++ quoted "include" ++ lit " })".

Definition comma_arg_migrated : text :=
  lit "apiFetch(f(a, b), { credentials: " ++ quoted "include" ++ lit " })".

(** A module with the one-symbol import and a call. *)
Definition module1 : text :=
  lit "import { apiUrl } from " ++ quoted "./apiBase" ++ lit ";" ++ nl ::
  lit "const r = await " ++ legacy_plain ++ lit ";" ++ [nl].

Definition module1_migrated : text :=
  lit "import { apiUrl, apiFetch } from " ++ quoted "./apiBase" ++ lit ";" ++ nl ::
  lit "const r = await " ++ helper_call ++ lit ";" ++ [nl].

(** A module with the two-symbol import and a call. *)
Definition module2 : text :=
  lit "import { API_BASE, apiUrl } from " ++ quoted "../lib/apiBase" ++ lit ";" ++ nl ::
  lit "const r = await " ++ legacy_plain ++ lit ";" ++ [nl].

Definition module2_migrated : text :=
  lit "import { API_BASE, apiUrl, apiFetch } from " ++ quoted "../lib/apiBase" ++ lit ";" ++ nl ::
  lit "const r = await " ++ helper_call ++ lit ";" ++ [nl].

(** One blank, and what follows the import statement in the modules above. *)
Definition sp : text := lit " ".


(** A module that calls nothing. *)
Definition quiet : text := lit "export const answer = 42;" ++ [nl].

(** The target file of the helper: two lines and the anchor line. *)
Definition apiBase_ts : text :=
  lit "export function apiUrl(path: string) { return API_BASE + path; }" ++
  anchor ++ [nl].

(** A target file in which the anchor line comes twice. *)
Definition two_anchors : text :=
  lit "// a" ++ anchor ++ lit " // b" ++ anchor ++ [nl].

End Samples.
Import Samples.

(** ** Shapes of text the properties speak of *)

Module Shapes.

(** White space only. *)
Definition spaces (u : text) : Prop := forallb is_space u = true.

Definition is_quote (c : char) : bool := accepts quote c.

(** No quote character. *)
Definition no_quote (m : text) : bool := forallb (accepts (CNotIn [dq; sq])) m.

(** None of the characters of [cs]. *)
Definition avoids (cs : string) (u : text) : bool :=
  forallb (fun c => negb (mem c (lit cs))) u.

(** The import statements up to the module path, with any white space
    where the patterns allow it. *)
Definition import1_head (w1 w2 w3 w4 w5 : text) : text :=
  lit "import" ++ w1 ++ lit "{" ++ w2 ++ lit "apiUrl" ++ w3 ++ lit "}" ++ w4 ++
  lit "from" ++ w5.

Definition import2_head (w1 w2 w3 w4 w5 w6 : text) : text :=
  lit "import" ++ w1 ++ lit "{" ++ w2 ++ lit "API_BASE," ++ w3 ++ lit "apiUrl" ++ w4 ++
  lit "}" ++ w5 ++ lit "from" ++ w6.

(** The end of the two import patterns, from apiBase on. *)
Definition path_tail : pattern :=
  lits (lit "apiBase") ++ [Star (CNotIn [dq; sq]); Mark 3; Mark 4; One quote; Mark 5].

(** [l] and [u] differ at a position that both have. *)
Fixpoint clash (l u : text) : bool :=
  match l, u with
  | a :: l', b :: u' => negb (N.eqb a b) || clash l' u'
  | _, _ => false
  end.

(** [l] begins nowhere in [u], whatever follows [u]. *)
Fixpoint clashes (l u : text) : bool :=
  match u with
  | [] => true
  | _ :: u' => clash l u && clashes l u'
  end.

(** The pattern opens with the literal [l]. *)
Definition opens_with (l : text) (p : pattern) : Prop :=
  p = lits l ++ drop (length l) p.

(** The pattern opens with the literal [l], white space and the
    character [c]. *)
Definition opens_with_then (l : text) (c : char) (p : pattern) : Prop :=
  p = lits l ++ Star CSpace :: One (CLit c) :: drop (length l + 2) p.

(** What follows is the end of the text or a character foreign to [l]. *)
Definition foreign_next (l : text) (s : text) : bool :=
  match s with
  | [] => true
  | d :: _ => negb (mem d l)
  end.

(** What follows is the end of the text or a character that is foreign to
    [l], not white space and not [c]. *)
Definition blocks_next (l : text) (c : char) (s : text) : bool :=
  match s with
  | [] => true
  | d :: _ => negb (N.eqb d c) && negb (is_space d) && negb (mem d l)
  end.

(** The literal opens with a character that is not white space. *)
Definition opens_plainly (l : text) : Prop :=
  match l with
  | c :: _ => is_space c = false
  | [] => False
  end.

(** The new import statements up to the module path. *)
Definition new_import1 : text := lit "import { apiUrl, apiFetch } from ".
Definition new_import2 : text := lit "import { API_BASE, apiUrl, apiFetch } from ".

(** The options object that holds only the credentials flag, and the
    closing parenthesis of the call. *)
Definition creds_object (v2 v3 : text) (q1 q2 : char) (v4 : text) : text :=
  lit "{" ++ v2 ++ lit "credentials:" ++ v3 ++ q1 :: lit "include" ++ q2 :: v4 ++ lit "})".

(** A legacy call with only the credentials flag. *)
Definition legacy_call (a v1 v2 v3 : text) (q1 q2 : char) (v4 : text) : text :=
  lit "fetch(apiUrl(" ++ a ++ lit ")," ++ v1 ++ creds_object v2 v3 q1 q2 v4.

(** A call of the new helper with only the credentials flag. *)
Definition helper_creds_call (a v1 v2 v3 : text) (q1 q2 : char) (v4 : text) : text :=
  lit "apiFetch(" ++ a ++ lit "," ++ v1 ++ creds_object v2 v3 q1 q2 v4.

(** The credentials flag followed by a comma: another option comes. *)
Definition creds_and_more : text :=
  lit " credentials: " ++ quoted "include" ++ lit ",".

(** A legacy call whose options open with the credentials flag and go on
    in [o]. *)
Definition legacy_more (a o : text) : text :=
  lit "fetch(apiUrl(" ++ a ++ lit "), {" ++ creds_and_more ++ o.

Definition lparen : char := 40%N.
Definition rparen : char := 41%N.
Definition comma : char := 44%N.
Definition lbrace : char := 123%N.

(** A legacy call without options. *)
Definition plain_call (a : text) : text := lit "fetch(apiUrl(" ++ a ++ lit "))".

(** The new-helper call with the options that open with the credentials
    flag and go on in [o]. *)
Definition migrated_more (a o : text) : text :=
  lit "apiFetch(" ++ a ++ lit ", {" ++ creds_and_more ++ o.

(** Some text [mid], then a comma and the options object that holds only
    the credentials flag: the end of a later call. *)
Definition later_creds (mid v1 v2 v3 : text) (q1 q2 : char) (v4 : text) : text :=
  mid ++ lit "," ++ v1 ++ creds_object v2 v3 q1 q2 v4.

(** [n] copies of a text in a row. *)
Fixpoint copies (n : nat) (t : text) : text :=
  match n with
  | O => []
  | S n' => t ++ copies n' t
  end.

(** [x] put at the end of every part but the last. *)
Fixpoint attach (x : text) (parts : list text) : list text :=
  match parts with
  | [] => []
  | [p] => [p]
  | p :: ps => (p ++ x) :: attach x ps
  end.

(** [v] is empty or opens with the first character of [old]. *)
Definition opens_like (old : text) (v : text) : Prop :=
  match v, old with
  | [], _ => True
  | d :: _, c :: _ => d = c
  | _ :: _, [] => False
  end.

End Shapes.
Import Shapes.

(** ** A sample working tree *)

Module Project.

Definition readme : path := lit "README.md".
Definition b_tsx : path := lit "src/components/b.tsx".
Definition notes_bak : path := lit "src/notes.ts.bak".
Definition c_ts : path := lit "lib/c.ts".
Definition gone_ts : path := lit "src/gone.ts".

(** The scan of the tree: a file outside src, the target of the helper,
    two modules, a backup file whose name has .ts inside, a module
    outside src. *)
Definition sample_tree : list path :=
  [readme; apiBase_path; a_ts; b_tsx; notes_bak; c_ts].

(** The same entries as another scan could give them. *)
Definition sample_tree' : list path :=
  [c_ts; notes_bak; b_tsx; a_ts; apiBase_path; readme].

Definition sample_files : gmap (list N) (list N) :=
  list_to_map
    [(readme, lit "# app"); (apiBase_path, apiBase_ts); (a_ts, legacy_creds);
     (b_tsx, quiet); (notes_bak, legacy_creds); (c_ts, legacy_creds)].

Definition sample_world : world := World sample_files [].

(** A tree without the target of the helper. *)
Definition bare_world : world := one_file a_ts legacy_creds.

(** A scan with an entry for which there is no file (a dangling link). *)
Definition broken_tree : list path := [apiBase_path; a_ts; gone_ts; b_tsx].

(** A call through an object of routes: it has the second substring of
    the guard and nothing that a pattern opens with. *)
Definition routes_call : text := lit "const r = await fetch(api.users);" ++ [nl].

(** A call without options and, after it, a call of something else with
    only the credentials flag. *)
Definition two_calls : text :=
  lit "await " ++ plain_call (quoted "/a") ++
  later_creds (lit "; await fetch(other") sp sp sp dq dq sp ++ lit ";".

Definition two_calls_migrated : text :=
  lit "await apiFetch(" ++ quoted "/a" ++ lit "); await fetch(other);".

(** What follows the credentials flag in [legacy_post]. *)
Definition post_option : text := lit " method: " ++ quoted "POST" ++ lit " })".

End Project.
Import Project.

(** ** Where the patterns match *)

Module Matching.

(** The number of times the character [c] occurs in [s]. *)
Fixpoint count (c : char) (s : text) : nat :=
  match s with
  | [] => 0
  | d :: s' => (if N.eqb d c then 1 else 0) + count c s'
  end.

(** [re.search(p, s) is not None]: the pattern matches at some position
    of [s], the end included. *)
Fixpoint search (p : pattern) (s : text) : bool :=
  match exec false p s 0 [] with
  | Some _ => true
  | None =>
      match s with
      | [] => false
      | _ :: s' => search p s'
      end
  end.

(** The six patterns, in the order of the script. *)
Definition patterns : list pattern :=
  [import1_re; import2_re; creds_re; opts_re; plain_re; strip_re].

(** None of the six patterns matches anywhere in [c]. *)
Definition settled (c : text) : bool :=
  forallb (fun p => negb (search p c)) patterns.

(** Every match of [p] is not empty and its replacement has at least [d]
    fewer characters [c] than the match. *)
Definition shrinks (p : pattern) (t : template) (c : char) (d : nat) : Prop :=
  forall s e mk,
    exec false p s 0 [] = Some (e, mk) ->
    0 < e /\ count c (expand t s mk) + d <= count c (take e s).

(** Every match of [p] is not empty and its replacement has at least [d]
    more characters [c] than the match. *)
Definition grows (p : pattern) (t : template) (c : char) (d : nat) : Prop :=
  forall s e mk,
    exec false p s 0 [] = Some (e, mk) ->
    0 < e /\ count c (take e s) + d <= count c (expand t s mk).

(** No proper end of [l] begins [h]. *)
Definition apart (l h : text) : bool :=
  forallb (fun k => clash (drop k l) h) (seq 1 (length l - 1)).

(** A call through an object of routes and a legacy call without
    options; what a first run makes of them. *)
Definition routes_then_call : text := lit "fetch(api.users); " ++ legacy_plain.
Definition routes_then_helper : text := lit "fetch(api.users); " ++ helper_call.



(** The content after the first five substitutions. *)
Definition first_five (c : text) : text := step5 (step4 (step3 (step2 (step1 c)))).

(** A legacy call whose argument is a call, with only the credentials
    flag. *)
Definition paren_arg : text :=
  lit "await fetch(apiUrl(f(a)), { credentials: " ++ quoted "include" ++ lit " });".

(** The pattern matches at no position of [u], when [u] stands before
    [s]. *)
Definition silent (p : pattern) (u s : text) : Prop :=
  forall i, i < length u -> exec false p (drop i (u ++ s)) 0 [] = None.





End Matching.
Import Matching.


(** ** Facts about texts *)

Section TextFacts.

Lemma startswith_app (p r : text) : startswith p (p ++ r) = true.
Proof.
  induction p as [|a p IH]; simpl; [reflexivity|].
  rewrite N.eqb_refl. exact IH.
Qed.

Lemma startswith_inv (p s : text) :
  startswith p s = true -> s = p ++ drop (length p) s.
Proof.
  revert s. induction p as [|a p IH]; intros [|b s] H; simpl in *; try reflexivity; try discriminate.
  apply andb_true_iff in H as [Hab H]. apply N.eqb_eq in Hab. subst b.
  f_equal. apply IH, H.
Qed.

Lemma startswith_nil_r (p : text) : p <> [] -> startswith p [] = false.
Proof. destruct p; [congruence | reflexivity]. Qed.

Lemma contains_here (p s : text) : startswith p s = true -> contains p s = true.
Proof. intros H. destruct s; simpl; rewrite H; reflexivity. Qed.

Lemma contains_app (a p b : text) : contains p (a ++ p ++ b) = true.
Proof.
  induction a as [|c a IH]; simpl.
  - apply contains_here, startswith_app.
  - rewrite IH. apply orb_true_r.
Qed.

Lemma contains_inv (p s : text) :
  contains p s = true -> exists a b, s = a ++ p ++ b.
Proof.
  induction s as [|c s IH]; simpl; intros H.
  - rewrite orb_false_r in H. apply startswith_inv in H.
    exists [], (drop (length p) []). exact H.
  - apply orb_true_iff in H as [H|H].
    + exists [], (drop (length p) (c :: s)). apply startswith_inv, H.
    + destruct (IH H) as (a & b & ->). exists (c :: a), b. reflexivity.
Qed.

Lemma contains_false_startswith (p s : text) :
  contains p s = false -> startswith p s = false.
Proof. destruct s; simpl; intros H; apply orb_false_iff in H; tauto. Qed.

Lemma contains_false_tail (p : text) (c : char) (s : text) :
  contains p (c :: s) = false -> contains p s = false.
Proof. simpl. intros H. apply orb_false_iff in H. tauto. Qed.

Lemma contains_occurrences (p s : text) :
  contains p s = false <-> occurrences p s = 0.
Proof.
  induction s as [|c s IH]; simpl.
  - destruct (startswith p []); simpl; split; congruence.
  - destruct (startswith p (c :: s)); simpl; [split; congruence|]. exact IH.
Qed.

(** Passing over [n] characters is dropping them. *)
Lemma replace_go_skip (old new s : text) (n : nat) :
  replace_go old new s n = replace_go old new (drop n s) 0.
Proof.
  revert n. induction s as [|c s IH]; intros [|n]; simpl; try reflexivity.
  apply IH.
Qed.

Lemma replace_here (old new r : text) :
  old <> [] -> replace old new (old ++ r) = new ++ replace old new r.
Proof.
  intros Hne. destruct old as [|a old]; [congruence|].
  unfold replace. change ((a :: old) ++ r) with (a :: old ++ r).
  cbn [replace_go].
  change (a :: old ++ r) with ((a :: old) ++ r).
  rewrite startswith_app. f_equal.
  rewrite replace_go_skip. simpl. rewrite Nat.sub_0_r.
  rewrite drop_app_length. reflexivity.
Qed.

Lemma replace_next (old new : text) (c : char) (s : text) :
  old <> [] -> startswith old (c :: s) = false ->
  replace old new (c :: s) = c :: replace old new s.
Proof.
  intros Hne H. destruct old as [|a old]; [congruence|].
  unfold replace. cbn [replace_go]. rewrite H. reflexivity.
Qed.

Lemma replace_nil (old new : text) : old <> [] -> replace old new [] = [].
Proof. destruct old; [congruence | reflexivity]. Qed.

(** A text without an occurrence of [old] is left as it is. *)
Lemma replace_absent (old new s : text) :
  old <> [] -> contains old s = false -> replace old new s = s.
Proof.
  intros Hne. induction s as [|c s IH]; intros H.
  - apply replace_nil, Hne.
  - rewrite replace_next; auto using contains_false_startswith.
    f_equal. apply IH. eapply contains_false_tail, H.
Qed.

Lemma startswith_app_l (p a b : text) :
  startswith p a = true -> startswith p (a ++ b) = true.
Proof.
  intros H. apply startswith_inv in H. rewrite H, <- app_assoc.
  apply startswith_app.
Qed.

Lemma self_free_ne (old : text) : self_free old -> old <> [].
Proof. destruct old; simpl; [tauto | congruence]. Qed.

Lemma occurrences_skip (c : char) (x t r : text) :
  mem c t = false -> occurrences (c :: x) (t ++ r) = occurrences (c :: x) r.
Proof.
  induction t as [|d t IH]; intros H; [reflexivity|].
  simpl in H. apply orb_false_iff in H as [Hd Ht].
  change ((d :: t) ++ r) with (d :: t ++ r). cbn [occurrences startswith].
  rewrite Hd. simpl. apply IH, Ht.
Qed.

Lemma occurrences_here (old r : text) :
  self_free old -> occurrences old (old ++ r) = S (occurrences old r).
Proof.
  destruct old as [|c rest]; simpl; [tauto|]. intros H.
  rewrite N.eqb_refl, startswith_app. simpl. f_equal.
  apply occurrences_skip, H.
Qed.

Lemma join_cons (sep p : text) (ps : list text) :
  ps <> [] -> join sep (p :: ps) = p ++ sep ++ join sep ps.
Proof. destruct ps; [congruence | reflexivity]. Qed.

Lemma join_cons_char (sep : text) (c : char) (p : text) (ps : list text) :
  join sep ((c :: p) :: ps) = c :: join sep (p :: ps).
Proof. destruct ps; reflexivity. Qed.

(** The text between the occurrences of [old]: [s] is these parts joined
    by [old], and [replace] joins them by [new] instead. *)
Lemma replace_parts (old new s : text) :
  self_free old ->
  exists parts : list text,
    length parts = S (occurrences old s) /\
    Forall (fun p => contains old p = false) parts /\
    s = join old parts /\
    replace old new s = join new parts.
Proof.
  intros Hsf. pose proof (self_free_ne _ Hsf) as Hne.
  remember (length s) as n eqn:Hn. revert s Hn.
  induction n as [n IH] using lt_wf_ind. intros s Hn.
  destruct s as [|c s].
  - exists [[]]. simpl. rewrite (startswith_nil_r _ Hne), (replace_nil _ _ Hne).
    repeat split. constructor; [|constructor]. simpl.
    rewrite (startswith_nil_r _ Hne). reflexivity.
  - destruct (startswith old (c :: s)) eqn:E.
    + pose proof (startswith_inv _ _ E) as Hs.
      set (r := drop (length old) (c :: s)) in *.
      assert (Hlen : length r < n).
      { subst n. apply (f_equal length) in Hs. rewrite length_app in Hs.
        destruct old; [congruence | simpl in *; lia]. }
      destruct (IH _ Hlen r eq_refl) as (parts & Hl & Hf & Hj & Hr).
      exists ([] :: parts). rewrite Hs.
      assert (parts <> []) by (destruct parts; simpl in Hl; congruence).
      rewrite occurrences_here, replace_here, !join_cons by assumption.
      simpl. rewrite Hl, <- Hj, Hr. repeat split.
      constructor; [|exact Hf]. simpl. rewrite (startswith_nil_r _ Hne). reflexivity.
    + assert (Hlen : length s < n) by (subst n; simpl; lia).
      destruct (IH _ Hlen s eq_refl) as (parts & Hl & Hf & Hj & Hr).
      destruct parts as [|p0 ps]; [discriminate|].
      exists ((c :: p0) :: ps).
      rewrite join_cons_char, <- Hj, replace_next, Hr by assumption.
      cbn [occurrences]. rewrite E. repeat split.
      * simpl in *. lia.
      * inversion Hf; subst. constructor; [|assumption].
        simpl. apply orb_false_iff. split; [|assumption].
        destruct (startswith old (c :: p0)) eqn:E0; [|reflexivity].
        rewrite <- E. symmetry. destruct ps as [|p1 ps].
        -- exact E0.
        -- rewrite join_cons by congruence.
           apply (startswith_app_l old (c :: p0)). exact E0.
      * symmetry. apply join_cons_char.
Qed.

Lemma join_length_grow (old extra : text) (parts : list text) :
  length (join (extra ++ old) parts) =
  length (join old parts) + (length parts - 1) * length extra.
Proof.
  induction parts as [|p ps IH]; [reflexivity|].
  destruct ps as [|q ps]; [simpl; lia|].
  rewrite (join_cons (extra ++ old)), (join_cons old) by congruence.
  rewrite !length_app, IH. simpl. rewrite ?Nat.sub_0_r. lia.
Qed.

(** A character foreign to [p] cannot lie inside an occurrence of [p]. *)
Lemma startswith_sep (p u : text) (d : char) (s : text) :
  mem d p = false -> startswith p (u ++ d :: s) = true -> startswith p u = true.
Proof.
  revert u. induction p as [|a p IH]; intros u Hd H; [reflexivity|].
  simpl in Hd. apply orb_false_iff in Hd as [Hda Hd].
  destruct u as [|b u]; simpl in *.
  - rewrite N.eqb_sym, Hda in H. discriminate.
  - apply andb_true_iff in H as [Hab H]. rewrite Hab. simpl. eauto.
Qed.

Lemma startswith_mem (p u : text) (c : char) :
  startswith p u = true -> mem c p = true -> mem c u = true.
Proof.
  revert u. induction p as [|a p IH]; intros u H Hc; [discriminate|].
  destruct u as [|b u]; [discriminate|]. simpl in *.
  apply andb_true_iff in H as [Hab H]. apply N.eqb_eq in Hab. subst b.
  destruct (N.eqb c a); simpl in *; eauto.
Qed.

Lemma mem_app (c : char) (u v : text) : mem c (u ++ v) = mem c u || mem c v.
Proof. induction u as [|a u IH]; simpl; [reflexivity|]. rewrite IH, orb_assoc. reflexivity. Qed.

Lemma mem_drop (c : char) (n : nat) (u : text) : mem c u = false -> mem c (drop n u) = false.
Proof.
  revert n. induction u as [|a u IH]; intros [|n] H; simpl in *; auto.
  apply orb_false_iff in H as [_ H]. auto.
Qed.

Lemma forallb_drop {A} (f : A -> bool) (n : nat) (u : list A) :
  forallb f u = true -> forallb f (drop n u) = true.
Proof.
  revert n. induction u as [|a u IH]; intros [|n] H; simpl in *; auto.
  apply andb_true_iff in H as [_ H]. auto.
Qed.

End TextFacts.

(** ** The monad *)

Section Monad.

Lemma bind_ok {A B} (m : io A) (k : A -> io B) (w w' : world) (a : A) :
  m w = (Ok a, w') -> (m ≫= k) w = k a w'.
Proof. intros H. unfold mbind, io_bind, bind. rewrite H. reflexivity. Qed.

Lemma read_text_ok (fp : path) (w : world) (c : text) :
  files w !! fp = Some c -> read_text fp w = (Ok c, w).
Proof. intros H. unfold read_text. rewrite H. reflexivity. Qed.

End Monad.

(** ** Facts about the matcher and [re.sub] *)

Section ReFacts.

Lemma repeat_max_bounded (a : cset) (k : cont) :
  bounded k -> bounded (repeat_max a k).
Proof.
  intros Hk s. induction s as [|c s IH]; intros pos mk e mk' H; simpl in H.
  - apply Hk in H. exact H.
  - destruct (accepts a c).
    + destruct (repeat_max a k s (S pos) mk) as [[e1 mk1]|] eqn:E.
      * inversion H; subst. apply IH in E. simpl. lia.
      * apply Hk in H. exact H.
    + apply Hk in H. exact H.
Qed.

Lemma exec_bounded (adv : bool) (p : pattern) : bounded (exec adv p).
Proof.
  induction p as [|o p IH]; intros s pos mk e mk' H.
  - simpl in H. destruct (adv && Nat.eqb pos 0); inversion H; subst. lia.
  - destruct o as [a|a|a|i]; simpl in H.
    + destruct s as [|c s]; [discriminate|].
      destruct (accepts a c); [|discriminate]. apply IH in H. simpl. lia.
    + eapply repeat_max_bounded in H; eauto.
    + destruct s as [|c s]; [discriminate|].
      destruct (accepts a c); [|discriminate].
      eapply repeat_max_bounded in H; eauto. simpl. lia.
    + apply IH in H. exact H.
Qed.

(** A greedy repeat that can take all of [u] and no more, before a rest
    of the pattern that accepts what follows. *)
Lemma repeat_max_greedy (a : cset) (k : cont) (u rest : text) pos mk r :
  forallb (accepts a) u = true -> stops a rest = true ->
  k rest (pos + length u) mk = Some r ->
  repeat_max a k (u ++ rest) pos mk = Some r.
Proof.
  revert pos. induction u as [|c u IH]; intros pos Hu Hs Hk; simpl in *.
  - rewrite Nat.add_0_r in Hk. destruct rest as [|d rest]; simpl; [exact Hk|].
    simpl in Hs. apply negb_true_iff in Hs. rewrite Hs. exact Hk.
  - apply andb_true_iff in Hu as [Hc Hu]. rewrite Hc.
    rewrite (IH (S pos)); auto. rewrite <- Hk. f_equal. lia.
Qed.

(** The same repeat when the rest of the pattern fails wherever the
    repeat stops. *)
Lemma repeat_max_none (a : cset) (k : cont) (u rest : text) pos mk :
  forallb (accepts a) u = true -> stops a rest = true ->
  (forall i, i <= length u -> k (drop i u ++ rest) (pos + i) mk = None) ->
  repeat_max a k (u ++ rest) pos mk = None.
Proof.
  revert pos. induction u as [|c u IH]; intros pos Hu Hs Hk; simpl in *.
  - specialize (Hk 0 (Nat.le_refl _)). rewrite Nat.add_0_r in Hk. simpl in Hk.
    destruct rest as [|d rest]; simpl; [exact Hk|].
    simpl in Hs. apply negb_true_iff in Hs. rewrite Hs. exact Hk.
  - apply andb_true_iff in Hu as [Hc Hu]. rewrite Hc.
    rewrite (IH (S pos)); auto.
    + specialize (Hk 0 (Nat.le_0_l _)). rewrite Nat.add_0_r in Hk. exact Hk.
    + intros i Hi. specialize (Hk (S i) (le_n_S _ _ Hi)). simpl in Hk.
      rewrite <- Hk. f_equal. lia.
Qed.

Lemma repeat_max_none_inv (a : cset) (k : cont) (u rest : text) pos mk :
  forallb (accepts a) u = true -> stops a rest = true ->
  repeat_max a k (u ++ rest) pos mk = None ->
  forall i, i <= length u -> k (drop i u ++ rest) (pos + i) mk = None.
Proof.
  revert pos. induction u as [|c u IH]; intros pos Hu Hs H i Hi; simpl in *.
  - assert (i = 0) by lia. subst i. rewrite Nat.add_0_r. simpl.
    destruct rest as [|d rest]; simpl in *; [exact H|].
    apply negb_true_iff in Hs. rewrite Hs in H. exact H.
  - apply andb_true_iff in Hu as [Hc Hu]. rewrite Hc in H.
    destruct (repeat_max a k (u ++ rest) (S pos) mk) eqn:E; [discriminate|].
    destruct i as [|i].
    + rewrite Nat.add_0_r. exact H.
    + simpl. replace (pos + S i) with (S pos + i) by lia.
      apply IH; auto. lia.
Qed.

Lemma repeat_max_either (a : cset) (k : cont) (u rest : text) pos mk r :
  forallb (accepts a) u = true -> stops a rest = true ->
  (forall i, i <= length u ->
     k (drop i u ++ rest) (pos + i) mk = None \/
     k (drop i u ++ rest) (pos + i) mk = Some r) ->
  repeat_max a k (u ++ rest) pos mk = None \/
  repeat_max a k (u ++ rest) pos mk = Some r.
Proof.
  revert pos. induction u as [|c u IH]; intros pos Hu Hs Hall; simpl in *.
  - specialize (Hall 0 (Nat.le_refl _)). rewrite Nat.add_0_r in Hall. simpl in Hall.
    destruct rest as [|d rest]; simpl in *; [exact Hall|].
    apply negb_true_iff in Hs. rewrite Hs. exact Hall.
  - apply andb_true_iff in Hu as [Hc Hu]. rewrite Hc.
    destruct (IH (S pos) Hu Hs) as [H|H].
    + intros i Hi. specialize (Hall (S i) (le_n_S _ _ Hi)). simpl in Hall.
      replace (S pos + i) with (pos + S i) by lia. exact Hall.
    + rewrite H. specialize (Hall 0 (Nat.le_0_l _)).
      rewrite Nat.add_0_r in Hall. exact Hall.
    + rewrite H. right. reflexivity.
Qed.

(** The same repeat when the rest of the pattern, wherever it succeeds,
    gives one and the same result. *)
Lemma repeat_max_const (a : cset) (k : cont) (u rest : text) pos mk r :
  forallb (accepts a) u = true -> stops a rest = true ->
  (forall i, i <= length u ->
     k (drop i u ++ rest) (pos + i) mk = None \/
     k (drop i u ++ rest) (pos + i) mk = Some r) ->
  (exists i, i <= length u /\ k (drop i u ++ rest) (pos + i) mk = Some r) ->
  repeat_max a k (u ++ rest) pos mk = Some r.
Proof.
  intros Hu Hs Hall (i & Hi & Hk).
  destruct (repeat_max_either a k u rest pos mk r Hu Hs Hall) as [H|H]; [|exact H].
  rewrite (repeat_max_none_inv a k u rest pos mk Hu Hs H i Hi) in Hk. discriminate.
Qed.

(** Literal characters of the pattern against the text. *)
Lemma exec_lits (adv : bool) (l : text) (p : pattern) (s : text) pos mk :
  exec adv (lits l ++ p) s pos mk =
  if startswith l s then exec adv p (drop (length l) s) (pos + length l) mk
  else None.
Proof.
  revert s pos. induction l as [|a l IH]; intros s pos; simpl.
  - rewrite Nat.add_0_r. reflexivity.
  - destruct s as [|b s]; [reflexivity|]. simpl.
    rewrite (N.eqb_sym a b). destruct (N.eqb b a); simpl; [|reflexivity].
    rewrite IH. replace (S pos + length l) with (pos + S (length l)) by lia.
    reflexivity.
Qed.

Lemma exec_lits_app (adv : bool) (l : text) (p : pattern) (s : text) pos mk :
  exec adv (lits l ++ p) (l ++ s) pos mk = exec adv p s (pos + length l) mk.
Proof. rewrite exec_lits, startswith_app, drop_app_length. reflexivity. Qed.

Lemma exec_lits_fail (adv : bool) (l : text) (p : pattern) (s : text) pos mk :
  startswith l s = false -> exec adv (lits l ++ p) s pos mk = None.
Proof. intros H. rewrite exec_lits, H. reflexivity. Qed.

(** *** Running the matcher on a text of known shape *)

Lemma exec_one (adv : bool) (a : cset) (p : pattern) (c : char) (s : text) pos mk :
  accepts a c = true ->
  exec adv (One a :: p) (c :: s) pos mk = exec adv p s (S pos) mk.
Proof. intros H. simpl. rewrite H. reflexivity. Qed.

Lemma exec_one_fail (adv : bool) (a : cset) (p : pattern) (s : text) pos mk :
  stops a s = true -> exec adv (One a :: p) s pos mk = None.
Proof.
  destruct s as [|c s]; simpl; [reflexivity|]. intros H.
  apply negb_true_iff in H. rewrite H. reflexivity.
Qed.

Lemma exec_star_greedy (adv : bool) (a : cset) (p : pattern) (u rest : text) pos mk r :
  forallb (accepts a) u = true -> stops a rest = true ->
  exec adv p rest (pos + length u) mk = Some r ->
  exec adv (Star a :: p) (u ++ rest) pos mk = Some r.
Proof. apply repeat_max_greedy. Qed.

Lemma exec_ws (adv : bool) (p : pattern) (u rest : text) pos mk r :
  forallb is_space u = true -> stops CSpace rest = true ->
  exec adv p rest (pos + length u) mk = Some r ->
  exec adv (ws ++ p) (u ++ rest) pos mk = Some r.
Proof. apply (exec_star_greedy adv CSpace). Qed.

Lemma exec_plus_greedy (adv : bool) (a : cset) (p : pattern) (u rest : text) pos mk r :
  u <> [] -> forallb (accepts a) u = true -> stops a rest = true ->
  exec adv p rest (pos + length u) mk = Some r ->
  exec adv (Plus a :: p) (u ++ rest) pos mk = Some r.
Proof.
  intros Hne Hu Hs Hk. destruct u as [|c u]; [congruence|].
  simpl in Hu. apply andb_true_iff in Hu as [Hc Hu].
  simpl. rewrite Hc. apply repeat_max_greedy; auto.
  rewrite <- Hk. f_equal. simpl. lia.
Qed.

Lemma exec_mark (adv : bool) (i : nat) (p : pattern) (s : text) pos mk :
  exec adv (Mark i :: p) s pos mk = exec adv p s pos ((i, pos) :: mk).
Proof. reflexivity. Qed.

(** The text of a group whose marks stand at the two ends of [y]. *)
Lemma group_between (g : nat) (x y z : text) (mk : marks) (b e : nat) :
  mark_get (2 * g - 2) mk = Some b -> mark_get (2 * g - 1) mk = Some e ->
  b = length x -> e = length x + length y ->
  group g (x ++ y ++ z) mk = y.
Proof.
  intros Hb He -> ->. unfold group. rewrite Hb, He.
  rewrite drop_app_length. replace (length x + length y - length x) with (length y) by lia.
  apply take_app_length.
Qed.

(** Passing over [n] characters is dropping them. *)
Lemma sub_go_skip (p : pattern) (t : template) (s : text) (n : nat) :
  n <= length s -> sub_go p t s n = sub_go p t (drop n s) 0.
Proof.
  revert n. induction s as [|c s IH]; intros [|n] Hn; simpl in *; try reflexivity.
  - lia.
  - apply IH. lia.
Qed.

(** A match at the head of the text is replaced, and the scan goes on
    after it. *)
Lemma sub_match (p : pattern) (t : template) (s : text) (e : nat) (mk : marks) :
  exec false p s 0 [] = Some (e, mk) -> e <> 0 ->
  sub p t s = expand t s mk ++ sub p t (drop e s).
Proof.
  intros H He. destruct e as [|n]; [congruence|].
  pose proof (exec_bounded _ _ _ _ _ _ _ H) as [_ Hb].
  destruct s as [|c s]; simpl in Hb; [lia|].
  unfold sub. simpl. rewrite H. f_equal. apply sub_go_skip. lia.
Qed.

(** No match at the head of the text: the character is copied. *)
Lemma sub_next (p : pattern) (t : template) (c : char) (s : text) :
  exec false p (c :: s) 0 [] = None ->
  sub p t (c :: s) = c :: sub p t s.
Proof. intros H. unfold sub. simpl. rewrite H. reflexivity. Qed.

Lemma sub_end (p : pattern) (t : template) :
  exec false p [] 0 [] = None -> sub p t [] = [].
Proof. intros H. unfold sub. simpl. rewrite H. reflexivity. Qed.

(** No match begins in [u]: [u] is copied. *)
Lemma sub_skip (p : pattern) (t : template) (u s : text) :
  (forall i, i < length u -> exec false p (drop i (u ++ s)) 0 [] = None) ->
  sub p t (u ++ s) = u ++ sub p t s.
Proof.
  induction u as [|c u IH]; intros H; [reflexivity|].
  simpl. rewrite sub_next.
  - f_equal. apply IH. intros i Hi. apply (H (S i)). simpl. lia.
  - apply (H 0). simpl. lia.
Qed.

(** A pattern that opens with a literal [l] matches only where [l] is. *)
Lemma sub_absent (l : text) (p : pattern) (t : template) (s : text) :
  l <> [] -> contains l s = false -> sub (lits l ++ p) t s = s.
Proof.
  intros Hne. induction s as [|c s IH]; intros H.
  - apply sub_end, exec_lits_fail, startswith_nil_r, Hne.
  - rewrite sub_next.
    + f_equal. apply IH. eapply contains_false_tail, H.
    + apply exec_lits_fail, contains_false_startswith, H.
Qed.

(** *** Where no match can begin *)

Lemma exec_opens_fail (adv : bool) (l : text) (p : pattern) (s : text) pos mk :
  opens_with l p -> startswith l s = false -> exec adv p s pos mk = None.
Proof. intros Hp H. rewrite Hp. apply exec_lits_fail, H. Qed.

Lemma clash_startswith (l u s : text) :
  clash l u = true -> startswith l (u ++ s) = false.
Proof.
  revert u. induction l as [|a l IH]; intros [|b u] H; simpl in *; try discriminate.
  destruct (N.eqb a b); simpl in *; [auto | reflexivity].
Qed.

(** A known text in which the opening literal begins nowhere is copied. *)
Lemma sub_skip_clashes (l : text) (p : pattern) (t : template) (u s : text) :
  opens_with l p -> clashes l u = true -> sub p t (u ++ s) = u ++ sub p t s.
Proof.
  intros Hp. induction u as [|c u IH]; intros H; [reflexivity|].
  simpl in H. apply andb_true_iff in H as [Hc Hu].
  change ((c :: u) ++ s) with (c :: u ++ s). rewrite sub_next.
  - simpl. f_equal. apply IH, Hu.
  - apply (exec_opens_fail _ l); auto.
    apply (clash_startswith l (c :: u) s Hc).
Qed.

Lemma startswith_foreign (l a s : text) (c : char) :
  mem c l = true -> mem c a = false -> foreign_next l s = true ->
  startswith l (a ++ s) = false.
Proof.
  intros Hc Ha Hd. destruct (startswith l (a ++ s)) eqn:E; [|reflexivity].
  assert (E' : startswith l a = true).
  { destruct s as [|d s]; [rewrite app_nil_r in E; exact E|].
    simpl in Hd. apply negb_true_iff in Hd. eapply startswith_sep; eauto. }
  rewrite (startswith_mem _ _ _ E' Hc) in Ha. discriminate.
Qed.

(** A text [a] that lacks a character of the opening literal, when the
    next character is foreign to the literal, is copied. *)
Lemma sub_skip_foreign (l : text) (p : pattern) (t : template) (a s : text) (c : char) :
  opens_with l p -> mem c l = true -> mem c a = false -> foreign_next l s = true ->
  sub p t (a ++ s) = a ++ sub p t s.
Proof.
  intros Hp Hc Ha Hd. apply sub_skip. intros i Hi.
  rewrite drop_app_le by lia.
  apply (exec_opens_fail _ l); auto.
  apply (startswith_foreign l _ s c); auto using mem_drop.
Qed.

Lemma exec_star_one_fail (adv : bool) (l : text) (c : char) (p : pattern)
    (u s : text) pos mk :
  mem c u = false -> blocks_next l c s = true ->
  exec adv (Star CSpace :: One (CLit c) :: p) (u ++ s) pos mk = None.
Proof.
  intros Hu Hs. cbn [exec]. revert pos.
  induction u as [|x u IH]; intros pos; simpl.
  - destruct s as [|d s]; [reflexivity|]. simpl in *.
    apply andb_true_iff in Hs as [Hs _]. apply andb_true_iff in Hs as [Hdc Hsp].
    apply negb_true_iff in Hdc, Hsp. rewrite Hsp, Hdc. reflexivity.
  - simpl in Hu. apply orb_false_iff in Hu as [Hx Hu].
    rewrite (IH Hu). rewrite N.eqb_sym, Hx.
    destruct (is_space x); reflexivity.
Qed.

(** The same for a pattern that wants [c] after its opening literal and
    white space, when [a] has no [c]. *)
Lemma sub_skip_wanting (l : text) (c : char) (p : pattern) (t : template) (a s : text) :
  opens_with_then l c p -> mem c a = false -> blocks_next l c s = true ->
  sub p t (a ++ s) = a ++ sub p t s.
Proof.
  intros Hp Ha Hs. apply sub_skip. intros i Hi.
  rewrite drop_app_le by lia. rewrite Hp, exec_lits.
  destruct (startswith l (drop i a ++ s)) eqn:E; [|reflexivity].
  assert (E' : startswith l (drop i a) = true).
  { destruct s as [|d s]; [rewrite app_nil_r in E; exact E|].
    simpl in Hs. apply andb_true_iff in Hs as [_ Hs]. apply negb_true_iff in Hs.
    eapply startswith_sep; eauto. }
  apply startswith_inv in E'.
  rewrite E', <- app_assoc, drop_app_length.
  apply (exec_star_one_fail _ l); auto.
  apply mem_drop, mem_drop, Ha.
Qed.

Lemma avoids_mem (cs : string) (u : text) (c : char) :
  avoids cs u = true -> mem c (lit cs) = true -> mem c u = false.
Proof.
  intros Hu Hc. induction u as [|x u IH]; [reflexivity|].
  simpl in *. apply andb_true_iff in Hu as [Hx Hu]. rewrite (IH Hu), orb_false_r.
  destruct (N.eqb c x) eqn:E; [|reflexivity].
  apply N.eqb_eq in E. subst x. rewrite Hc in Hx. discriminate.
Qed.

Lemma startswith_space (l : text) (x : char) (s : text) :
  opens_plainly l -> is_space x = true -> startswith l (x :: s) = false.
Proof.
  destruct l as [|c l]; simpl; [tauto|]. intros Hc Hx.
  destruct (N.eqb c x) eqn:E; [|reflexivity].
  apply N.eqb_eq in E. subst x. congruence.
Qed.

(** White space is copied by a pattern that opens with a literal. *)
Lemma sub_skip_spaces (l : text) (p : pattern) (t : template) (u s : text) :
  opens_with l p -> opens_plainly l -> spaces u ->
  sub p t (u ++ s) = u ++ sub p t s.
Proof.
  intros Hp Hl. induction u as [|x u IH]; intros Hu; [reflexivity|].
  unfold spaces in Hu. simpl in Hu. apply andb_true_iff in Hu as [Hx Hu].
  change ((x :: u) ++ s) with (x :: u ++ s). rewrite sub_next.
  - simpl. f_equal. apply IH, Hu.
  - apply (exec_opens_fail _ l); auto using startswith_space.
Qed.


(** The steps as calls of [re.sub]. *)
Lemma step1_eq (x : text) : step1 x = sub import1_re import1_to x.
Proof. reflexivity. Qed.

Lemma step2_eq (x : text) : step2 x = sub import2_re import2_to x.
Proof. reflexivity. Qed.

Lemma step3_eq (x : text) : step3 x = sub creds_re creds_to x.
Proof. reflexivity. Qed.

Lemma step4_eq (x : text) : step4 x = sub opts_re opts_to x.
Proof. reflexivity. Qed.

Lemma step5_eq (x : text) : step5 x = sub plain_re plain_to x.
Proof. reflexivity. Qed.

Lemma step6_eq (x : text) : step6 x = sub strip_re strip_to x.
Proof. reflexivity. Qed.

Lemma import1_opens : opens_with_then (lit "import") lbrace import1_re.
Proof. reflexivity. Qed.

Lemma import2_opens : opens_with_then (lit "import") lbrace import2_re.
Proof. reflexivity. Qed.

Lemma import1_opens_with : opens_with (lit "import") import1_re.
Proof. reflexivity. Qed.

Lemma import2_opens_with : opens_with (lit "import") import2_re.
Proof. reflexivity. Qed.

Lemma creds_opens : opens_with (lit "fetch(apiUrl(") creds_re.
Proof. reflexivity. Qed.

Lemma opts_opens : opens_with (lit "fetch(apiUrl(") opts_re.
Proof. reflexivity. Qed.

Lemma plain_opens : opens_with (lit "fetch(apiUrl(") plain_re.
Proof. reflexivity. Qed.

Lemma strip_opens : opens_with (lit "apiFetch(") strip_re.
Proof. reflexivity. Qed.

(** *** More on where no match can begin *)

Lemma mem_contains (l a : text) (c : char) :
  mem c l = true -> mem c a = false -> contains l a = false.
Proof.
  intros Hl Ha. destruct (contains l a) eqn:E; [|reflexivity].
  apply contains_inv in E as (x & y & ->).
  rewrite !mem_app, Hl, orb_true_r in Ha. discriminate.
Qed.

(** A text that lacks a character of the opening literal is copied. *)
Lemma sub_skip_lacking (l : text) (p : pattern) (t : template) (a : text) (c : char) :
  opens_with l p -> mem c l = true -> mem c a = false -> sub p t a = a.
Proof.
  intros Hp Hl Ha. rewrite Hp. apply sub_absent.
  - destruct l; [discriminate | congruence].
  - eapply mem_contains; eauto.
Qed.

Lemma exec_star_one_absent (adv : bool) (c : char) (p : pattern) (s : text) pos mk :
  mem c s = false ->
  exec adv (Star CSpace :: One (CLit c) :: p) s pos mk = None.
Proof.
  cbn [exec]. revert pos. induction s as [|x s IH]; intros pos Hs; simpl; [reflexivity|].
  simpl in Hs. apply orb_false_iff in Hs as [Hx Hs].
  rewrite (IH _ Hs), N.eqb_sym, Hx. destruct (is_space x); reflexivity.
Qed.

Lemma startswith_past (l1 : text) (c : char) (l2 w s : text) :
  startswith (l1 ++ c :: l2) (w ++ s) = true -> length l1 < length w ->
  mem c w = true.
Proof.
  revert w. induction l1 as [|y l1 IH]; intros [|x w] H Hl; simpl in *; try lia.
  - apply andb_true_iff in H as [H _]. rewrite H. reflexivity.
  - apply andb_true_iff in H as [_ H]. rewrite (IH w H); [apply orb_true_r | lia].
Qed.

(** Before a text whose first parenthesis comes no sooner than that of
    the opening literal, a text without parenthesis is copied. *)
Lemma sub_skip_before_paren (l : text) (p : pattern) (t : template)
    (l1 l2 u v1 v2 : text) :
  opens_with l p -> l = l1 ++ lparen :: l2 ->
  mem lparen u = false -> mem lparen v1 = false -> length l1 <= length v1 ->
  sub p t (u ++ v1 ++ lparen :: v2) = u ++ sub p t (v1 ++ lparen :: v2).
Proof.
  intros Hp Hl Hu Hv Hlen. apply sub_skip. intros i Hi.
  rewrite drop_app_le by lia. apply (exec_opens_fail _ l); auto.
  destruct (startswith l (drop i u ++ v1 ++ lparen :: v2)) eqn:E; [|reflexivity].
  rewrite Hl, app_assoc in E. apply startswith_past in E.
  - rewrite mem_app, Hv, (mem_drop _ _ _ Hu) in E. discriminate.
  - rewrite length_app, length_drop. lia.
Qed.

(** A repeat before a rest of the pattern that fails everywhere. *)
Lemma repeat_max_fails (a : cset) (k : cont) (s : text) pos mk :
  (forall i, k (drop i s) (pos + i) mk = None) ->
  repeat_max a k s pos mk = None.
Proof.
  revert pos. induction s as [|x s IH]; intros pos H; simpl.
  - specialize (H 0). rewrite Nat.add_0_r in H. exact H.
  - rewrite IH.
    + specialize (H 0). rewrite Nat.add_0_r in H. simpl in H. rewrite H.
      destruct (accepts a x); reflexivity.
    + intros i. specialize (H (S i)). simpl in H. rewrite <- H. f_equal. lia.
Qed.

End ReFacts.

(** ** inject-helper: [add_apiFetch_to_apiBase] *)

Section InjectHelper.

Lemma anchor_self_free : self_free anchor.
Proof. reflexivity. Qed.

Lemma anchor_ne : anchor <> [].
Proof. discriminate. Qed.

Lemma add_apiFetch_run (w : world) (c : text) :
  files w !! apiBase_path = Some c ->
  add_apiFetch_to_apiBase w =
    (Ok tt, World (<[apiBase_path := inject c]> (files w))
                  (trace w ++ [EvWrite apiBase_path (inject c);
                               EvPrint (updated_msg apiBase_path)])).
Proof.
  intros H. unfold add_apiFetch_to_apiBase.
  rewrite (bind_ok _ _ _ _ _ (read_text_ok _ _ _ H)).
  unfold mbind, io_bind, bind, write_text, print. simpl.
  rewrite <- app_assoc. reflexivity.
Qed.

(** C6. When the target file has no anchor line, its content stays as it
    is, and the content is written back all the same: the run ends with
    one write of the unchanged content and the printed notice. *)
Theorem inject_without_anchor_rewrites_same_content (w : world) (c : text) :
  files w !! apiBase_path = Some c ->
  contains anchor c = false ->
  inject c = c /\
  exists w',
    add_apiFetch_to_apiBase w = (Ok tt, w') /\
    files w' = files w /\
    trace w' = trace w ++ [EvWrite apiBase_path c; EvPrint (updated_msg apiBase_path)].
Proof.
  intros Hf Hc.
  assert (Hi : inject c = c) by (apply replace_absent; [apply anchor_ne | exact Hc]).
  split; [exact Hi|].
  eexists. split; [apply add_apiFetch_run, Hf|]. simpl. rewrite Hi.
  split; [|reflexivity]. apply insert_id, Hf.
Qed.

Lemma inject_without_anchor_witness :
  inject quiet = quiet /\
  exists w',
    add_apiFetch_to_apiBase (one_file apiBase_path quiet) = (Ok tt, w') /\
    files w' = files (one_file apiBase_path quiet) /\
    trace w' = [EvWrite apiBase_path quiet; EvPrint (updated_msg apiBase_path)].
Proof.
  apply (inject_without_anchor_rewrites_same_content (one_file apiBase_path quiet) quiet);
    reflexivity.
Defined.

(** C9. If the anchor occurs k >= 1 times, the content is k+1 parts, none
    with an anchor in it, joined by the anchor, and the new content is the
    same parts joined by the helper text followed by the anchor: the text
    is inserted right before each of the k occurrences. *)
Theorem inject_before_every_anchor (content : text) (k : nat) :
  occurrences anchor content = k -> 1 <= k ->
  exists parts : list text,
    length parts = S k /\
    Forall (fun p => contains anchor p = false) parts /\
    content = join anchor parts /\
    inject content = join (apiFetch_code ++ anchor) parts.
Proof.
  intros Hk _. subst k. apply replace_parts, anchor_self_free.
Qed.

Lemma inject_before_every_anchor_witness :
  exists parts : list text,
    length parts = 3 /\
    Forall (fun p => contains anchor p = false) parts /\
    two_anchors = join anchor parts /\
    inject two_anchors = join (apiFetch_code ++ anchor) parts.
Proof.
  apply (inject_before_every_anchor two_anchors 2); [reflexivity | lia].
Defined.

Lemma inject_grows (c : text) :
  contains anchor c = true ->
  length c < length (inject c) /\ contains anchor (inject c) = true.
Proof.
  intros Hc.
  destruct (replace_parts anchor (apiFetch_code ++ anchor) c anchor_self_free)
    as (parts & Hl & _ & Hj & Hr).
  assert (Hocc : occurrences anchor c <> 0).
  { intros H0. apply contains_occurrences in H0. congruence. }
  fold (inject c) in Hr. rewrite Hr. split.
  - rewrite join_length_grow, <- Hj, Hl.
    change (length apiFetch_code) with 713. lia.
  - destruct parts as [|p0 [|p1 ps]]; simpl in Hl; try lia.
    rewrite join_cons by congruence. rewrite <- !app_assoc.
    rewrite (app_assoc p0). apply contains_app.
Qed.

(** C2, as the code has it.  The helper text is inserted whether or not
    it is there already: whenever the content has the anchor, injecting
    changes it, and injecting twice differs from injecting once. *)
Theorem inject_twice_differs (c : text) :
  contains anchor c = true ->
  inject c <> c /\ inject (inject c) <> inject c.
Proof.
  intros Hc. destruct (inject_grows c Hc) as [H1 H2].
  destruct (inject_grows (inject c) H2) as [H3 _].
  split; intros E; rewrite E in *; lia.
Qed.

Lemma inject_twice_differs_witness :
  inject apiBase_ts <> apiBase_ts /\ inject (inject apiBase_ts) <> inject apiBase_ts.
Proof. apply (inject_twice_differs apiBase_ts). reflexivity. Defined.

(** Against C2 as stated: after one injection the helper text is in the
    file, and a second injection changes the file again. *)
Lemma inject_twice_counterexample :
  contains anchor apiBase_ts = true /\
  contains apiFetch_code (inject apiBase_ts) = true /\
  inject (inject apiBase_ts) <> inject apiBase_ts.
Proof.
  split; [reflexivity|]. split; [vm_compute; reflexivity|].
  intros H. apply (f_equal length) in H. vm_compute in H. discriminate.
Qed.

End InjectHelper.

(** ** migrate-call-sites: [update_file_with_apiFetch] *)

Section Migrate.

Lemma update_run (fp : path) (w : world) (original : text) :
  files w !! fp = Some original ->
  update_file_with_apiFetch fp w =
    if negb (contains (lit "fetch(apiUrl(") original) &&
       negb (contains (lit "fetch(api") original)
    then (Ok false, w)
    else if negb (text_eqb (substitutions original) original)
    then (Ok true,
          World (<[fp := substitutions original]> (files w))
                (trace w ++ [EvWrite fp (substitutions original);
                             EvPrint (updated_msg fp)]))
    else (Ok false, w).
Proof.
  intros H. unfold update_file_with_apiFetch.
  rewrite (bind_ok _ _ _ _ _ (read_text_ok _ _ _ H)).
  destruct (negb _ && negb _); [reflexivity|].
  destruct (negb (text_eqb _ _)); [|reflexivity].
  unfold mbind, io_bind, bind, write_text, print, mret, io_ret, ret. simpl.
  rewrite <- app_assoc. reflexivity.
Qed.

(** C5. A file in which neither legacy-call substring occurs is left as
    it is, nothing is written or printed, and the result is false. *)
Theorem update_skips_file_without_legacy_call (fp : path) (w : world) (c : text) :
  files w !! fp = Some c ->
  contains (lit "fetch(apiUrl(") c = false ->
  contains (lit "fetch(api") c = false ->
  update_file_with_apiFetch fp w = (Ok false, w).
Proof.
  intros Hf H1 H2. rewrite (update_run _ _ _ Hf), H1, H2. reflexivity.
Qed.

Lemma update_skips_witness :
  update_file_with_apiFetch a_ts (one_file a_ts quiet) = (Ok false, one_file a_ts quiet).
Proof.
  apply (update_skips_file_without_legacy_call a_ts (one_file a_ts quiet) quiet);
    reflexivity.
Defined.

(** C4. The result is true exactly when the final content differs from
    the original; in that case the file is written once with that
    content and the notice is printed, otherwise nothing is written. *)
Theorem update_true_iff_changed_and_written (fp : path) (w : world) (original : text) :
  files w !! fp = Some original ->
  exists (b : bool) (w' : world) (content : text),
    update_file_with_apiFetch fp w = (Ok b, w') /\
    content =
      (if negb (contains (lit "fetch(apiUrl(") original) &&
          negb (contains (lit "fetch(api") original)
       then original else substitutions original) /\
    files w' !! fp = Some content /\
    (b = true <-> content <> original) /\
    (if b
     then files w' = <[fp := content]> (files w) /\
          trace w' = trace w ++ [EvWrite fp content; EvPrint (updated_msg fp)]
     else w' = w).
Proof.
  intros Hf. rewrite (update_run _ _ _ Hf).
  destruct (negb _ && negb _).
  - exists false, w, original. repeat split; auto; try congruence.
  - unfold text_eqb. destruct (bool_decide_reflect (substitutions original = original)) as [E|E]; simpl.
    + exists false, w, (substitutions original).
      repeat split; auto; congruence.
    + eexists true, _, (substitutions original). simpl.
      repeat split; auto. apply lookup_insert_eq.
Qed.

Lemma update_true_iff_changed_witness :
  exists (b : bool) (w' : world) (content : text),
    update_file_with_apiFetch a_ts (one_file a_ts legacy_plain) = (Ok b, w') /\
    content =
      (if negb (contains (lit "fetch(apiUrl(") legacy_plain) &&
          negb (contains (lit "fetch(api") legacy_plain)
       then legacy_plain else substitutions legacy_plain) /\
    files w' !! a_ts = Some content /\
    (b = true <-> content <> legacy_plain) /\
    (if b
     then files w' = <[a_ts := content]> (files (one_file a_ts legacy_plain)) /\
          trace w' = trace (one_file a_ts legacy_plain) ++
                     [EvWrite a_ts content; EvPrint (updated_msg a_ts)]
     else w' = one_file a_ts legacy_plain).
Proof.
  apply (update_true_iff_changed_and_written a_ts (one_file a_ts legacy_plain) legacy_plain).
  reflexivity.
Defined.

Lemma contains_longer (p q s : text) :
  contains (p ++ q) s = true -> contains p s = true.
Proof.
  intros H. apply contains_inv in H as (a & b & ->).
  rewrite <- app_assoc. apply contains_app.
Qed.

(** Against C1 as stated: on a legacy call nested in a legacy call the
    second run changes the file again and gives true. *)
Lemma second_run_counterexample :
  exists w1 w2,
    update_file_with_apiFetch a_ts (one_file a_ts nested) = (Ok true, w1) /\
    files w1 !! a_ts = Some (lit "apiFetch(fetch(apiUrl(x)))") /\
    update_file_with_apiFetch a_ts w1 = (Ok true, w2) /\
    files w2 !! a_ts = Some (lit "apiFetch(apiFetch(x))").
Proof.
  eexists. eexists. split; [vm_compute; reflexivity|].
  split; [reflexivity|]. split; [vm_compute; reflexivity|]. reflexivity.
Qed.

(** Against C3 as stated: a first argument with a comma in it keeps the
    options object that holds only the credentials flag. *)
Lemma strip_comma_counterexample :
  step6 comma_arg_migrated = comma_arg_migrated /\
  exists w1,
    update_file_with_apiFetch a_ts (one_file a_ts comma_arg) = (Ok true, w1) /\
    files w1 !! a_ts = Some comma_arg_migrated.
Proof.
  split; [vm_compute; reflexivity|].
  eexists. split; [vm_compute; reflexivity|]. reflexivity.
Qed.

End Migrate.

(** ** The import statements (patterns 1 and 2) *)

Section Imports.

Lemma quote_cases (q : char) : is_quote q = true -> q = dq \/ q = sq.
Proof.
  unfold is_quote. simpl. intros H.
  apply orb_true_iff in H as [H|H]; [left; apply N.eqb_eq, H|].
  apply orb_true_iff in H as [H|H]; [right; apply N.eqb_eq, H | discriminate].
Qed.

Lemma quote_stops (q : char) (rest : text) :
  is_quote q = true -> stops (CNotIn [dq; sq]) (q :: rest) = true.
Proof. intros H. apply quote_cases in H as [->| ->]; reflexivity. Qed.

Lemma quote_space_stops (q : char) (rest : text) :
  is_quote q = true -> stops CSpace (q :: rest) = true.
Proof. intros H. apply quote_cases in H as [->| ->]; reflexivity. Qed.

Lemma exec_path_tail (m3 : text) (q' : char) (rest : text) pos mk :
  no_quote m3 = true -> is_quote q' = true ->
  exec false path_tail (lit "apiBase" ++ m3 ++ q' :: rest) pos mk =
  Some (S (pos + 7 + length m3),
        (5, S (pos + 7 + length m3)) :: (4, pos + 7 + length m3) ::
        (3, pos + 7 + length m3) :: mk).
Proof.
  intros Hm Hq. unfold path_tail. rewrite exec_lits_app.
  apply exec_star_greedy; auto using quote_stops.
  change (length (lit "apiBase")) with 7.
  cbn [exec]. unfold is_quote in Hq. rewrite Hq. reflexivity.
Qed.

(** The module path: the first repeat takes the whole path and gives
    characters back until apiBase follows; wherever it stops, the second
    repeat runs to the closing quote, so that the result is the same. *)
Lemma exec_path (m : text) (q' : char) (rest : text) pos mk :
  no_quote m = true -> is_quote q' = true -> contains (lit "apiBase") m = true ->
  exec false (Star (CNotIn [dq; sq]) :: path_tail) (m ++ q' :: rest) pos mk =
  Some (S (pos + length m),
        (5, S (pos + length m)) :: (4, pos + length m) :: (3, pos + length m) :: mk).
Proof.
  intros Hm Hq Hc. cbn [exec].
  assert (Hstep : forall i, i <= length m ->
            startswith (lit "apiBase") (drop i m) = true ->
            exec false path_tail (drop i m ++ q' :: rest) (pos + i) mk =
            Some (S (pos + length m),
                  (5, S (pos + length m)) :: (4, pos + length m) ::
                  (3, pos + length m) :: mk)).
  { intros i Hi Hs. apply startswith_inv in Hs.
    pose proof (f_equal length Hs) as Hl. rewrite length_app, length_drop in Hl.
    change (length (lit "apiBase")) with 7 in *.
    rewrite Hs, <- app_assoc, exec_path_tail; auto.
    - replace (pos + i + 7 + length (drop 7 (drop i m))) with (pos + length m) by lia.
      reflexivity.
    - unfold no_quote. apply forallb_drop, forallb_drop, Hm. }
  apply repeat_max_const; auto using quote_stops.
  - intros i Hi.
    destruct (startswith (lit "apiBase") (drop i m ++ q' :: rest)) eqn:E.
    + right. apply Hstep; auto. eapply startswith_sep; [|exact E].
      apply quote_cases in Hq as [->| ->]; reflexivity.
    + left. unfold path_tail. apply exec_lits_fail, E.
  - apply contains_inv in Hc as (a & b & Hab).
    assert (Hl : length a <= length m) by (rewrite Hab, length_app; lia).
    exists (length a). split; [exact Hl|].
    apply Hstep; [exact Hl|].
    rewrite Hab, drop_app_length. apply startswith_app.
Qed.

Lemma from_apiBase_eq :
  from_apiBase =
  Mark 0 :: One quote :: Mark 1 :: Mark 2 :: Star (CNotIn [dq; sq]) :: path_tail.
Proof. reflexivity. Qed.

(** The quoted module path after a head [x] of the statement: the three
    groups are the opening quote, the path and the closing quote. *)
Lemma exec_from_apiBase (x : text) (q : char) (m : text) (q' : char) (rest : text) mk :
  is_quote q = true -> no_quote m = true -> is_quote q' = true ->
  contains (lit "apiBase") m = true ->
  exists mk',
    exec false from_apiBase (q :: m ++ q' :: rest) (length x) mk =
      Some (length (x ++ q :: m ++ [q']), mk') /\
    forall pre,
      expand (pre ++ [TGroup 1; TGroup 2; TGroup 3]) (x ++ q :: m ++ q' :: rest) mk' =
      expand pre (x ++ q :: m ++ q' :: rest) mk' ++ q :: m ++ [q'].
Proof.
  intros Hq Hm Hq' Hc. eexists. split.
  - rewrite from_apiBase_eq, exec_mark, exec_one, !exec_mark by exact Hq.
    rewrite exec_path; auto. f_equal. f_equal.
    rewrite !length_app. simpl. rewrite length_app. simpl. lia.
  - intros pre. induction pre as [|[l|g] pre IH].
    + cbn [app expand].
      rewrite (group_between 1 x [q] (m ++ q' :: rest) _ (length x) (S (length x)));
        [|reflexivity|reflexivity|reflexivity|simpl; lia].
      change (x ++ q :: m ++ q' :: rest) with (x ++ [q] ++ m ++ [q'] ++ rest).
      rewrite (app_assoc x [q]).
      rewrite (group_between 2 (x ++ [q]) m ([q'] ++ rest) _
                 (S (length x)) (S (length x + length m)));
        [|reflexivity|reflexivity|rewrite length_app; simpl; lia
         |rewrite length_app; simpl; lia].
      rewrite (app_assoc (x ++ [q]) m).
      rewrite (group_between 3 ((x ++ [q]) ++ m) [q'] rest _
                 (S (length x + length m)) (S (S (length x + length m))));
        [|reflexivity|reflexivity|rewrite !length_app; simpl; lia
         |rewrite !length_app; simpl; lia].
      rewrite app_nil_r. reflexivity.
    + cbn [app expand]. rewrite IH, <- app_assoc. reflexivity.
    + cbn [app expand]. rewrite IH, <- app_assoc. reflexivity.
Qed.

Lemma import1_match (w1 w2 w3 w4 w5 : text) (q : char) (m : text) (q' : char) (rest : text) :
  spaces w1 -> spaces w2 -> spaces w3 -> spaces w4 -> spaces w5 ->
  is_quote q = true -> no_quote m = true -> is_quote q' = true ->
  contains (lit "apiBase") m = true ->
  exists mk,
    exec false import1_re (import1_head w1 w2 w3 w4 w5 ++ q :: m ++ q' :: rest) 0 [] =
      Some (length (import1_head w1 w2 w3 w4 w5 ++ q :: m ++ [q']), mk) /\
    expand import1_to (import1_head w1 w2 w3 w4 w5 ++ q :: m ++ q' :: rest) mk =
      lit "import { apiUrl, apiFetch } from " ++ q :: m ++ [q'].
Proof.
  intros H1 H2 H3 H4 H5 Hq Hm Hq' Hc.
  destruct (exec_from_apiBase (import1_head w1 w2 w3 w4 w5) q m q' rest [] Hq Hm Hq' Hc)
    as (mk & He & Hx).
  exists mk. split.
  - unfold import1_head at 1. unfold import1_re, str. rewrite <- !app_assoc.
    rewrite exec_lits_app. apply exec_ws; [assumption | reflexivity |].
    rewrite exec_lits_app. apply exec_ws; [assumption | reflexivity |].
    rewrite exec_lits_app. apply exec_ws; [assumption | reflexivity |].
    rewrite exec_lits_app. apply exec_ws; [assumption | reflexivity |].
    rewrite exec_lits_app. apply exec_ws; [assumption | apply quote_space_stops, Hq |].
    rewrite <- He. f_equal. unfold import1_head.
    rewrite !length_app. simpl. lia.
  - apply (Hx [TLit (lit "import { apiUrl, apiFetch } from ")]).
Qed.

Lemma import2_match (w1 w2 w3 w4 w5 w6 : text) (q : char) (m : text) (q' : char)
    (rest : text) :
  spaces w1 -> spaces w2 -> spaces w3 -> spaces w4 -> spaces w5 -> spaces w6 ->
  is_quote q = true -> no_quote m = true -> is_quote q' = true ->
  contains (lit "apiBase") m = true ->
  exists mk,
    exec false import2_re (import2_head w1 w2 w3 w4 w5 w6 ++ q :: m ++ q' :: rest) 0 [] =
      Some (length (import2_head w1 w2 w3 w4 w5 w6 ++ q :: m ++ [q']), mk) /\
    expand import2_to (import2_head w1 w2 w3 w4 w5 w6 ++ q :: m ++ q' :: rest) mk =
      lit "import { API_BASE, apiUrl, apiFetch } from " ++ q :: m ++ [q'].
Proof.
  intros H1 H2 H3 H4 H5 H6 Hq Hm Hq' Hc.
  destruct (exec_from_apiBase (import2_head w1 w2 w3 w4 w5 w6) q m q' rest [] Hq Hm Hq' Hc)
    as (mk & He & Hx).
  exists mk. split.
  - unfold import2_head at 1. unfold import2_re, str. rewrite <- !app_assoc.
    rewrite exec_lits_app. apply exec_ws; [assumption | reflexivity |].
    rewrite exec_lits_app. apply exec_ws; [assumption | reflexivity |].
    rewrite exec_lits_app. apply exec_ws; [assumption | reflexivity |].
    rewrite exec_lits_app. apply exec_ws; [assumption | reflexivity |].
    rewrite exec_lits_app. apply exec_ws; [assumption | reflexivity |].
    rewrite exec_lits_app. apply exec_ws; [assumption | apply quote_space_stops, Hq |].
    rewrite <- He. f_equal. unfold import2_head.
    rewrite !length_app. simpl. lia.
  - apply (Hx [TLit (lit "import { API_BASE, apiUrl, apiFetch } from ")]).
Qed.

Lemma app_quoted (x : text) (q : char) (m : text) (q' : char) (rest : text) :
  (x ++ q :: m ++ [q']) ++ rest = x ++ q :: m ++ q' :: rest.
Proof. rewrite <- app_assoc. f_equal. simpl. rewrite <- app_assoc. reflexivity. Qed.



(** What the other patterns do to an import statement: nothing. *)




(** A quoted text without parenthesis is copied by a pattern whose opening
    literal has one. *)
Lemma sub_skip_quoted (l : text) (p : pattern) (t : template)
    (q : char) (m : text) (q' : char) (Y : text) :
  opens_with l p -> mem lparen l = true -> mem dq l = false -> mem sq l = false ->
  is_quote q = true -> is_quote q' = true -> mem lparen m = false ->
  sub p t (q :: m ++ q' :: Y) = q :: m ++ q' :: sub p t Y.
Proof.
  intros Hp Hl Hd Hs Hq Hq' Hm.
  assert (Hhead : forall d s, is_quote d = true -> exec false p (d :: s) 0 [] = None).
  { intros d s H. apply (exec_opens_fail _ l); auto.
    apply (startswith_foreign l [] (d :: s) lparen); auto.
    apply quote_cases in H as [->| ->]; simpl; [rewrite Hd | rewrite Hs]; reflexivity. }
  rewrite sub_next by auto. f_equal.
  rewrite (sub_skip_foreign l p t m (q' :: Y) lparen); auto.
  - f_equal. rewrite sub_next by auto. reflexivity.
  - apply quote_cases in Hq' as [->| ->]; simpl; [rewrite Hd | rewrite Hs]; reflexivity.
Qed.

Lemma sub_skip_new_import (l : text) (p : pattern) (t : template)
    (N : text) (q : char) (m : text) (q' : char) (Y : text) :
  opens_with l p -> mem lparen l = true -> mem dq l = false -> mem sq l = false ->
  clashes l N = true ->
  is_quote q = true -> is_quote q' = true -> mem lparen m = false ->
  sub p t (N ++ q :: m ++ q' :: Y) = N ++ q :: m ++ q' :: sub p t Y.
Proof.
  intros Hp Hl Hd Hs HN Hq Hq' Hm.
  rewrite (sub_skip_clashes l) by assumption. f_equal.
  apply (sub_skip_quoted l); assumption.
Qed.

Ltac skip_new_import l Hp :=
  unfold step3, step4, step5, step6;
  apply (sub_skip_new_import l); [exact Hp | reflexivity .. | | |]; auto.

Lemma calls_skip_new_import (N : text) (q : char) (m : text) (q' : char) (Y : text) :
  N = new_import1 \/ N = new_import2 ->
  is_quote q = true -> is_quote q' = true -> avoids "({" m = true ->
  step6 (step5 (step4 (step3 (N ++ q :: m ++ q' :: Y)))) =
  N ++ q :: m ++ q' :: step6 (step5 (step4 (step3 Y))).
Proof.
  intros HN Hq Hq' Hm.
  assert (Hp : mem lparen m = false) by (eapply avoids_mem; [exact Hm | reflexivity]).
  assert (H3 : forall Z, step3 (N ++ q :: m ++ q' :: Z) = N ++ q :: m ++ q' :: step3 Z).
  { intros Z. destruct HN as [->| ->]; skip_new_import (lit "fetch(apiUrl(") creds_opens. }
  assert (H4 : forall Z, step4 (N ++ q :: m ++ q' :: Z) = N ++ q :: m ++ q' :: step4 Z).
  { intros Z. destruct HN as [->| ->]; skip_new_import (lit "fetch(apiUrl(") opts_opens. }
  assert (H5 : forall Z, step5 (N ++ q :: m ++ q' :: Z) = N ++ q :: m ++ q' :: step5 Z).
  { intros Z. destruct HN as [->| ->]; skip_new_import (lit "fetch(apiUrl(") plain_opens. }
  assert (H6 : forall Z, step6 (N ++ q :: m ++ q' :: Z) = N ++ q :: m ++ q' :: step6 Z).
  { intros Z. destruct HN as [->| ->]; skip_new_import (lit "apiFetch(") strip_opens. }
  rewrite H3, H4, H5, H6. reflexivity.
Qed.

(** The same on whole files, through the operation itself. *)
Example update_module1 :
  exists w',
    update_file_with_apiFetch a_ts (one_file a_ts module1) = (Ok true, w') /\
    files w' !! a_ts = Some module1_migrated.
Proof. eexists. split; [vm_compute; reflexivity | reflexivity]. Qed.

Example update_module2 :
  exists w',
    update_file_with_apiFetch a_ts (one_file a_ts module2) = (Ok true, w') /\
    files w' !! a_ts = Some module2_migrated.
Proof. eexists. split; [vm_compute; reflexivity | reflexivity]. Qed.

End Imports.

(** ** The call sites (patterns 3 to 6) *)

Section Calls.

Lemma only_credentials_eq :
  only_credentials =
  lits (lit "{") ++ ws ++ lits (lit "credentials:") ++ ws ++
  One quote :: lits (lit "include") ++ One quote :: ws ++ lits (lit "})") ++ [].
Proof. reflexivity. Qed.

Lemma creds_re_eq :
  creds_re =
  lits (lit "fetch(apiUrl(") ++ Mark 0 :: Plus (CNotIn (lit ")")) :: Mark 1 ::
  lits (lit "),") ++ ws ++ only_credentials.
Proof. reflexivity. Qed.

Lemma opts_re_eq :
  opts_re =
  lits (lit "fetch(apiUrl(") ++ Mark 0 :: Plus (CNotIn (lit ")")) :: Mark 1 ::
  lits (lit "),") ++ ws ++ lits (lit "{") ++ [].
Proof. reflexivity. Qed.

Lemma strip_re_eq :
  strip_re =
  lits (lit "apiFetch(") ++ Mark 0 :: Plus (CNotIn (lit ",")) :: Mark 1 ::
  lits (lit ",") ++ ws ++ only_credentials.
Proof. reflexivity. Qed.

Ltac reassoc := repeat (rewrite <- app_assoc || rewrite <- app_comm_cons).

Lemma exec_only_credentials (v2 v3 : text) (q1 q2 : char) (v4 rest : text) pos mk :
  spaces v2 -> spaces v3 -> spaces v4 -> is_quote q1 = true -> is_quote q2 = true ->
  exec false only_credentials (creds_object v2 v3 q1 q2 v4 ++ rest) pos mk =
  Some (pos + length (creds_object v2 v3 q1 q2 v4), mk).
Proof.
  intros H2 H3 H4 Hq1 Hq2. rewrite only_credentials_eq. unfold creds_object at 1.
  reassoc.
  rewrite exec_lits_app. apply exec_ws; [assumption | reflexivity |].
  rewrite exec_lits_app. apply exec_ws; [assumption | apply quote_space_stops, Hq1 |].
  rewrite exec_one by exact Hq1. rewrite exec_lits_app.
  rewrite exec_one by exact Hq2. apply exec_ws; [assumption | reflexivity |].
  rewrite exec_lits_app. cbn [exec andb]. f_equal. f_equal.
  unfold creds_object. rewrite !length_app. simpl. rewrite !length_app. simpl. lia.
Qed.

Lemma avoids_accepts (cs : string) (a : text) :
  avoids cs a = true -> forallb (accepts (CNotIn (lit cs))) a = true.
Proof. intros H. exact H. Qed.

Lemma avoids_weaken (cs cs' : string) (a : text) :
  (forall c, mem c (lit cs') = true -> mem c (lit cs) = true) ->
  avoids cs a = true -> avoids cs' a = true.
Proof.
  intros Hcs. unfold avoids. induction a as [|x a IH]; simpl; [reflexivity|].
  intros H. apply andb_true_iff in H as [Hx Ha]. rewrite (IH Ha), andb_true_r.
  destruct (mem x (lit cs')) eqn:E; [|reflexivity].
  rewrite (Hcs _ E) in Hx. discriminate.
Qed.

Lemma creds_match (a v1 v2 v3 : text) (q1 q2 : char) (v4 rest : text) :
  a <> [] -> avoids ")" a = true ->
  spaces v1 -> spaces v2 -> spaces v3 -> spaces v4 ->
  is_quote q1 = true -> is_quote q2 = true ->
  exists mk,
    exec false creds_re (legacy_call a v1 v2 v3 q1 q2 v4 ++ rest) 0 [] =
      Some (length (legacy_call a v1 v2 v3 q1 q2 v4), mk) /\
    expand creds_to (legacy_call a v1 v2 v3 q1 q2 v4 ++ rest) mk =
      lit "apiFetch(" ++ a ++ lit ")".
Proof.
  intros Ha Hp H1 H2 H3 H4 Hq1 Hq2. eexists. split.
  - rewrite creds_re_eq. unfold legacy_call at 1. reassoc.
    rewrite exec_lits_app, exec_mark.
    apply exec_plus_greedy; [exact Ha | exact Hp | reflexivity |].
    rewrite exec_mark, exec_lits_app.
    apply exec_ws; [assumption | reflexivity |].
    rewrite exec_only_credentials by assumption. f_equal. f_equal.
    unfold legacy_call. rewrite !length_app. simpl. lia.
  - unfold creds_to, legacy_call. reassoc. cbn [expand].
    erewrite (group_between 1 (lit "fetch(apiUrl(") a);
      [|reflexivity|reflexivity|reflexivity|simpl; lia].
    rewrite app_nil_r. reflexivity.
Qed.

Lemma step3_legacy (a v1 v2 v3 : text) (q1 q2 : char) (v4 rest : text) :
  a <> [] -> avoids ")" a = true ->
  spaces v1 -> spaces v2 -> spaces v3 -> spaces v4 ->
  is_quote q1 = true -> is_quote q2 = true ->
  step3 (legacy_call a v1 v2 v3 q1 q2 v4 ++ rest) =
  lit "apiFetch(" ++ a ++ lit ")" ++ step3 rest.
Proof.
  intros Ha Hp H1 H2 H3 H4 Hq1 Hq2.
  destruct (creds_match a v1 v2 v3 q1 q2 v4 rest) as (mk & He & Hx); auto.
  unfold step3. rewrite (sub_match _ _ _ _ _ He).
  - rewrite Hx, drop_app_length, <- !app_assoc. reflexivity.
  - unfold legacy_call. rewrite length_app. simpl. lia.
Qed.

Lemma sub_lacking_wanted (l : text) (c : char) (p : pattern) (t : template) (a : text) :
  opens_with_then l c p -> l <> [] -> mem c a = false -> sub p t a = a.
Proof.
  intros Hp Hl Ha. rewrite <- (app_nil_r a) at 1.
  rewrite (sub_skip_wanting l c) by auto. rewrite sub_end, app_nil_r; [reflexivity|].
  rewrite Hp. apply exec_lits_fail, startswith_nil_r, Hl.
Qed.

Ltac skip_known l :=
  repeat first
    [ rewrite (sub_skip_clashes l) by (first [assumption | reflexivity])
    | rewrite (sub_skip_spaces l) by (first [assumption | reflexivity])
    | rewrite sub_next by
        (first [ assumption | reflexivity
               | apply (exec_opens_fail _ l); [assumption | reflexivity] ]) ].

Ltac lacks H := eapply avoids_mem; [exact H | reflexivity].

Lemma import_skips_legacy (p : pattern) (t : template)
    (pre a v1 v2 v3 : text) (q1 q2 : char) (v4 post : text) :
  opens_with_then (lit "import") lbrace p -> opens_with (lit "import") p ->
  avoids "({" pre = true -> avoids "(){" a = true ->
  spaces v1 -> spaces v2 -> spaces v3 -> spaces v4 ->
  is_quote q1 = true -> is_quote q2 = true -> avoids "({" post = true ->
  sub p t (pre ++ legacy_call a v1 v2 v3 q1 q2 v4 ++ post) =
  pre ++ legacy_call a v1 v2 v3 q1 q2 v4 ++ post.
Proof.
  intros Hp Hp' Hpre Ha H1 H2 H3 H4 Hq1 Hq2 Hpost.
  unfold legacy_call, creds_object. reassoc.
  apply quote_cases in Hq1 as [->| ->]; apply quote_cases in Hq2 as [->| ->].
  all: rewrite (sub_skip_wanting (lit "import") lbrace p t pre) by
         (first [exact Hp | reflexivity | lacks Hpre]).
  all: skip_known (lit "import").
  all: rewrite (sub_skip_wanting (lit "import") lbrace p t a) by
         (first [exact Hp | reflexivity | lacks Ha]).
  all: skip_known (lit "import").
  all: rewrite (sub_lacking_wanted (lit "import") lbrace p t post) by
         (first [exact Hp | discriminate | lacks Hpost]).
  all: reflexivity.
Qed.

Lemma fetch_skips_helper (p : pattern) (t : template) (pre x : text) :
  opens_with (lit "fetch(apiUrl(") p ->
  mem lparen pre = false -> mem lparen x = false ->
  sub p t (pre ++ lit "apiFetch(" ++ x) = pre ++ lit "apiFetch(" ++ x.
Proof.
  intros Hp Hpre Hx.
  change (lit "apiFetch(" ++ x) with (lit "apiFetch" ++ lparen :: x).
  rewrite (sub_skip_before_paren (lit "fetch(apiUrl(") p t (lit "fetch") (lit "apiUrl("));
    [|exact Hp|reflexivity|exact Hpre|reflexivity|simpl; lia].
  f_equal. change (lit "apiFetch" ++ lparen :: x) with (lit "apiFetch(" ++ x).
  rewrite (sub_skip_clashes (lit "fetch(apiUrl(")) by (exact Hp || reflexivity).
  f_equal. apply (sub_skip_lacking (lit "fetch(apiUrl(") p t x lparen); auto.
Qed.

Lemma exec_plus_unfold (adv : bool) (a : cset) (p : pattern) (c : char) (s : text) pos mk :
  exec adv (Plus a :: p) (c :: s) pos mk =
  if accepts a c then repeat_max a (exec adv p) s (S pos) mk else None.
Proof. reflexivity. Qed.

Lemma strip_head_none (x : text) :
  mem lbrace x = false -> exec false strip_re (lit "apiFetch(" ++ x) 0 [] = None.
Proof.
  intros Hx. rewrite strip_re_eq, exec_lits_app, exec_mark.
  destruct x as [|c x]; [reflexivity|]. rewrite exec_plus_unfold.
  destruct (accepts (CNotIn (lit ",")) c); [|reflexivity].
  simpl in Hx. apply orb_false_iff in Hx as [_ Hx].
  apply repeat_max_fails. intros i.
  rewrite exec_mark, exec_lits.
  destruct (startswith (lit ",") (drop i x)); [|reflexivity].
  apply exec_star_one_absent, mem_drop, mem_drop, Hx.
Qed.

Lemma strip_skips_helper (pre x : text) :
  mem lparen pre = false -> mem lparen x = false -> mem lbrace x = false ->
  step6 (pre ++ lit "apiFetch(" ++ x) = pre ++ lit "apiFetch(" ++ x.
Proof.
  intros Hpre Hx Hb. unfold step6.
  change (lit "apiFetch(" ++ x) with (lit "apiFetch" ++ lparen :: x).
  rewrite (sub_skip_before_paren (lit "apiFetch(") strip_re strip_to (lit "apiFetch") []);
    [|exact strip_opens|reflexivity|exact Hpre|reflexivity|simpl; lia].
  f_equal. change (lit "apiFetch" ++ lparen :: x) with (97%N :: lit "piFetch(" ++ x).
  rewrite sub_next by (apply (strip_head_none x Hb)). f_equal.
  rewrite (sub_skip_clashes (lit "apiFetch(")) by (exact strip_opens || reflexivity).
  f_equal. apply (sub_skip_lacking (lit "apiFetch(") strip_re strip_to x lparen); auto.
  exact strip_opens.
Qed.

Lemma fetch_open_split : lit "fetch(apiUrl(" = lit "fetch" ++ lparen :: lit "apiUrl(".
Proof. reflexivity. Qed.

Lemma step3_in_context (pre a v1 v2 v3 : text) (q1 q2 : char) (v4 post : text) :
  a <> [] -> avoids "(){" a = true ->
  spaces v1 -> spaces v2 -> spaces v3 -> spaces v4 ->
  is_quote q1 = true -> is_quote q2 = true ->
  avoids "({" pre = true -> avoids "({" post = true ->
  step3 (pre ++ legacy_call a v1 v2 v3 q1 q2 v4 ++ post) =
  pre ++ lit "apiFetch(" ++ a ++ lit ")" ++ post.
Proof.
  intros Hne Ha H1 H2 H3 H4 Hq1 Hq2 Hpre Hpost.
  assert (E : legacy_call a v1 v2 v3 q1 q2 v4 ++ post =
              lit "fetch" ++ lparen ::
              lit "apiUrl(" ++ a ++ lit ")," ++ v1 ++ creds_object v2 v3 q1 q2 v4 ++ post).
  { unfold legacy_call. rewrite fetch_open_split. reassoc. reflexivity. }
  rewrite step3_eq, E.
  rewrite (sub_skip_before_paren (lit "fetch(apiUrl(") creds_re creds_to
             (lit "fetch") (lit "apiUrl("));
    [|exact creds_opens|reflexivity|lacks Hpre|reflexivity|simpl; lia].
  rewrite <- E.
  rewrite <- !step3_eq. rewrite step3_legacy; auto.
  - rewrite step3_eq.
    rewrite (sub_skip_lacking (lit "fetch(apiUrl(") creds_re creds_to post lparen);
      [reflexivity|exact creds_opens|reflexivity|lacks Hpost].
  - eapply avoids_weaken; [|exact Ha]. intros c. simpl.
    intros H. rewrite orb_false_r in H. rewrite H, !orb_true_r. reflexivity.
Qed.

Lemma legacy_call_substitutions (pre a v1 v2 v3 : text) (q1 q2 : char) (v4 post : text) :
  a <> [] -> avoids "(){" a = true ->
  spaces v1 -> spaces v2 -> spaces v3 -> spaces v4 ->
  is_quote q1 = true -> is_quote q2 = true ->
  avoids "({" pre = true -> avoids "({" post = true ->
  substitutions (pre ++ legacy_call a v1 v2 v3 q1 q2 v4 ++ post) =
  pre ++ lit "apiFetch(" ++ a ++ lit ")" ++ post.
Proof.
  intros Hne Ha H1 H2 H3 H4 Hq1 Hq2 Hpre Hpost. unfold substitutions.
  rewrite step1_eq, import_skips_legacy;
    auto using import1_opens, import1_opens_with.
  rewrite step2_eq, import_skips_legacy;
    auto using import2_opens, import2_opens_with.
  rewrite step3_in_context by assumption.
  assert (Hp : mem lparen pre = false) by lacks Hpre.
  assert (Hx : mem lparen (a ++ lit ")" ++ post) = false).
  { rewrite !mem_app. replace (mem lparen a) with false by (symmetry; lacks Ha).
    replace (mem lparen post) with false by (symmetry; lacks Hpost). reflexivity. }
  assert (Hb : mem lbrace (a ++ lit ")" ++ post) = false).
  { rewrite !mem_app. replace (mem lbrace a) with false by (symmetry; lacks Ha).
    replace (mem lbrace post) with false by (symmetry; lacks Hpost). reflexivity. }
  rewrite step4_eq, fetch_skips_helper by auto using opts_opens.
  rewrite step5_eq, fetch_skips_helper by auto using plain_opens.
  apply strip_skips_helper; assumption.
Qed.

(** X11. A file with one legacy call that carries only the credentials
    flag, fetch(apiUrl(ARG), { credentials: q include q }): the call
    becomes apiFetch(ARG), the text around it stays, the file is written
    and the result is true.  ARG is not empty and has no parenthesis or
    brace; so has the text around the call; the white space of the call
    is any, the quotes are either. *)
Theorem legacy_credentials_call_migrated
    (fp : path) (w : world)
    (pre a v1 v2 v3 : text) (q1 q2 : char) (v4 post : text) :
  a <> [] -> avoids "(){" a = true ->
  spaces v1 -> spaces v2 -> spaces v3 -> spaces v4 ->
  is_quote q1 = true -> is_quote q2 = true ->
  avoids "({" pre = true -> avoids "({" post = true ->
  files w !! fp = Some (pre ++ legacy_call a v1 v2 v3 q1 q2 v4 ++ post) ->
  exists w',
    update_file_with_apiFetch fp w = (Ok true, w') /\
    files w' !! fp = Some (pre ++ lit "apiFetch(" ++ a ++ lit ")" ++ post) /\
    trace w' = trace w ++
      [EvWrite fp (pre ++ lit "apiFetch(" ++ a ++ lit ")" ++ post);
       EvPrint (updated_msg fp)].
Proof.
  intros Hne Ha H1 H2 H3 H4 Hq1 Hq2 Hpre Hpost Hf.
  rewrite (update_run _ _ _ Hf).
  rewrite legacy_call_substitutions by assumption.
  assert (Hc : contains (lit "fetch(apiUrl(")
                 (pre ++ legacy_call a v1 v2 v3 q1 q2 v4 ++ post) = true).
  { unfold legacy_call. rewrite <- !app_assoc. apply contains_app. }
  rewrite Hc. cbn [negb andb].
  unfold text_eqb. rewrite bool_decide_eq_false_2.
  - cbn [negb]. eexists. split; [reflexivity|]. simpl.
    split; [apply lookup_insert_eq | reflexivity].
  - intros E. apply app_inv_head in E.
    apply (f_equal (fun l => head l)) in E. vm_compute in E. discriminate.
Qed.

Lemma legacy_credentials_call_witness :
  exists w',
    update_file_with_apiFetch a_ts (one_file a_ts legacy_creds) = (Ok true, w') /\
    files w' !! a_ts = Some ([] ++ lit "apiFetch(" ++ quoted "/x" ++ lit ")" ++ []) /\
    trace w' = [] ++
      [EvWrite a_ts ([] ++ lit "apiFetch(" ++ quoted "/x" ++ lit ")" ++ []);
       EvPrint (updated_msg a_ts)].
Proof.
  apply (legacy_credentials_call_migrated a_ts (one_file a_ts legacy_creds)
           [] (quoted "/x") sp sp sp dq dq sp []);
    try reflexivity.
  discriminate.
Defined.

End Calls.

(** ** More on [update_file_with_apiFetch]: errors and what it leaves alone *)

Section UpdateMore.

Lemma bind_raise {A B} (m : io A) (k : A -> io B) (w w' : world) (e : exn) :
  m w = (Raise e, w') -> (m ≫= k) w = (Raise e, w').
Proof. intros H. unfold mbind, io_bind, bind. rewrite H. reflexivity. Qed.

Lemma migrated_unchanged (c : text) : changes c = false -> migrated c = c.
Proof.
  unfold changes, text_eqb. intros H. apply negb_false_iff in H.
  apply bool_decide_eq_true in H. exact H.
Qed.

(** One run of the operation on a file that is there. *)
Lemma update_spec (fp : path) (w : world) (c : text) :
  files w !! fp = Some c ->
  update_file_with_apiFetch fp w =
    (Ok (changes c),
     if changes c
     then World (<[fp := migrated c]> (files w))
                (trace w ++ [EvWrite fp (migrated c); EvPrint (updated_msg fp)])
     else w).
Proof.
  intros Hf. rewrite (update_run _ _ _ Hf). unfold changes, migrated.
  destruct (negb _ && negb _).
  - unfold text_eqb. rewrite bool_decide_eq_true_2 by reflexivity. reflexivity.
  - destruct (negb (text_eqb _ _)); reflexivity.
Qed.

Lemma update_spec_files (fp : path) (w : world) (c : text) :
  files w !! fp = Some c ->
  exists w',
    update_file_with_apiFetch fp w = (Ok (changes c), w') /\
    files w' = <[fp := migrated c]> (files w) /\
    trace w' = trace w ++ loop_events (files w) [fp].
Proof.
  intros Hf. rewrite (update_spec _ _ _ Hf). eexists. split; [reflexivity|].
  unfold loop_events. simpl. rewrite Hf, app_nil_r.
  destruct (changes c) eqn:E; simpl; [split; reflexivity|].
  rewrite (migrated_unchanged _ E), app_nil_r.
  split; [|reflexivity]. symmetry. apply insert_id, Hf.
Qed.

Lemma update_absent (fp : path) (w : world) :
  files w !! fp = None ->
  update_file_with_apiFetch fp w = (Raise (FileNotFoundError fp), w).
Proof.
  intros Hf. unfold update_file_with_apiFetch.
  apply bind_raise. unfold read_text, path, text in *. rewrite Hf. reflexivity.
Qed.

Lemma update_frame (fp : path) (w w' : world) (r : result bool) :
  update_file_with_apiFetch fp w = (r, w') ->
  dom (files w') = dom (files w) /\
  (forall p, p <> fp -> files w' !! p = files w !! p) /\
  exists evs, trace w' = trace w ++ evs.
Proof.
  intros H. destruct (files w !! fp) as [c|] eqn:Hf.
  - destruct (update_spec_files fp w c Hf) as (w1 & Hr & Hfs & Htr).
    rewrite Hr in H. apply pair_equal_spec in H as [<- <-]. rewrite Hfs. split; [|split].
    + rewrite dom_insert_L. apply elem_of_dom_2 in Hf. set_solver.
    + intros p Hp. apply lookup_insert_ne. congruence.
    + eauto.
  - rewrite (update_absent _ _ Hf) in H. apply pair_equal_spec in H as [<- <-].
    split; [reflexivity|]. split; [reflexivity|]. exists []. rewrite app_nil_r. reflexivity.
Qed.

End UpdateMore.

(** ** The whole run: [main] *)

Section Main.


Lemma changes_in_ext (f1 f2 : gmap (list N) (list N)) (l : list path) :
  (forall q, q ∈ l -> f1 !! q = f2 !! q) ->
  loop_count f1 l = loop_count f2 l /\ loop_events f1 l = loop_events f2 l.
Proof.
  unfold loop_count, loop_events. induction l as [|q l IH]; intros H; [split; reflexivity|].
  destruct IH as [IH1 IH2].
  { intros x Hx. apply H. right. exact Hx. }
  assert (Hq : f1 !! q = f2 !! q) by (apply H; left).
  assert (Hci : changes_in f1 q = changes_in f2 q).
  { unfold changes_in. unfold path, text in *. rewrite Hq. reflexivity. }
  split.
  - destruct (changes_in f2 q) eqn:E.
    + rewrite !filter_cons_True by congruence. simpl. rewrite IH1. reflexivity.
    + rewrite !filter_cons_False by congruence. exact IH1.
  - simpl. unfold path, text in *. rewrite Hq, IH2. reflexivity.
Qed.

Lemma update_all_skip (p : path) (l : list path) (n : nat) (w : world) :
  has_ts_suffix p = false -> update_all (p :: l) n w = update_all l n w.
Proof. unfold has_ts_suffix. intros H. cbn [update_all]. rewrite H. reflexivity. Qed.

Lemma update_all_step (p : path) (l : list path) (n : nat) (w : world) :
  has_ts_suffix p = true ->
  update_all (p :: l) n w =
  (update_file_with_apiFetch p ≫= fun updated : bool =>
   update_all l (if updated then n + 1 else n)) w.
Proof. unfold has_ts_suffix. intros H. cbn [update_all]. rewrite H. reflexivity. Qed.

(** The loop over entries that are all there, each once. *)
Lemma update_all_run (l : list path) :
  forall (w : world) (n : nat),
    NoDup l ->
    (forall p, p ∈ l -> has_ts_suffix p = true -> is_Some (files w !! p)) ->
    exists w',
      update_all l n w =
        (Ok (n + loop_count (files w) (filter (fun p => has_ts_suffix p = true) l)), w') /\
      (forall p, files w' !! p =
                 if bool_decide (p ∈ filter (fun p => has_ts_suffix p = true) l)
                 then migrated <$> files w !! p else files w !! p) /\
      trace w' = trace w ++ loop_events (files w) (filter (fun p => has_ts_suffix p = true) l).
Proof.
  induction l as [|p l IH]; intros w n Hnd Hall.
  - exists w. rewrite filter_nil. unfold loop_count, loop_events.
    rewrite filter_nil. simpl. rewrite Nat.add_0_r, app_nil_r. auto.
  - apply NoDup_cons in Hnd as [Hp Hnd].
    destruct (has_ts_suffix p) eqn:Hs.
    + destruct (Hall p) as [c Hc]; [left | exact Hs |].
      destruct (update_spec_files p w c Hc) as (w1 & Hr & Hfs & Htr).
      destruct (IH w1 (if changes c then n + 1 else n) Hnd) as (w' & Hr' & Hfs' & Htr').
      { intros q Hq Hsq. rewrite Hfs. destruct (decide (p = q)) as [->|Hne].
        - rewrite lookup_insert_eq. eauto.
        - rewrite lookup_insert_ne by exact Hne. apply Hall; [right|]; assumption. }
      assert (Hext : forall q, q ∈ filter (fun p => has_ts_suffix p = true) l ->
                files w1 !! q = files w !! q).
      { intros q Hq. apply list_elem_of_filter in Hq as [_ Hq].
        rewrite Hfs. apply lookup_insert_ne. intros ->. contradiction. }
      destruct (changes_in_ext _ _ _ Hext) as [Hcnt Hevs].
      exists w'. rewrite update_all_step by exact Hs.
      rewrite (bind_ok _ _ _ _ _ Hr), Hr'.
      rewrite filter_cons_True by exact Hs. split; [|split].
      * f_equal. f_equal. rewrite Hcnt.
        assert (Hci : changes_in (files w) p = changes c).
        { unfold changes_in. unfold path, text in *. rewrite Hc. reflexivity. }
        unfold loop_count. destruct (changes c).
        -- rewrite (filter_cons_True _ p) by exact Hci. simpl. lia.
        -- rewrite (filter_cons_False _ p) by congruence. lia.
      * intros q. rewrite Hfs'. destruct (decide (q = p)) as [->|Hne].
        -- rewrite bool_decide_eq_false_2.
           2:{ intros Hq. apply list_elem_of_filter in Hq as [_ Hq]. contradiction. }
           rewrite bool_decide_eq_true_2 by left.
           unfold path, text in *. rewrite Hfs, lookup_insert_eq, Hc. reflexivity.
        -- rewrite Hfs, lookup_insert_ne by congruence.
           destruct (bool_decide (q ∈ filter (fun p => has_ts_suffix p = true) l)) eqn:E.
           ++ apply bool_decide_eq_true in E.
              rewrite bool_decide_eq_true_2 by (right; exact E). reflexivity.
           ++ apply bool_decide_eq_false in E. rewrite bool_decide_eq_false_2; [reflexivity|].
              intros Hq. apply elem_of_cons in Hq as [Hq|Hq]; [congruence | contradiction].
      * rewrite Htr', Htr, Hevs, <- app_assoc. f_equal.
        unfold loop_events. simpl. rewrite app_nil_r. reflexivity.
    + rewrite update_all_skip by exact Hs.
      destruct (IH w n Hnd) as (w' & Hr' & Hfs' & Htr').
      { intros q Hq. apply Hall. right. exact Hq. }
      exists w'. rewrite filter_cons_False by (rewrite Hs; discriminate).
      auto.
Qed.

Lemma endswith_inv (suffix s : text) :
  endswith suffix s = true -> exists x, s = x ++ suffix.
Proof.
  unfold endswith. intros H. apply startswith_inv in H.
  exists (rev (drop (length (rev suffix)) (rev s))).
  rewrite <- (rev_involutive s) at 1. rewrite H at 1.
  rewrite rev_app_distr, rev_involutive. reflexivity.
Qed.

Lemma fnmatch_star_all (s : text) : fnmatch [GStar] s = true.
Proof.
  cbn [fnmatch]. induction s as [|c s IH]; [reflexivity|].
  cbn [star_match]. rewrite IH. apply orb_true_r.
Qed.

Lemma fnmatch_star_app (pat : list glob_item) (x s : text) :
  fnmatch pat s = true -> fnmatch (GStar :: pat) (x ++ s) = true.
Proof.
  intros H. cbn [fnmatch]. induction x as [|c x IH].
  - destruct s; cbn [star_match app]; rewrite H; reflexivity.
  - cbn [star_match app]. rewrite IH. apply orb_true_r.
Qed.

(** A name that ends in .ts or .tsx has .ts in it. *)
Lemma sel_fnmatch (n : text) :
  endswith_any [lit ".ts"; lit ".tsx"] n = true -> fnmatch ts_glob n = true.
Proof.
  intros H. unfold endswith_any in H. cbn [existsb] in H. rewrite orb_false_r in H.
  apply orb_true_iff in H as [H|H]; apply endswith_inv in H as [x ->];
    apply (fnmatch_star_app _ x).
  - reflexivity.
  - reflexivity.
Qed.

Lemma loop_selection (tree : list path) :
  filter (fun p => has_ts_suffix p = true) (rglob (lit "src") ts_glob tree) =
  filter (fun p => handled p = true) tree.
Proof.
  unfold rglob. rewrite list_filter_filter. apply list_filter_iff.
  intros p. unfold handled, has_ts_suffix. split.
  - intros [H1 H2]. apply andb_true_iff in H2 as [H2 _]. rewrite H1, H2. reflexivity.
  - intros H. apply andb_true_iff in H as [H1 H2]. split; [exact H2|].
    rewrite H1, (sel_fnmatch _ H2). reflexivity.
Qed.

Lemma main_unfold (tree : list path) (w : world) :
  main tree w =
  match add_apiFetch_to_apiBase w with
  | (Ok _, w1) =>
      match update_all (rglob (lit "src") ts_glob tree) 0 w1 with
      | (Ok n, w2) => (Ok tt, World (files w2) (trace w2 ++ [EvPrint (done_msg n)]))
      | (Raise e, w2) => (Raise e, w2)
      end
  | (Raise e, w1) => (Raise e, w1)
  end.
Proof.
  unfold main, mbind, io_bind, bind.
  destruct (add_apiFetch_to_apiBase w) as [[u|e] w1]; [|reflexivity].
  destruct (update_all _ 0 w1) as [[n|e] w2]; reflexivity.
Qed.

Lemma add_apiFetch_missing (w : world) :
  files w !! apiBase_path = None ->
  add_apiFetch_to_apiBase w = (Raise (FileNotFoundError apiBase_path), w).
Proof.
  intros Hf. unfold add_apiFetch_to_apiBase.
  apply bind_raise. unfold read_text, path, text in *. rewrite Hf. reflexivity.
Qed.

(** X2. Without src/lib/apiBase.ts the run ends at once with
    FileNotFoundError for that path: no module is looked at, nothing is
    written and nothing is printed, whatever the tree holds. *)
Theorem main_without_target_raises (tree : list path) (w : world) :
  files w !! apiBase_path = None ->
  main tree w = (Raise (FileNotFoundError apiBase_path), w).
Proof. intros Hf. rewrite main_unfold, (add_apiFetch_missing _ Hf). reflexivity. Qed.

Lemma main_spec (tree : list path) (w : world) (c : text) :
  files w !! apiBase_path = Some c ->
  NoDup tree ->
  (forall p, p ∈ tree -> handled p = true -> is_Some (files w !! p)) ->
  exists w',
    main tree w = (Ok tt, w') /\
    (forall p,
       files w' !! p =
       if bool_decide (p ∈ filter (fun p => handled p = true) tree)
       then migrated <$> <[apiBase_path := inject c]> (files w) !! p
       else <[apiBase_path := inject c]> (files w) !! p) /\
    trace w' =
      trace w ++
      [EvWrite apiBase_path (inject c); EvPrint (updated_msg apiBase_path)] ++
      loop_events (<[apiBase_path := inject c]> (files w))
        (filter (fun p => handled p = true) tree) ++
      [EvPrint (done_msg (loop_count (<[apiBase_path := inject c]> (files w))
                            (filter (fun p => handled p = true) tree)))].
Proof.
  intros Hf Hnd Hall. rewrite main_unfold, (add_apiFetch_run _ _ Hf).
  set (w1 := World (<[apiBase_path := inject c]> (files w)) _).
  destruct (update_all_run (rglob (lit "src") ts_glob tree) w1 0) as (w2 & Hr & Hfs & Htr).
  { apply NoDup_filter, Hnd. }
  { intros p Hp Hs. apply list_elem_of_filter in Hp as [Hb Hp].
    apply andb_true_iff in Hb as [Hb _].
    simpl. destruct (decide (apiBase_path = p)) as [<-|Hne].
    - rewrite lookup_insert_eq. eauto.
    - rewrite lookup_insert_ne by exact Hne. apply Hall; [exact Hp|].
      unfold handled. rewrite Hb, Hs. reflexivity. }
  rewrite loop_selection in Hr, Hfs, Htr.
  rewrite Hr. simpl in *. eexists. split; [reflexivity|]. simpl. split; [exact Hfs|].
  rewrite Htr, <- !app_assoc. reflexivity.
Qed.

Lemma main_without_target_witness :
  main sample_tree bare_world = (Raise (FileNotFoundError apiBase_path), bare_world).
Proof. apply (main_without_target_raises sample_tree bare_world). reflexivity. Defined.

(** X4. The order in which the scan gives the entries does not matter for
    the outcome: two scans of the same entries leave the same files and
    print the same count in the last line.  (The order of the lines
    printed in between follows the scan.)  The target of the helper is
    there, no entry comes twice, and every entry the loop handles can be
    read. *)
Theorem main_order_independent (tree1 tree2 : list path) (w : world) (c : text) :
  files w !! apiBase_path = Some c ->
  NoDup tree1 -> tree1 ≡ₚ tree2 ->
  (forall p, p ∈ tree1 -> handled p = true -> is_Some (files w !! p)) ->
  exists w1 w2 n,
    main tree1 w = (Ok tt, w1) /\ main tree2 w = (Ok tt, w2) /\
    files w1 = files w2 /\
    last (trace w1) = Some (EvPrint (done_msg n)) /\
    last (trace w2) = Some (EvPrint (done_msg n)).
Proof.
  intros Hf Hnd Hperm Hall.
  destruct (main_spec tree1 w c Hf Hnd Hall) as (w1 & Hr1 & Hfs1 & Htr1).
  destruct (main_spec tree2 w c Hf) as (w2 & Hr2 & Hfs2 & Htr2).
  { rewrite <- Hperm. exact Hnd. }
  { intros p Hp. apply Hall. rewrite Hperm. exact Hp. }
  assert (Hfp : filter (fun p => handled p = true) tree1 ≡ₚ
                filter (fun p => handled p = true) tree2)
    by (rewrite Hperm; reflexivity).
  assert (Hn : loop_count (<[apiBase_path := inject c]> (files w))
                 (filter (fun p => handled p = true) tree1) =
               loop_count (<[apiBase_path := inject c]> (files w))
                 (filter (fun p => handled p = true) tree2)).
  { unfold loop_count. apply Permutation_length, filter_Permutation, Hfp. }
  exists w1, w2. eexists. split; [exact Hr1|]. split; [exact Hr2|]. split; [|split].
  - apply map_eq. intros p. rewrite Hfs1, Hfs2.
    rewrite (bool_decide_ext _ (p ∈ filter (fun p => handled p = true) tree2));
      [reflexivity|]. rewrite Hfp. reflexivity.
  - rewrite Htr1, !app_assoc. apply last_snoc.
  - rewrite Htr2, <- Hn, !app_assoc. apply last_snoc.
Qed.

Lemma main_order_independent_witness :
  exists w1 w2 n,
    main sample_tree sample_world = (Ok tt, w1) /\
    main sample_tree' sample_world = (Ok tt, w2) /\
    files w1 = files w2 /\
    last (trace w1) = Some (EvPrint (done_msg n)) /\
    last (trace w2) = Some (EvPrint (done_msg n)).
Proof.
  apply (main_order_independent sample_tree sample_tree' sample_world apiBase_ts).
  - reflexivity.
  - apply (bool_decide_unpack _). vm_compute. exact I.
  - exact (Permutation_rev sample_tree).
  - apply (proj1 (list.Forall_forall
             (fun p => handled p = true -> is_Some (files sample_world !! p)) sample_tree)).
    repeat constructor; intros H;
      first [discriminate H | eexists; vm_compute; reflexivity].
Defined.

Lemma update_all_app (l1 l2 : list path) :
  forall (n : nat) (w : world),
    update_all (l1 ++ l2) n w =
    match update_all l1 n w with
    | (Ok n', w') => update_all l2 n' w'
    | (Raise e, w') => (Raise e, w')
    end.
Proof.
  induction l1 as [|p l1 IH]; intros n w; [reflexivity|].
  destruct (has_ts_suffix p) eqn:Hs.
  - change ((p :: l1) ++ l2) with (p :: l1 ++ l2).
    rewrite !update_all_step by exact Hs.
    unfold mbind, io_bind, bind.
    destruct (update_file_with_apiFetch p w) as [[b|e] w1]; [apply IH | reflexivity].
  - change ((p :: l1) ++ l2) with (p :: l1 ++ l2).
    rewrite !update_all_skip by exact Hs. apply IH.
Qed.

(** X3. An entry of the scan that the loop handles and for which there
    is no file (a dangling link, a file removed after the scan) ends the
    run with FileNotFoundError for it.  What was done before stays done:
    the helper is in src/lib/apiBase.ts, the handled entries that came
    before are migrated, their lines are printed; the entries after it
    are not looked at and the last line with the count is not printed.
    (An entry that is there and cannot be read as text, a directory or
    bytes that do not decode, raises another exception and is not what
    this is about.) *)
Theorem main_stops_at_missing_entry
    (before : list path) (p : path) (after : list path) (w : world) (c : text) :
  files w !! apiBase_path = Some c ->
  NoDup (before ++ p :: after) ->
  handled p = true -> files w !! p = None ->
  (forall q, q ∈ before -> handled q = true -> is_Some (files w !! q)) ->
  exists w',
    main (before ++ p :: after) w = (Raise (FileNotFoundError p), w') /\
    (forall q,
       files w' !! q =
       if bool_decide (q ∈ filter (fun q => handled q = true) before)
       then migrated <$> <[apiBase_path := inject c]> (files w) !! q
       else <[apiBase_path := inject c]> (files w) !! q) /\
    trace w' =
      trace w ++
      [EvWrite apiBase_path (inject c); EvPrint (updated_msg apiBase_path)] ++
      loop_events (<[apiBase_path := inject c]> (files w))
        (filter (fun q => handled q = true) before).
Proof.
  intros Hf Hnd Hh Hp Hall. rewrite main_unfold, (add_apiFetch_run _ _ Hf).
  set (w1 := World (<[apiBase_path := inject c]> (files w)) _).
  apply NoDup_app in Hnd as (Hnd1 & Hdisj & Hnd2).
  assert (Hpb : p ∉ before).
  { intros Hin. apply (Hdisj p Hin). left. }
  assert (Hpa : p <> apiBase_path).
  { intros ->. unfold path, text in *. congruence. }
  apply andb_true_iff in Hh as Hh'. destruct Hh' as [Hbelow Hsuf].
  unfold rglob. rewrite filter_app, filter_cons_True.
  2:{ rewrite Hbelow. simpl. apply sel_fnmatch, Hsuf. }
  rewrite update_all_app.
  destruct (update_all_run (rglob (lit "src") ts_glob before) w1 0) as (w2 & Hr & Hfs & Htr).
  { apply NoDup_filter, Hnd1. }
  { intros q Hq Hs. apply list_elem_of_filter in Hq as [Hb Hq].
    apply andb_true_iff in Hb as [Hb _].
    simpl. destruct (decide (apiBase_path = q)) as [<-|Hne].
    - rewrite lookup_insert_eq. eauto.
    - rewrite lookup_insert_ne by exact Hne. apply Hall; [exact Hq|].
      unfold handled. rewrite Hb, Hs. reflexivity. }
  rewrite loop_selection in Hr, Hfs, Htr.
  unfold rglob in Hr. rewrite Hr.
  assert (Hp2 : files w2 !! p = None).
  { rewrite Hfs. rewrite bool_decide_eq_false_2.
    - simpl. rewrite lookup_insert_ne by congruence. exact Hp.
    - intros Hin. apply list_elem_of_filter in Hin as [_ Hin]. contradiction. }
  rewrite update_all_step by exact Hsuf.
  rewrite (bind_raise _ _ _ _ _ (update_absent _ _ Hp2)).
  exists w2. split; [reflexivity|]. split; [exact Hfs|].
  rewrite Htr. simpl. rewrite <- !app_assoc. reflexivity.
Qed.

Lemma main_stops_at_missing_entry_witness :
  exists w',
    main ([apiBase_path; a_ts] ++ gone_ts :: [b_tsx]) sample_world =
      (Raise (FileNotFoundError gone_ts), w') /\
    (forall q,
       files w' !! q =
       if bool_decide (q ∈ filter (fun q => handled q = true) [apiBase_path; a_ts])
       then migrated <$> <[apiBase_path := inject apiBase_ts]> (files sample_world) !! q
       else <[apiBase_path := inject apiBase_ts]> (files sample_world) !! q) /\
    trace w' =
      trace sample_world ++
      [EvWrite apiBase_path (inject apiBase_ts); EvPrint (updated_msg apiBase_path)] ++
      loop_events (<[apiBase_path := inject apiBase_ts]> (files sample_world))
        (filter (fun q => handled q = true) [apiBase_path; a_ts]).
Proof.
  apply (main_stops_at_missing_entry [apiBase_path; a_ts] gone_ts [b_tsx]
           sample_world apiBase_ts).
  - reflexivity.
  - apply (bool_decide_unpack _). vm_compute. exact I.
  - reflexivity.
  - reflexivity.
  - apply (proj1 (list.Forall_forall
             (fun q => handled q = true -> is_Some (files sample_world !! q))
             [apiBase_path; a_ts])).
    repeat constructor; intros H; eexists; vm_compute; reflexivity.
Defined.

Lemma update_all_frame (l : list path) :
  forall (n : nat) (w w' : world) (r : result nat),
    update_all l n w = (r, w') ->
    dom (files w') = dom (files w) /\
    (forall p, ~ (p ∈ l /\ has_ts_suffix p = true) -> files w' !! p = files w !! p).
Proof.
  induction l as [|q l IH]; intros n w w' r H.
  - apply pair_equal_spec in H as [<- <-]. auto.
  - destruct (has_ts_suffix q) eqn:Hs.
    + rewrite update_all_step in H by exact Hs.
      unfold mbind, io_bind, bind in H.
      destruct (update_file_with_apiFetch q w) as [[b|e] w1] eqn:Hu.
      * apply update_frame in Hu as (Hd & Hfr & _).
        apply IH in H as [Hd' Hfr']. split; [congruence|].
        intros p Hp. rewrite Hfr', Hfr; [reflexivity | |].
        -- intros ->. apply Hp. split; [left | exact Hs].
        -- intros [Hin Hsp]. apply Hp. split; [right|]; assumption.
      * apply pair_equal_spec in H as [<- <-].
        apply update_frame in Hu as (Hd & Hfr & _).
        split; [exact Hd|]. intros p Hp. apply Hfr.
        intros ->. apply Hp. split; [left | exact Hs].
    + rewrite update_all_skip in H by exact Hs.
      apply IH in H as [Hd' Hfr']. split; [exact Hd'|].
      intros p Hp. apply Hfr'. intros [Hin Hsp]. apply Hp. split; [right|]; assumption.
Qed.

(** X5. Whatever the run does and however it ends, it creates no file and
    removes none, and it leaves every file as it was except
    src/lib/apiBase.ts and the entries of the scan below src whose name
    ends in .ts or .tsx. *)
Theorem main_touches_only_handled_files
    (tree : list path) (w w' : world) (r : result unit) :
  main tree w = (r, w') ->
  dom (files w') = dom (files w) /\
  (forall p, p <> apiBase_path -> p ∉ tree \/ handled p = false ->
             files w' !! p = files w !! p).
Proof.
  rewrite main_unfold. intros H.
  destruct (files w !! apiBase_path) as [c|] eqn:Hf.
  - rewrite (add_apiFetch_run _ _ Hf) in H.
    set (w1 := World (<[apiBase_path := inject c]> (files w)) _) in H.
    destruct (update_all _ 0 w1) as [[n|e] w2] eqn:Hu;
      apply update_all_frame in Hu as [Hd Hfr]; apply pair_equal_spec in H as [<- <-];
      subst w1; cbn [files] in *.
    all: split; [rewrite Hd, dom_insert_L; apply elem_of_dom_2 in Hf; set_solver|].
    all: intros p Hp Hcase; rewrite Hfr; [apply lookup_insert_ne; congruence|].
    all: intros [Hin Hsp]; apply list_elem_of_filter in Hin as [Hb Hin];
         apply andb_true_iff in Hb as [Hb _];
         destruct Hcase as [Hc|Hc]; [contradiction|];
         unfold handled in Hc; rewrite Hb, Hsp in Hc; discriminate.
  - rewrite (add_apiFetch_missing _ Hf) in H. apply pair_equal_spec in H as [<- <-]. auto.
Qed.

Lemma main_touches_only_handled_witness :
  dom (files (main sample_tree sample_world).2) = dom (files sample_world) /\
  (forall p, p <> apiBase_path -> p ∉ sample_tree \/ handled p = false ->
             files (main sample_tree sample_world).2 !! p = files sample_world !! p).
Proof.
  apply (main_touches_only_handled_files sample_tree sample_world
           (main sample_tree sample_world).2 (main sample_tree sample_world).1).
  vm_compute. reflexivity.
Defined.

End Main.

(** ** More call sites: options that stay, calls without options, and
    how far pattern 6 reaches *)

Section CallsMore.

Ltac reassoc := repeat (rewrite <- app_assoc || rewrite <- app_comm_cons).
Ltac skip_known l :=
  repeat first
    [ rewrite (sub_skip_clashes l) by (first [assumption | reflexivity])
    | rewrite (sub_skip_spaces l) by (first [assumption | reflexivity])
    | rewrite sub_next by
        (first [ assumption | reflexivity
               | apply (exec_opens_fail _ l); [assumption | reflexivity] ]) ].
Ltac lacks H := eapply avoids_mem; [exact H | reflexivity].

(** A run of characters other than [c], then [c] and more, where the rest fails. *)
Lemma exec_run_then_fail (adv : bool) (c : char) (l : text) (p : pattern) (j : nat)
    (a rest : text) pos mk :
  forallb (accepts (CNotIn [c])) a = true -> stops (CNotIn [c]) rest = true ->
  exec adv (Mark j :: lits (c :: l) ++ p) rest (pos + length a) mk = None ->
  exec adv (Plus (CNotIn [c]) :: Mark j :: lits (c :: l) ++ p) (a ++ rest) pos mk = None.
Proof.
  intros Ha Hs Hk.
  assert (Hall : forall i, i <= length a ->
            exec adv (Mark j :: lits (c :: l) ++ p) (drop i a ++ rest) (pos + i) mk = None).
  { intros i Hi. destruct (decide (i = length a)) as [->|Hne].
    - rewrite drop_all. exact Hk.
    - destruct (drop i a) as [|x v] eqn:E.
      + apply (f_equal length) in E. rewrite length_drop in E. simpl in E. lia.
      + rewrite exec_mark. apply exec_lits_fail.
        assert (Hx : forallb (accepts (CNotIn [c])) (drop i a) = true)
          by (apply forallb_drop, Ha).
        rewrite E in Hx. simpl in Hx. apply andb_true_iff in Hx as [Hx _].
        rewrite orb_false_r in Hx. apply negb_true_iff in Hx.
        simpl. rewrite N.eqb_sym, Hx. reflexivity. }
  destruct a as [|x a].
  - simpl in *. destruct rest as [|d rest]; [reflexivity|].
    simpl in Hs. apply negb_true_iff in Hs. simpl. simpl in Hs. rewrite Hs. reflexivity.
  - cbn [forallb] in Ha. apply andb_true_iff in Ha as [Hx Ha].
    change ((x :: a) ++ rest) with (x :: a ++ rest). rewrite exec_plus_unfold, Hx.
    apply repeat_max_none; auto.
    intros i Hi. specialize (Hall (S i)). simpl in Hall.
    replace (S pos + i) with (pos + S i) by lia. apply Hall. lia.
Qed.

Lemma creds_head_none (a o : text) :
  avoids ")" a = true ->
  exec false creds_re
    (lit "fetch(apiUrl(" ++ a ++ lit "), {" ++ creds_and_more ++ o) 0 [] = None.
Proof.
  intros Ha. rewrite creds_re_eq.
  rewrite exec_lits_app, exec_mark.
  apply (exec_run_then_fail false rparen (lit ",")); [exact Ha | reflexivity |].
  vm_compute. reflexivity.
Qed.

Lemma fetch_open_cons (x : text) :
  lit "fetch(apiUrl(" ++ x = lit "fetch" ++ lparen :: lit "apiUrl(" ++ x.
Proof. reflexivity. Qed.

Lemma fetch_open_head (x : text) :
  lit "fetch(apiUrl(" ++ x = 102%N :: lit "etch(apiUrl(" ++ x.
Proof. reflexivity. Qed.

Lemma helper_open_cons (x : text) :
  lit "apiFetch(" ++ x = lit "apiFetch" ++ lparen :: x.
Proof. reflexivity. Qed.

Lemma helper_open_head (x : text) :
  lit "apiFetch(" ++ x = 97%N :: lit "piFetch(" ++ x.
Proof. reflexivity. Qed.

Lemma strip_more_none (a o : text) :
  avoids "," a = true ->
  exec false strip_re
    (lit "apiFetch(" ++ a ++ lit ", {" ++ creds_and_more ++ o) 0 [] = None.
Proof.
  intros Ha. rewrite strip_re_eq.
  rewrite exec_lits_app, exec_mark.
  apply (exec_run_then_fail false comma []); [exact Ha | reflexivity |].
  vm_compute. reflexivity.
Qed.

Lemma opts_match (a v1 rest : text) :
  a <> [] -> avoids ")" a = true -> spaces v1 ->
  exists mk,
    exec false opts_re (lit "fetch(apiUrl(" ++ a ++ lit ")," ++ v1 ++ lit "{" ++ rest) 0 [] =
      Some (length (lit "fetch(apiUrl(" ++ a ++ lit ")," ++ v1 ++ lit "{"), mk) /\
    expand opts_to (lit "fetch(apiUrl(" ++ a ++ lit ")," ++ v1 ++ lit "{" ++ rest) mk =
      lit "apiFetch(" ++ a ++ lit ", {".
Proof.
  intros Hne Ha H1. eexists. split.
  - rewrite opts_re_eq. rewrite exec_lits_app, exec_mark.
    apply exec_plus_greedy; [exact Hne | exact Ha | reflexivity |].
    rewrite exec_mark, exec_lits_app.
    apply exec_ws; [assumption | reflexivity |].
    rewrite exec_lits_app. cbn [exec andb]. f_equal. f_equal.
    rewrite !length_app. simpl. lia.
  - unfold opts_to. cbn [expand].
    erewrite (group_between 1 (lit "fetch(apiUrl(") a);
      [|reflexivity|reflexivity|reflexivity|simpl; lia].
    rewrite app_nil_r. reflexivity.
Qed.

Lemma step4_legacy (a v1 rest : text) :
  a <> [] -> avoids ")" a = true -> spaces v1 ->
  step4 (lit "fetch(apiUrl(" ++ a ++ lit ")," ++ v1 ++ lit "{" ++ rest) =
  lit "apiFetch(" ++ a ++ lit ", {" ++ step4 rest.
Proof.
  intros Hne Ha H1.
  destruct (opts_match a v1 rest) as (mk & He & Hx); auto.
  rewrite !step4_eq. rewrite (sub_match _ _ _ _ _ He).
  - rewrite Hx.
    replace (lit "fetch(apiUrl(" ++ a ++ lit ")," ++ v1 ++ lit "{" ++ rest)
      with ((lit "fetch(apiUrl(" ++ a ++ lit ")," ++ v1 ++ lit "{") ++ rest)
      by (reassoc; reflexivity).
    rewrite drop_app_length. reassoc. reflexivity.
  - rewrite length_app. simpl. lia.
Qed.

Lemma avoids_fewer (cs cs' : string) (a : text) :
  forallb (fun c => mem c (lit cs)) (lit cs') = true ->
  avoids cs a = true -> avoids cs' a = true.
Proof.
  intros Hsub. apply avoids_weaken. intros c Hc.
  induction (lit cs') as [|d l IH]; [discriminate|].
  simpl in Hsub, Hc. apply andb_true_iff in Hsub as [Hd Hl].
  apply orb_true_iff in Hc as [Hc|Hc]; [|auto].
  apply N.eqb_eq in Hc. subst c. exact Hd.
Qed.

Lemma import_skips_more (p : pattern) (t : template) (pre a o : text) :
  opens_with_then (lit "import") lbrace p -> opens_with (lit "import") p ->
  avoids "({" pre = true -> avoids "(){," a = true ->
  sub p t (pre ++ legacy_more a o) = pre ++ legacy_more a (sub p t o).
Proof.
  intros Hp Hp' Hpre Ha.
  unfold legacy_more, creds_and_more, quoted. reassoc.
  rewrite (sub_skip_wanting (lit "import") lbrace p t pre) by
    (first [exact Hp | reflexivity | lacks Hpre]).
  skip_known (lit "import").
  rewrite (sub_skip_wanting (lit "import") lbrace p t a) by
    (first [exact Hp | reflexivity | lacks Ha]).
  skip_known (lit "import").
  reflexivity.
Qed.

Lemma step3_skips_more (pre a o : text) :
  avoids "({" pre = true -> avoids "(){," a = true ->
  step3 (pre ++ legacy_more a o) = pre ++ legacy_more a (step3 o).
Proof.
  intros Hpre Ha. rewrite !step3_eq.
  unfold legacy_more at 1. rewrite fetch_open_cons.
  rewrite (sub_skip_before_paren (lit "fetch(apiUrl(") creds_re creds_to
             (lit "fetch") (lit "apiUrl("));
    [|exact creds_opens|reflexivity|lacks Hpre|reflexivity|simpl; lia].
  rewrite <- fetch_open_cons. f_equal. unfold legacy_more.
  rewrite !fetch_open_head.
  rewrite sub_next by
    (rewrite <- fetch_open_head; apply creds_head_none;
     revert Ha; apply avoids_fewer; reflexivity).
  f_equal. unfold creds_and_more, quoted. reassoc.
  skip_known (lit "fetch(apiUrl(").
  rewrite (sub_skip_foreign (lit "fetch(apiUrl(") creds_re creds_to a _ lparen) by
    (first [exact creds_opens | reflexivity | lacks Ha]).
  skip_known (lit "fetch(apiUrl(").
  reflexivity.
Qed.

Lemma step4_merges_more (pre a o : text) :
  a <> [] -> avoids "({" pre = true -> avoids "(){," a = true ->
  step4 (pre ++ legacy_more a o) = pre ++ migrated_more a (step4 o).
Proof.
  intros Hne Hpre Ha. rewrite step4_eq.
  unfold legacy_more at 1. rewrite fetch_open_cons.
  rewrite (sub_skip_before_paren (lit "fetch(apiUrl(") opts_re opts_to
             (lit "fetch") (lit "apiUrl("));
    [|exact opts_opens|reflexivity|lacks Hpre|reflexivity|simpl; lia].
  rewrite <- fetch_open_cons. f_equal. rewrite <- step4_eq.
  change (lit "), {") with (lit ")," ++ sp ++ lit "{"). reassoc.
  rewrite step4_legacy; [|exact Hne|revert Ha; apply avoids_fewer; reflexivity|reflexivity].
  unfold migrated_more. do 3 apply (f_equal (app _)).
  rewrite !step4_eq. unfold creds_and_more, quoted. reassoc.
  skip_known (lit "fetch(apiUrl(").
  reflexivity.
Qed.

Lemma fetch_skips_more (p : pattern) (t : template) (pre a o : text) :
  opens_with (lit "fetch(apiUrl(") p ->
  avoids "({" pre = true -> avoids "(){," a = true ->
  sub p t (pre ++ migrated_more a o) = pre ++ migrated_more a (sub p t o).
Proof.
  intros Hp Hpre Ha. unfold migrated_more. rewrite helper_open_cons.
  rewrite (sub_skip_before_paren (lit "fetch(apiUrl(") p t (lit "fetch") (lit "apiUrl("));
    [|exact Hp|reflexivity|lacks Hpre|reflexivity|simpl; lia].
  rewrite <- !helper_open_cons. f_equal.
  unfold creds_and_more, quoted. reassoc.
  skip_known (lit "fetch(apiUrl(").
  rewrite (sub_skip_foreign (lit "fetch(apiUrl(") p t a _ lparen) by
    (first [exact Hp | reflexivity | lacks Ha]).
  skip_known (lit "fetch(apiUrl(").
  reflexivity.
Qed.

Lemma step6_keeps_more (pre a o : text) :
  avoids "({" pre = true -> avoids "(){," a = true ->
  step6 (pre ++ migrated_more a o) = pre ++ migrated_more a (step6 o).
Proof.
  intros Hpre Ha. rewrite !step6_eq. unfold migrated_more. rewrite helper_open_cons.
  rewrite (sub_skip_before_paren (lit "apiFetch(") strip_re strip_to (lit "apiFetch") []);
    [|exact strip_opens|reflexivity|lacks Hpre|reflexivity|simpl; lia].
  rewrite <- !helper_open_cons. f_equal.
  rewrite !helper_open_head.
  rewrite sub_next by
    (rewrite <- helper_open_head; apply strip_more_none;
     revert Ha; apply avoids_fewer; reflexivity).
  f_equal. unfold creds_and_more, quoted. reassoc.
  skip_known (lit "apiFetch(").
  rewrite (sub_skip_foreign (lit "apiFetch(") strip_re strip_to a _ lparen) by
    (first [exact strip_opens | reflexivity | lacks Ha]).
  skip_known (lit "apiFetch(").
  reflexivity.
Qed.

Lemma legacy_more_substitutions (pre a o : text) :
  a <> [] -> avoids "({" pre = true -> avoids "(){," a = true ->
  substitutions (pre ++ legacy_more a o) = pre ++ migrated_more a (substitutions o).
Proof.
  intros Hne Hpre Ha. unfold substitutions.
  rewrite (step1_eq (pre ++ _)), import_skips_more, <- step1_eq;
    auto using import1_opens, import1_opens_with.
  rewrite (step2_eq (pre ++ _)), import_skips_more, <- step2_eq;
    auto using import2_opens, import2_opens_with.
  rewrite step3_skips_more by assumption.
  rewrite step4_merges_more by assumption.
  rewrite (step5_eq (pre ++ _)), fetch_skips_more, <- step5_eq;
    auto using plain_opens.
  apply step6_keeps_more; assumption.
Qed.

Lemma plain_re_eq :
  plain_re =
  lits (lit "fetch(apiUrl(") ++ Mark 0 :: Plus (CNotIn (lit ")")) :: Mark 1 ::
  lits (lit "))") ++ [].
Proof. reflexivity. Qed.

Lemma creds_plain_none (a post : text) :
  avoids ")" a = true ->
  exec false creds_re (lit "fetch(apiUrl(" ++ a ++ lit "))" ++ post) 0 [] = None.
Proof.
  intros Ha. rewrite creds_re_eq.
  rewrite exec_lits_app, exec_mark.
  apply (exec_run_then_fail false rparen (lit ",")); [exact Ha | reflexivity |].
  vm_compute. reflexivity.
Qed.

Lemma opts_plain_none (a post : text) :
  avoids ")" a = true ->
  exec false opts_re (lit "fetch(apiUrl(" ++ a ++ lit "))" ++ post) 0 [] = None.
Proof.
  intros Ha. rewrite opts_re_eq.
  rewrite exec_lits_app, exec_mark.
  apply (exec_run_then_fail false rparen (lit ",")); [exact Ha | reflexivity |].
  vm_compute. reflexivity.
Qed.

Lemma plain_match (a rest : text) :
  a <> [] -> avoids ")" a = true ->
  exists mk,
    exec false plain_re (plain_call a ++ rest) 0 [] = Some (length (plain_call a), mk) /\
    expand plain_to (plain_call a ++ rest) mk = lit "apiFetch(" ++ a ++ lit ")".
Proof.
  intros Hne Ha. eexists. split.
  - rewrite plain_re_eq. unfold plain_call at 1. reassoc.
    rewrite exec_lits_app, exec_mark.
    apply exec_plus_greedy; [exact Hne | exact Ha | reflexivity |].
    rewrite exec_mark, exec_lits_app. cbn [exec andb]. f_equal. f_equal.
    unfold plain_call. rewrite !length_app. simpl. lia.
  - unfold plain_to, plain_call. reassoc. cbn [expand].
    erewrite (group_between 1 (lit "fetch(apiUrl(") a);
      [|reflexivity|reflexivity|reflexivity|simpl; lia].
    rewrite app_nil_r. reflexivity.
Qed.

Lemma step5_plain (a rest : text) :
  a <> [] -> avoids ")" a = true ->
  step5 (plain_call a ++ rest) = lit "apiFetch(" ++ a ++ lit ")" ++ step5 rest.
Proof.
  intros Hne Ha.
  destruct (plain_match a rest) as (mk & He & Hx); auto.
  rewrite !step5_eq. rewrite (sub_match _ _ _ _ _ He).
  - rewrite Hx, drop_app_length, <- !app_assoc. reflexivity.
  - unfold plain_call. rewrite length_app. simpl. lia.
Qed.

Lemma strip_match (m v1 v2 v3 : text) (q1 q2 : char) (v4 rest : text) :
  m <> [] -> avoids "," m = true ->
  spaces v1 -> spaces v2 -> spaces v3 -> spaces v4 ->
  is_quote q1 = true -> is_quote q2 = true ->
  exists mk,
    exec false strip_re (helper_creds_call m v1 v2 v3 q1 q2 v4 ++ rest) 0 [] =
      Some (length (helper_creds_call m v1 v2 v3 q1 q2 v4), mk) /\
    expand strip_to (helper_creds_call m v1 v2 v3 q1 q2 v4 ++ rest) mk =
      lit "apiFetch(" ++ m ++ lit ")".
Proof.
  intros Hne Hm H1 H2 H3 H4 Hq1 Hq2. eexists. split.
  - rewrite strip_re_eq. unfold helper_creds_call at 1. reassoc.
    rewrite exec_lits_app, exec_mark.
    apply exec_plus_greedy; [exact Hne | exact Hm | reflexivity |].
    rewrite exec_mark, exec_lits_app.
    apply exec_ws; [assumption | reflexivity |].
    rewrite exec_only_credentials by assumption. f_equal. f_equal.
    unfold helper_creds_call. rewrite !length_app. simpl. lia.
  - unfold strip_to, helper_creds_call. reassoc. cbn [expand].
    erewrite (group_between 1 (lit "apiFetch(") m);
      [|reflexivity|reflexivity|reflexivity|simpl; lia].
    rewrite app_nil_r. reflexivity.
Qed.

Lemma step6_strips (m v1 v2 v3 : text) (q1 q2 : char) (v4 rest : text) :
  m <> [] -> avoids "," m = true ->
  spaces v1 -> spaces v2 -> spaces v3 -> spaces v4 ->
  is_quote q1 = true -> is_quote q2 = true ->
  step6 (helper_creds_call m v1 v2 v3 q1 q2 v4 ++ rest) =
  lit "apiFetch(" ++ m ++ lit ")" ++ step6 rest.
Proof.
  intros Hne Hm H1 H2 H3 H4 Hq1 Hq2.
  destruct (strip_match m v1 v2 v3 q1 q2 v4 rest) as (mk & He & Hx); auto.
  rewrite !step6_eq. rewrite (sub_match _ _ _ _ _ He).
  - rewrite Hx, drop_app_length, <- !app_assoc. reflexivity.
  - unfold helper_creds_call. rewrite length_app. simpl. lia.
Qed.

Lemma contains_drop (l a : text) (i : nat) :
  contains l (drop i a) = true -> contains l a = true.
Proof.
  intros H. apply contains_inv in H as (x & y & E).
  rewrite <- (take_drop i a), E, app_assoc. apply contains_app.
Qed.

(** A text in which the opening literal does not occur, before a
    character foreign to the literal, is copied. *)
Lemma sub_skip_free (l : text) (p : pattern) (t : template) (a s : text) :
  opens_with l p -> contains l a = false -> foreign_next l s = true ->
  sub p t (a ++ s) = a ++ sub p t s.
Proof.
  intros Hp Ha Hs. apply sub_skip. intros i Hi.
  rewrite drop_app_le by lia. apply (exec_opens_fail _ l); auto.
  destruct (startswith l (drop i a ++ s)) eqn:E; [|reflexivity].
  assert (E' : startswith l (drop i a) = true).
  { destruct s as [|d s]; [rewrite app_nil_r in E; exact E|].
    simpl in Hs. apply negb_true_iff in Hs. eapply startswith_sep; eauto. }
  apply contains_here, contains_drop in E'.
  exact (False_ind _ (diff_true_false (eq_trans (eq_sym E') Ha))).
Qed.

Lemma import_passes_plain (p : pattern) (t : template) (pre a rest : text) :
  opens_with_then (lit "import") lbrace p -> opens_with (lit "import") p ->
  avoids "({" pre = true -> avoids "(){" a = true ->
  sub p t (pre ++ plain_call a ++ rest) = pre ++ plain_call a ++ sub p t rest.
Proof.
  intros Hp Hp' Hpre Ha. unfold plain_call. reassoc.
  rewrite (sub_skip_wanting (lit "import") lbrace p t pre) by
    (first [exact Hp | reflexivity | lacks Hpre]).
  skip_known (lit "import").
  rewrite (sub_skip_wanting (lit "import") lbrace p t a) by
    (first [exact Hp | reflexivity | lacks Ha]).
  skip_known (lit "import").
  reflexivity.
Qed.

Lemma options_pass_plain (p : pattern) (t : template) (pre a rest : text) :
  opens_with (lit "fetch(apiUrl(") p ->
  (exec false p (lit "fetch(apiUrl(" ++ a ++ lit "))" ++ rest) 0 [] = None) ->
  avoids "({" pre = true -> avoids "(){" a = true ->
  sub p t (pre ++ plain_call a ++ rest) = pre ++ plain_call a ++ sub p t rest.
Proof.
  intros Hp Hnone Hpre Ha. unfold plain_call. reassoc.
  rewrite fetch_open_cons.
  rewrite (sub_skip_before_paren (lit "fetch(apiUrl(") p t (lit "fetch") (lit "apiUrl("));
    [|exact Hp|reflexivity|lacks Hpre|reflexivity|simpl; lia].
  rewrite <- fetch_open_cons. f_equal.
  rewrite !fetch_open_head.
  rewrite sub_next by (rewrite <- fetch_open_head; exact Hnone).
  f_equal.
  skip_known (lit "fetch(apiUrl(").
  rewrite (sub_skip_foreign (lit "fetch(apiUrl(") p t a _ lparen) by
    (first [exact Hp | reflexivity | lacks Ha]).
  skip_known (lit "fetch(apiUrl(").
  reflexivity.
Qed.

Lemma step5_passes_plain (pre a rest : text) :
  a <> [] -> avoids "(){" a = true -> avoids "({" pre = true ->
  step5 (pre ++ plain_call a ++ rest) = pre ++ lit "apiFetch(" ++ a ++ lit ")" ++ step5 rest.
Proof.
  intros Hne Ha Hpre.
  assert (E : plain_call a ++ rest =
              lit "fetch" ++ lparen :: lit "apiUrl(" ++ a ++ lit "))" ++ rest).
  { unfold plain_call. rewrite fetch_open_split. reassoc. reflexivity. }
  rewrite step5_eq, E.
  rewrite (sub_skip_before_paren (lit "fetch(apiUrl(") plain_re plain_to
             (lit "fetch") (lit "apiUrl("));
    [|exact plain_opens|reflexivity|lacks Hpre|reflexivity|simpl; lia].
  rewrite <- E, <- !step5_eq. rewrite step5_plain; auto.
  revert Ha. apply avoids_fewer. reflexivity.
Qed.

(** The first five substitutions on a call without options: the call is
    rewritten, the text after it is treated on its own. *)
Lemma plain_call_first_five (pre a rest : text) :
  a <> [] -> avoids "(){" a = true -> avoids "({" pre = true ->
  step5 (step4 (step3 (step2 (step1 (pre ++ plain_call a ++ rest))))) =
  pre ++ lit "apiFetch(" ++ a ++ lit ")" ++ step5 (step4 (step3 (step2 (step1 rest)))).
Proof.
  intros Hne Ha Hpre.
  assert (Ha' : avoids ")" a = true) by (revert Ha; apply avoids_fewer; reflexivity).
  rewrite (step1_eq (pre ++ _)), import_passes_plain, <- step1_eq;
    auto using import1_opens, import1_opens_with.
  rewrite (step2_eq (pre ++ _)), import_passes_plain, <- step2_eq;
    auto using import2_opens, import2_opens_with.
  rewrite (step3_eq (pre ++ _)), options_pass_plain, <- step3_eq;
    auto using creds_opens, creds_plain_none.
  rewrite (step4_eq (pre ++ _)), options_pass_plain, <- step4_eq;
    auto using opts_opens, opts_plain_none.
  apply step5_passes_plain; assumption.
Qed.

Lemma first_five_keep (post : text) :
  avoids "({" post = true ->
  step5 (step4 (step3 (step2 (step1 post)))) = post.
Proof.
  intros Hpost.
  rewrite (step1_eq post), (sub_lacking_wanted (lit "import") lbrace) by
    (first [exact import1_opens | discriminate | lacks Hpost]).
  rewrite (step2_eq post), (sub_lacking_wanted (lit "import") lbrace) by
    (first [exact import2_opens | discriminate | lacks Hpost]).
  rewrite (step3_eq post), (sub_skip_lacking (lit "fetch(apiUrl(") _ _ post lparen) by
    (first [exact creds_opens | reflexivity | lacks Hpost]).
  rewrite (step4_eq post), (sub_skip_lacking (lit "fetch(apiUrl(") _ _ post lparen) by
    (first [exact opts_opens | reflexivity | lacks Hpost]).
  rewrite (step5_eq post), (sub_skip_lacking (lit "fetch(apiUrl(") _ _ post lparen) by
    (first [exact plain_opens | reflexivity | lacks Hpost]).
  reflexivity.
Qed.

Lemma plain_call_substitutions (pre a post : text) :
  a <> [] -> avoids "(){" a = true ->
  avoids "({" pre = true -> avoids "({" post = true ->
  substitutions (pre ++ plain_call a ++ post) = pre ++ lit "apiFetch(" ++ a ++ lit ")" ++ post.
Proof.
  intros Hne Ha Hpre Hpost. unfold substitutions.
  rewrite plain_call_first_five, first_five_keep by assumption.
  assert (Hp : mem lparen pre = false) by lacks Hpre.
  assert (Hx : mem lparen (a ++ lit ")" ++ post) = false).
  { rewrite !mem_app. replace (mem lparen a) with false by (symmetry; lacks Ha).
    replace (mem lparen post) with false by (symmetry; lacks Hpost). reflexivity. }
  assert (Hb : mem lbrace (a ++ lit ")" ++ post) = false).
  { rewrite !mem_app. replace (mem lbrace a) with false by (symmetry; lacks Ha).
    replace (mem lbrace post) with false by (symmetry; lacks Hpost). reflexivity. }
  apply strip_skips_helper; assumption.
Qed.

Lemma import_keeps_later (p : pattern) (t : template)
    (mid v1 v2 v3 : text) (q1 q2 : char) (v4 post : text) :
  opens_with_then (lit "import") lbrace p -> opens_with (lit "import") p ->
  avoids "{," mid = true ->
  spaces v1 -> spaces v2 -> spaces v3 -> spaces v4 ->
  is_quote q1 = true -> is_quote q2 = true -> avoids "({" post = true ->
  sub p t (later_creds mid v1 v2 v3 q1 q2 v4 ++ post) =
  later_creds mid v1 v2 v3 q1 q2 v4 ++ post.
Proof.
  intros Hp Hp' Hmid H1 H2 H3 H4 Hq1 Hq2 Hpost.
  unfold later_creds, creds_object. reassoc.
  apply quote_cases in Hq1 as [->| ->]; apply quote_cases in Hq2 as [->| ->].
  all: rewrite (sub_skip_wanting (lit "import") lbrace p t mid) by
         (first [exact Hp | reflexivity | lacks Hmid]).
  all: skip_known (lit "import").
  all: rewrite (sub_lacking_wanted (lit "import") lbrace p t post) by
         (first [exact Hp | discriminate | lacks Hpost]).
  all: reflexivity.
Qed.

Lemma fetch_keeps_later (p : pattern) (t : template)
    (mid v1 v2 v3 : text) (q1 q2 : char) (v4 post : text) :
  opens_with (lit "fetch(apiUrl(") p ->
  contains (lit "fetch(apiUrl(") mid = false ->
  spaces v1 -> spaces v2 -> spaces v3 -> spaces v4 ->
  is_quote q1 = true -> is_quote q2 = true -> avoids "({" post = true ->
  sub p t (later_creds mid v1 v2 v3 q1 q2 v4 ++ post) =
  later_creds mid v1 v2 v3 q1 q2 v4 ++ post.
Proof.
  intros Hp Hmid H1 H2 H3 H4 Hq1 Hq2 Hpost.
  unfold later_creds, creds_object. reassoc.
  apply quote_cases in Hq1 as [->| ->]; apply quote_cases in Hq2 as [->| ->].
  all: rewrite (sub_skip_free (lit "fetch(apiUrl(") p t mid) by
         (first [exact Hp | exact Hmid | reflexivity]).
  all: skip_known (lit "fetch(apiUrl(").
  all: rewrite (sub_skip_lacking (lit "fetch(apiUrl(") p t post lparen) by
         (first [exact Hp | reflexivity | lacks Hpost]).
  all: reflexivity.
Qed.

Lemma first_five_keep_later (mid v1 v2 v3 : text) (q1 q2 : char) (v4 post : text) :
  avoids "{," mid = true -> contains (lit "fetch(apiUrl(") mid = false ->
  spaces v1 -> spaces v2 -> spaces v3 -> spaces v4 ->
  is_quote q1 = true -> is_quote q2 = true -> avoids "({" post = true ->
  step5 (step4 (step3 (step2 (step1 (later_creds mid v1 v2 v3 q1 q2 v4 ++ post))))) =
  later_creds mid v1 v2 v3 q1 q2 v4 ++ post.
Proof.
  intros Hmid Hfree H1 H2 H3 H4 Hq1 Hq2 Hpost.
  rewrite step1_eq, import_keeps_later; auto using import1_opens, import1_opens_with.
  rewrite step2_eq, import_keeps_later; auto using import2_opens, import2_opens_with.
  rewrite step3_eq, fetch_keeps_later; auto using creds_opens.
  rewrite step4_eq, fetch_keeps_later; auto using opts_opens.
  rewrite step5_eq, fetch_keeps_later; auto using plain_opens.
Qed.

Lemma avoids_app (cs : string) (u v : text) :
  avoids cs (u ++ v) = avoids cs u && avoids cs v.
Proof. unfold avoids. apply forallb_app. Qed.

Lemma plain_then_later_substitutions
    (pre a mid v1 v2 v3 : text) (q1 q2 : char) (v4 post : text) :
  a <> [] -> avoids "(){," a = true -> avoids "({" pre = true ->
  avoids "{," mid = true -> contains (lit "fetch(apiUrl(") mid = false ->
  spaces v1 -> spaces v2 -> spaces v3 -> spaces v4 ->
  is_quote q1 = true -> is_quote q2 = true -> avoids "({" post = true ->
  substitutions (pre ++ plain_call a ++ later_creds mid v1 v2 v3 q1 q2 v4 ++ post) =
  pre ++ lit "apiFetch(" ++ a ++ lit ")" ++ mid ++ lit ")" ++ post.
Proof.
  intros Hne Ha Hpre Hmid Hfree H1 H2 H3 H4 Hq1 Hq2 Hpost. unfold substitutions.
  rewrite plain_call_first_five; [|exact Hne|revert Ha; apply avoids_fewer; reflexivity|exact Hpre].
  rewrite first_five_keep_later by assumption.
  rewrite step6_eq.
  rewrite helper_open_cons.
  rewrite (sub_skip_before_paren (lit "apiFetch(") strip_re strip_to (lit "apiFetch") []);
    [|exact strip_opens|reflexivity|lacks Hpre|reflexivity|simpl; lia].
  rewrite <- helper_open_cons. f_equal.
  assert (E : lit "apiFetch(" ++ a ++ lit ")" ++ later_creds mid v1 v2 v3 q1 q2 v4 ++ post =
              helper_creds_call (a ++ lit ")" ++ mid) v1 v2 v3 q1 q2 v4 ++ post).
  { unfold later_creds, helper_creds_call. reassoc. reflexivity. }
  rewrite E, <- step6_eq, step6_strips; auto.
  - rewrite step6_eq, (sub_skip_lacking (lit "apiFetch(") strip_re strip_to post lparen) by
      (first [exact strip_opens | reflexivity | lacks Hpost]).
    reassoc. reflexivity.
  - destruct a; [congruence | discriminate].
  - rewrite !avoids_app.
    replace (avoids "," a) with true by (symmetry; revert Ha; apply avoids_fewer; reflexivity).
    replace (avoids "," mid) with true by (symmetry; revert Hmid; apply avoids_fewer; reflexivity).
    reflexivity.
Qed.

(** A run on a file that has a legacy call and that the substitutions
    change. *)
Lemma update_rewrites (fp : path) (w : world) (c c' : text) :
  files w !! fp = Some c ->
  contains (lit "fetch(apiUrl(") c = true ->
  substitutions c = c' -> c' <> c ->
  exists w',
    update_file_with_apiFetch fp w = (Ok true, w') /\
    files w' !! fp = Some c' /\
    trace w' = trace w ++ [EvWrite fp c'; EvPrint (updated_msg fp)].
Proof.
  intros Hf Hc Hs Hne. rewrite (update_run _ _ _ Hf), Hs, Hc. cbn [negb andb].
  unfold text_eqb. rewrite bool_decide_eq_false_2 by exact Hne.
  cbn [negb]. eexists. split; [reflexivity|]. simpl.
  split; [apply lookup_insert_eq | reflexivity].
Qed.

(** X12. A legacy call whose options open with the credentials flag and
    go on with more, fetch(apiUrl(ARG), { credentials: include, MORE: the
    call becomes apiFetch(ARG, { credentials: include, MORE.  The options
    are merged into the new call and the credentials flag stays, pattern 6
    does not take it out; the text after the flag is migrated on its own.
    ARG is not empty and has no parenthesis, brace or comma; the text
    before the call has no opening parenthesis or brace. *)
Theorem legacy_call_with_more_options_keeps_credentials
    (fp : path) (w : world) (pre a o : text) :
  a <> [] -> avoids "(){," a = true -> avoids "({" pre = true ->
  files w !! fp = Some (pre ++ legacy_more a o) ->
  exists w',
    update_file_with_apiFetch fp w = (Ok true, w') /\
    files w' !! fp = Some (pre ++ migrated_more a (substitutions o)) /\
    trace w' = trace w ++
      [EvWrite fp (pre ++ migrated_more a (substitutions o)); EvPrint (updated_msg fp)].
Proof.
  intros Hne Ha Hpre Hf. apply (update_rewrites fp w _ _ Hf).
  - unfold legacy_more. apply contains_app.
  - apply legacy_more_substitutions; assumption.
  - intros E. apply app_inv_head in E.
    apply (f_equal (fun l => head l)) in E. vm_compute in E. discriminate.
Qed.

Lemma legacy_call_with_more_options_witness :
  exists w',
    update_file_with_apiFetch a_ts (one_file a_ts legacy_post) = (Ok true, w') /\
    files w' !! a_ts = Some ([] ++ migrated_more (quoted "/x") (substitutions post_option)) /\
    trace w' = [] ++
      [EvWrite a_ts ([] ++ migrated_more (quoted "/x") (substitutions post_option));
       EvPrint (updated_msg a_ts)].
Proof.
  apply (legacy_call_with_more_options_keeps_credentials
           a_ts (one_file a_ts legacy_post) [] (quoted "/x") post_option);
    [discriminate | reflexivity | reflexivity | reflexivity].
Defined.

(** X13. A legacy call without options, fetch(apiUrl(ARG)), becomes
    apiFetch(ARG); the text around it stays, the file is written and the
    result is true.  ARG is not empty and has no parenthesis or brace; the
    text around the call has no opening parenthesis or brace. *)
Theorem plain_call_migrated (fp : path) (w : world) (pre a post : text) :
  a <> [] -> avoids "(){" a = true ->
  avoids "({" pre = true -> avoids "({" post = true ->
  files w !! fp = Some (pre ++ plain_call a ++ post) ->
  exists w',
    update_file_with_apiFetch fp w = (Ok true, w') /\
    files w' !! fp = Some (pre ++ lit "apiFetch(" ++ a ++ lit ")" ++ post) /\
    trace w' = trace w ++
      [EvWrite fp (pre ++ lit "apiFetch(" ++ a ++ lit ")" ++ post);
       EvPrint (updated_msg fp)].
Proof.
  intros Hne Ha Hpre Hpost Hf. apply (update_rewrites fp w _ _ Hf).
  - unfold plain_call. rewrite <- !app_assoc. apply contains_app.
  - apply plain_call_substitutions; assumption.
  - intros E. apply app_inv_head in E.
    apply (f_equal (fun l => head l)) in E. vm_compute in E. discriminate.
Qed.

Lemma plain_call_migrated_witness :
  exists w',
    update_file_with_apiFetch a_ts
      (one_file a_ts (lit "await " ++ plain_call (quoted "/x") ++ lit ";")) = (Ok true, w') /\
    files w' !! a_ts =
      Some (lit "await " ++ lit "apiFetch(" ++ quoted "/x" ++ lit ")" ++ lit ";") /\
    trace w' = [] ++
      [EvWrite a_ts (lit "await " ++ lit "apiFetch(" ++ quoted "/x" ++ lit ")" ++ lit ";");
       EvPrint (updated_msg a_ts)].
Proof.
  apply (plain_call_migrated a_ts
           (one_file a_ts (lit "await " ++ plain_call (quoted "/x") ++ lit ";"))
           (lit "await ") (quoted "/x") (lit ";"));
    [discriminate | reflexivity | reflexivity | reflexivity | reflexivity].
Defined.

(** X14. Pattern 6 reaches past the call it starts in.  The file is
    some text PRE, a legacy call without options fetch(apiUrl(ARG)), some
    text MID, a comma, an options object that holds only the credentials
    flag and a closing parenthesis (the end of a later call of
    anything), and some text POST.  Then the run rewrites the first call
    to apiFetch(ARG) and takes the comma and the options object out of
    the later call: the file becomes PRE apiFetch(ARG) MID ) POST, it is
    written and the result is true.  The conditions: ARG is not empty
    and has no parenthesis, brace or comma; MID has no comma, no brace
    and no fetch(apiUrl( in it; PRE and POST have no opening parenthesis
    or brace; the white space of the options object is any and its
    quotes are either. *)
Theorem strip_reaches_later_call
    (fp : path) (w : world)
    (pre a mid v1 v2 v3 : text) (q1 q2 : char) (v4 post : text) :
  a <> [] -> avoids "(){," a = true -> avoids "({" pre = true ->
  avoids "{," mid = true -> contains (lit "fetch(apiUrl(") mid = false ->
  spaces v1 -> spaces v2 -> spaces v3 -> spaces v4 ->
  is_quote q1 = true -> is_quote q2 = true -> avoids "({" post = true ->
  files w !! fp = Some (pre ++ plain_call a ++ later_creds mid v1 v2 v3 q1 q2 v4 ++ post) ->
  exists w',
    update_file_with_apiFetch fp w = (Ok true, w') /\
    files w' !! fp = Some (pre ++ lit "apiFetch(" ++ a ++ lit ")" ++ mid ++ lit ")" ++ post) /\
    trace w' = trace w ++
      [EvWrite fp (pre ++ lit "apiFetch(" ++ a ++ lit ")" ++ mid ++ lit ")" ++ post);
       EvPrint (updated_msg fp)].
Proof.
  intros Hne Ha Hpre Hmid Hfree H1 H2 H3 H4 Hq1 Hq2 Hpost Hf.
  apply (update_rewrites fp w _ _ Hf).
  - unfold plain_call. rewrite <- !app_assoc. apply contains_app.
  - apply plain_then_later_substitutions; assumption.
  - intros E. apply app_inv_head in E.
    apply (f_equal (fun l => head l)) in E. vm_compute in E. discriminate.
Qed.

Lemma strip_reaches_later_call_witness :
  exists w',
    update_file_with_apiFetch a_ts (one_file a_ts two_calls) = (Ok true, w') /\
    files w' !! a_ts =
      Some (lit "await " ++ lit "apiFetch(" ++ quoted "/a" ++ lit ")" ++
            lit "; await fetch(other" ++ lit ")" ++ lit ";") /\
    trace w' = [] ++
      [EvWrite a_ts (lit "await " ++ lit "apiFetch(" ++ quoted "/a" ++ lit ")" ++
                     lit "; await fetch(other" ++ lit ")" ++ lit ";");
       EvPrint (updated_msg a_ts)].
Proof.
  apply (strip_reaches_later_call a_ts (one_file a_ts two_calls)
           (lit "await ") (quoted "/a") (lit "; await fetch(other") sp sp sp dq dq sp (lit ";"));
    [discriminate | reflexivity ..].
Defined.

End CallsMore.

(** ** The guard of [update_file_with_apiFetch] *)

Section UpdateGuard.

(** X9. The guard looks for two substrings, and the first has the second
    in it: a file without fetch(api is skipped, whatever else it holds.
    Nothing is written or printed and the result is false. *)
Theorem update_skips_without_fetch_api (fp : path) (w : world) (c : text) :
  files w !! fp = Some c ->
  contains (lit "fetch(api") c = false ->
  update_file_with_apiFetch fp w = (Ok false, w).
Proof.
  intros Hf Hc. rewrite (update_run _ _ _ Hf), Hc.
  destruct (contains (lit "fetch(apiUrl(") c) eqn:E; [|reflexivity].
  change (lit "fetch(apiUrl(") with (lit "fetch(api" ++ lit "Url(") in E.
  apply contains_longer in E.
  exact (False_ind _ (diff_true_false (eq_trans (eq_sym E) Hc))).
Qed.

Lemma update_skips_without_fetch_api_witness :
  update_file_with_apiFetch b_tsx sample_world = (Ok false, sample_world).
Proof.
  apply (update_skips_without_fetch_api b_tsx sample_world quiet); reflexivity.
Defined.

Lemma sub_absent_opens (l : text) (p : pattern) (t : template) (s : text) :
  opens_with l p -> l <> [] -> contains l s = false -> sub p t s = s.
Proof. intros Hp Hl Hs. rewrite Hp. apply sub_absent; assumption. Qed.

Lemma substitutions_without_openers (c : text) :
  contains (lit "import") c = false ->
  contains (lit "fetch(apiUrl(") c = false ->
  contains (lit "apiFetch(") c = false ->
  substitutions c = c.
Proof.
  intros Hi Hf Ha. unfold substitutions.
  rewrite (step1_eq c), (sub_absent_opens _ _ _ _ import1_opens_with) by (discriminate || assumption).
  rewrite (step2_eq c), (sub_absent_opens _ _ _ _ import2_opens_with) by (discriminate || assumption).
  rewrite (step3_eq c), (sub_absent_opens _ _ _ _ creds_opens) by (discriminate || assumption).
  rewrite (step4_eq c), (sub_absent_opens _ _ _ _ opts_opens) by (discriminate || assumption).
  rewrite (step5_eq c), (sub_absent_opens _ _ _ _ plain_opens) by (discriminate || assumption).
  rewrite (step6_eq c), (sub_absent_opens _ _ _ _ strip_opens) by (discriminate || assumption).
  reflexivity.
Qed.

(** X10. A file may pass the guard and still stay as it is.  Every
    pattern opens with import, with fetch(apiUrl( or with apiFetch(; a
    file with none of the three, even one the guard lets through because
    it has fetch(api in it, is not written, nothing is printed and the
    result is false. *)
Theorem update_without_pattern_openers (fp : path) (w : world) (c : text) :
  files w !! fp = Some c ->
  contains (lit "import") c = false ->
  contains (lit "fetch(apiUrl(") c = false ->
  contains (lit "apiFetch(") c = false ->
  update_file_with_apiFetch fp w = (Ok false, w).
Proof.
  intros Hf Hi Hu Ha. rewrite (update_run _ _ _ Hf).
  rewrite (substitutions_without_openers c) by assumption.
  unfold text_eqb. rewrite bool_decide_eq_true_2 by reflexivity.
  destruct (negb _ && negb _); reflexivity.
Qed.

Lemma update_without_pattern_openers_witness :
  contains (lit "fetch(api") routes_call = true /\
  update_file_with_apiFetch a_ts (one_file a_ts routes_call) =
    (Ok false, one_file a_ts routes_call).
Proof.
  split; [reflexivity|].
  apply (update_without_pattern_openers a_ts (one_file a_ts routes_call) routes_call);
    reflexivity.
Defined.

End UpdateGuard.

(** ** [inject] run again and again *)

Section InjectAgain.

(** X15. Every anchor line of the content makes the new content longer
    by the length of the helper text, 713 characters; nothing else
    changes the length. *)
Theorem inject_length (c : text) :
  length (inject c) = length c + 713 * occurrences anchor c.
Proof.
  destruct (replace_parts anchor (apiFetch_code ++ anchor) c anchor_self_free)
    as (parts & Hl & _ & Hj & Hr).
  fold (inject c) in Hr. rewrite Hr, join_length_grow, <- Hj, Hl.
  change (length apiFetch_code) with 713. lia.
Qed.

Lemma startswith_self_free (c : char) (rest : text) (x : char) (u v : text) :
  mem c rest = false -> opens_like (c :: rest) v ->
  startswith (c :: rest) (x :: u ++ v) = true ->
  startswith (c :: rest) (x :: u) = true.
Proof.
  intros Hc Hv H. cbn [startswith] in *.
  apply andb_true_iff in H as [Hx H]. rewrite Hx. cbn [andb].
  destruct v as [|d v]; [rewrite app_nil_r in H; exact H|].
  simpl in Hv. subst d. eapply startswith_sep; eauto.
Qed.

Lemma contains_app_sep (old u v : text) :
  self_free old -> opens_like old v ->
  contains old u = false -> contains old v = false ->
  contains old (u ++ v) = false.
Proof.
  intros Hsf Hv Hu Hcv. destruct old as [|c rest]; [destruct Hsf|].
  cbn [self_free] in Hsf.
  induction u as [|x u IH]; [exact Hcv|].
  change ((x :: u) ++ v) with (x :: u ++ v). cbn [contains].
  rewrite IH by (eapply contains_false_tail; exact Hu). rewrite orb_false_r.
  apply not_true_is_false. intros E.
  apply startswith_self_free in E; auto.
  apply contains_false_startswith in Hu.
  exact (diff_true_false (eq_trans (eq_sym E) Hu)).
Qed.

Lemma replace_skip_free (old new q r : text) :
  self_free old -> contains old q = false ->
  replace old new (q ++ old ++ r) = q ++ new ++ replace old new r.
Proof.
  intros Hsf Hq. pose proof (self_free_ne _ Hsf) as Hne.
  induction q as [|x q IH]; [apply (replace_here old new r), Hne|].
  change ((x :: q) ++ old ++ r) with (x :: q ++ old ++ r).
  rewrite replace_next; [|exact Hne|].
  - simpl. f_equal. apply IH. eapply contains_false_tail, Hq.
  - destruct old as [|c rest]; [destruct Hsf|]. cbn [self_free] in Hsf.
    apply not_true_is_false. intros E.
    apply startswith_self_free in E; auto; [|reflexivity].
    apply contains_false_startswith in Hq.
    exact (diff_true_false (eq_trans (eq_sym E) Hq)).
Qed.

Lemma replace_join (old new : text) (parts : list text) :
  self_free old -> Forall (fun p => contains old p = false) parts ->
  replace old new (join old parts) = join new parts.
Proof.
  intros Hsf Hf. pose proof (self_free_ne _ Hsf) as Hne.
  induction Hf as [|p ps Hp Hps IH]; [apply replace_nil, Hne|].
  destruct ps as [|p' ps].
  - simpl. apply replace_absent; assumption.
  - rewrite !join_cons by discriminate.
    rewrite replace_skip_free by assumption. rewrite IH. reflexivity.
Qed.

Lemma join_attach (x sep : text) (parts : list text) :
  join (x ++ sep) parts = join sep (attach x parts).
Proof.
  induction parts as [|p ps IH]; [reflexivity|].
  destruct ps as [|p' ps]; [reflexivity|].
  rewrite join_cons by discriminate. cbn [attach].
  rewrite (join_cons sep (p ++ x)) by (destruct ps; simpl; discriminate).
  rewrite IH, <- !app_assoc. reflexivity.
Qed.

Lemma attach_free (old x : text) (parts : list text) :
  self_free old -> opens_like old x -> contains old x = false ->
  Forall (fun p => contains old p = false) parts ->
  Forall (fun p => contains old p = false) (attach x parts).
Proof.
  intros Hsf Hx Hcx Hf. induction Hf as [|p ps Hp Hps IH]; [constructor|].
  destruct ps as [|p' ps]; [constructor; [exact Hp | constructor]|].
  cbn [attach]. constructor; [|exact IH].
  apply contains_app_sep; assumption.
Qed.

Lemma copies_opens (n : nat) : opens_like anchor (copies n apiFetch_code).
Proof. destruct n; [exact I | reflexivity]. Qed.

Lemma copies_free (n : nat) : contains anchor (copies n apiFetch_code) = false.
Proof.
  induction n as [|n IH]; [reflexivity|]. cbn [copies].
  apply contains_app_sep;
    [exact anchor_self_free | apply copies_opens | vm_compute; reflexivity | exact IH].
Qed.

Lemma copies_snoc (n : nat) (t : text) : copies n t ++ t = t ++ copies n t.
Proof.
  induction n as [|n IH]; simpl; [symmetry; apply app_nil_r|].
  rewrite <- app_assoc, IH. reflexivity.
Qed.

Lemma inject_join (n : nat) (parts : list text) :
  Forall (fun p => contains anchor p = false) parts ->
  inject (join (copies n apiFetch_code ++ anchor) parts) =
  join (copies (S n) apiFetch_code ++ anchor) parts.
Proof.
  intros Hf. unfold inject. rewrite join_attach.
  rewrite replace_join.
  - rewrite <- join_attach. cbn [copies].
    rewrite app_assoc, copies_snoc. reflexivity.
  - exact anchor_self_free.
  - apply attach_free; auto using anchor_self_free, copies_opens, copies_free.
Qed.

(** X16. After n runs of the helper injection, every anchor line of the
    first content has n copies of the helper text before it: the content
    is its parts between the anchor lines, joined by n copies of the
    helper text and the anchor line.  The operation never sees that the
    helper is there already. *)
Theorem inject_n_times (c : text) (n : nat) :
  exists parts : list text,
    length parts = S (occurrences anchor c) /\
    Forall (fun p => contains anchor p = false) parts /\
    c = join anchor parts /\
    Nat.iter n inject c = join (copies n apiFetch_code ++ anchor) parts.
Proof.
  destruct (replace_parts anchor (apiFetch_code ++ anchor) c anchor_self_free)
    as (parts & Hl & Hf & Hj & _).
  exists parts. repeat split; auto.
  induction n as [|n IH]; [exact Hj|].
  rewrite Nat.iter_succ, IH. apply inject_join, Hf.
Qed.

End InjectAgain.

(** ** The whole run, and what the loop makes of the helper file *)

Section WholeRun.

(** X8. One run of the migration on a path creates no file and removes
    none, leaves every other file as it is, and only adds to what was
    written and printed before, whether it ends well or raises. *)
Theorem update_touches_only_its_file (fp : path) (w w' : world) (r : result bool) :
  update_file_with_apiFetch fp w = (r, w') ->
  dom (files w') = dom (files w) /\
  (forall p, p <> fp -> files w' !! p = files w !! p) /\
  exists evs, trace w' = trace w ++ evs.
Proof. apply update_frame. Qed.

Lemma update_touches_only_its_file_witness :
  dom (files (update_file_with_apiFetch a_ts sample_world).2) = dom (files sample_world) /\
  (forall p, p <> a_ts ->
     files (update_file_with_apiFetch a_ts sample_world).2 !! p = files sample_world !! p) /\
  exists evs,
    trace (update_file_with_apiFetch a_ts sample_world).2 = trace sample_world ++ evs.
Proof.
  apply (update_touches_only_its_file a_ts sample_world
           (update_file_with_apiFetch a_ts sample_world).2
           (update_file_with_apiFetch a_ts sample_world).1).
  vm_compute. reflexivity.
Defined.

(** X6. The entries that the loop hands to the migration are those of the
    scan that lie below src and whose name ends in .ts or .tsx, in the
    order of the scan.  The glob on the name adds nothing to the test of
    the suffix: a name that only has .ts somewhere inside, matched by the
    glob, is left out. *)
Theorem loop_handles_ts_and_tsx_below_src (tree : list path) :
  filter (fun p => has_ts_suffix p = true) (rglob (lit "src") ts_glob tree) =
  filter (fun p => handled p = true) tree.
Proof. apply loop_selection. Qed.

(** X1. The run on a tree that has src/lib/apiBase.ts, with content c,
    and in which every handled entry can be read, no entry coming twice
    in the scan: it ends well; src/lib/apiBase.ts gets the helper; every
    handled entry holds its migrated content and every other file is as
    before; the trace is the write and the line for the helper file, then
    a write and a line for each handled entry that changes, in the order
    of the scan, then the last line with the number of changed entries. *)
Theorem main_run (tree : list path) (w : world) (c : text) :
  files w !! apiBase_path = Some c ->
  NoDup tree ->
  (forall p, p ∈ tree -> handled p = true -> is_Some (files w !! p)) ->
  exists w',
    main tree w = (Ok tt, w') /\
    (forall p,
       files w' !! p =
       if bool_decide (p ∈ filter (fun p => handled p = true) tree)
       then migrated <$> <[apiBase_path := inject c]> (files w) !! p
       else <[apiBase_path := inject c]> (files w) !! p) /\
    trace w' =
      trace w ++
      [EvWrite apiBase_path (inject c); EvPrint (updated_msg apiBase_path)] ++
      loop_events (<[apiBase_path := inject c]> (files w))
        (filter (fun p => handled p = true) tree) ++
      [EvPrint (done_msg (loop_count (<[apiBase_path := inject c]> (files w))
                            (filter (fun p => handled p = true) tree)))].
Proof. apply main_spec. Qed.

Lemma main_run_witness :
  exists w',
    main sample_tree sample_world = (Ok tt, w') /\
    (forall p,
       files w' !! p =
       if bool_decide (p ∈ filter (fun p => handled p = true) sample_tree)
       then migrated <$> <[apiBase_path := inject apiBase_ts]> (files sample_world) !! p
       else <[apiBase_path := inject apiBase_ts]> (files sample_world) !! p) /\
    trace w' =
      trace sample_world ++
      [EvWrite apiBase_path (inject apiBase_ts); EvPrint (updated_msg apiBase_path)] ++
      loop_events (<[apiBase_path := inject apiBase_ts]> (files sample_world))
        (filter (fun p => handled p = true) sample_tree) ++
      [EvPrint (done_msg (loop_count (<[apiBase_path := inject apiBase_ts]>
                                        (files sample_world))
                            (filter (fun p => handled p = true) sample_tree)))].
Proof.
  apply (main_run sample_tree sample_world apiBase_ts).
  - reflexivity.
  - apply (bool_decide_unpack _). vm_compute. exact I.
  - apply (proj1 (list.Forall_forall
             (fun p => handled p = true -> is_Some (files sample_world !! p)) sample_tree)).
    repeat constructor; intros H;
      first [discriminate H | eexists; vm_compute; reflexivity].
Defined.

(** A character that [l] lacks separates what [l] can occur in. *)
Lemma contains_sep_inv (l u v : text) (d : char) :
  contains l (u ++ d :: v) = false -> contains l u = false /\ contains l v = false.
Proof.
  intros H. split; apply not_true_is_false; intros E;
    apply contains_inv in E as (x & y & ->).
  - rewrite <- !app_assoc, contains_app in H. discriminate.
  - change (d :: x ++ l ++ y) with ([d] ++ x ++ l ++ y) in H.
    rewrite !app_assoc, <- (app_assoc _ l y), contains_app in H. discriminate.
Qed.

Lemma contains_sep_false (l u v : text) (d : char) :
  mem d l = false -> contains l u = false -> contains l v = false ->
  contains l (u ++ d :: v) = false.
Proof.
  intros Hd Hu Hv. destruct l as [|a l]; [destruct u; discriminate|].
  induction u as [|x u IH].
  - simpl. simpl in Hd. apply orb_false_iff in Hd as [Hd _].
    rewrite N.eqb_sym, Hd. exact Hv.
  - change ((x :: u) ++ d :: v) with (x :: u ++ d :: v). cbn [contains].
    rewrite IH by (eapply contains_false_tail; exact Hu). rewrite orb_false_r.
    apply not_true_is_false. intros E.
    apply (startswith_sep (a :: l) (x :: u) d v Hd) in E.
    apply contains_false_startswith in Hu.
    exact (diff_true_false (eq_trans (eq_sym E) Hu)).
Qed.

(** Joining by a longer separator brings in no occurrence of [l], when
    the separators open with a line feed, [l] has none, and [l] is not in
    what is added. *)
Lemma join_sep_free (l hb a' : text) (ps : list text) :
  mem nl l = false -> contains l hb = false ->
  forall u : text,
    contains l (u ++ join (nl :: a') ps) = false ->
    contains l (u ++ join ((nl :: hb) ++ nl :: a') ps) = false.
Proof.
  intros Hl Hhb. induction ps as [|p ps IH]; intros u H; [exact H|].
  destruct ps as [|p' ps]; [exact H|].
  rewrite join_cons in H by discriminate. rewrite join_cons by discriminate.
  rewrite app_assoc in H. rewrite <- app_comm_cons in H.
  apply contains_sep_inv in H as [H1 H2].
  rewrite app_assoc. rewrite <- (app_assoc (nl :: hb)), <- app_comm_cons.
  rewrite <- (app_comm_cons a').
  apply contains_sep_false; [exact Hl | exact H1 |].
  apply contains_sep_false; [exact Hl | exact Hhb |].
  apply IH, H2.
Qed.

(** The helper text brings no legacy call with it. *)
Lemma inject_brings_no_call (l c : text) :
  mem nl l = false -> contains l apiFetch_code = false ->
  contains l c = false -> contains l (inject c) = false.
Proof.
  intros Hl Hh Hc.
  destruct (replace_parts anchor (apiFetch_code ++ anchor) c anchor_self_free)
    as (parts & _ & _ & Hj & Hr).
  fold (inject c) in Hr. rewrite Hr. rewrite Hj in Hc.
  assert (EA : anchor = nl :: tl anchor) by reflexivity.
  assert (EH : apiFetch_code = nl :: tl apiFetch_code) by reflexivity.
  rewrite EH in Hh. apply (contains_sep_inv l [] _ nl) in Hh as [_ Hh].
  revert Hc. rewrite EH, EA. generalize (tl apiFetch_code) (tl anchor) Hh.
  intros hb a' Hhb Hc. apply (join_sep_free l hb a' parts Hl Hhb []), Hc.
Qed.

(** A content without the second substring of the guard is what the
    migration leaves it. *)
Lemma migrated_without_call (c : text) :
  contains (lit "fetch(api") c = false -> migrated c = c.
Proof.
  intros Hc. unfold migrated. rewrite Hc.
  destruct (contains (lit "fetch(apiUrl(") c) eqn:E; [|reflexivity].
  change (lit "fetch(apiUrl(") with (lit "fetch(api" ++ lit "Url(") in E.
  apply contains_longer in E.
  exact (False_ind _ (diff_true_false (eq_trans (eq_sym E) Hc))).
Qed.

Lemma inject_without_call (c : text) :
  contains (lit "fetch(api") c = false -> contains (lit "fetch(api") (inject c) = false.
Proof.
  intros Hc. apply inject_brings_no_call; [reflexivity | vm_compute; reflexivity | exact Hc].
Qed.

(** The helper file after a run whose files are as [main_spec] says. *)
Lemma helper_after_run (tree : list path) (f f' : gmap (list N) (list N)) (c : text) :
  contains (lit "fetch(api") c = false ->
  (forall p,
     f' !! p =
     if bool_decide (p ∈ filter (fun p => handled p = true) tree)
     then migrated <$> <[apiBase_path := inject c]> f !! p
     else <[apiBase_path := inject c]> f !! p) ->
  f' !! apiBase_path = Some (inject c).
Proof.
  intros Hc Hfs. rewrite Hfs, lookup_insert_eq.
  destruct (bool_decide _); [|reflexivity]. simpl. f_equal.
  apply migrated_without_call, inject_without_call, Hc.
Qed.

(** X7. The loop comes to src/lib/apiBase.ts too, right after the helper
    was put in, and leaves it alone: if the content of the file had no
    fetch(api in it, the run ends with the file holding its content with
    the helper inserted, and nothing more. *)
Theorem main_keeps_injected_helper (tree : list path) (w : world) (c : text) :
  files w !! apiBase_path = Some c ->
  contains (lit "fetch(api") c = false ->
  NoDup tree ->
  (forall p, p ∈ tree -> handled p = true -> is_Some (files w !! p)) ->
  exists w',
    main tree w = (Ok tt, w') /\
    files w' !! apiBase_path = Some (inject c).
Proof.
  intros Hf Hc Hnd Hall.
  destruct (main_spec tree w c Hf Hnd Hall) as (w' & Hr & Hfs & _).
  exists w'. split; [exact Hr|]. exact (helper_after_run tree _ _ c Hc Hfs).
Qed.

Lemma main_keeps_injected_helper_witness :
  exists w',
    main sample_tree sample_world = (Ok tt, w') /\
    files w' !! apiBase_path = Some (inject apiBase_ts).
Proof.
  apply (main_keeps_injected_helper sample_tree sample_world apiBase_ts).
  - reflexivity.
  - reflexivity.
  - apply (bool_decide_unpack _). vm_compute. exact I.
  - apply (proj1 (list.Forall_forall
             (fun p => handled p = true -> is_Some (files sample_world !! p)) sample_tree)).
    repeat constructor; intros H;
      first [discriminate H | eexists; vm_compute; reflexivity].
Defined.



End WholeRun.

(** ** What a match looks like, and the texts that the substitutions leave alone *)

Section Inversion.

Lemma repeat_max_inv (a : cset) (k : cont) (s : text) pos mk r :
  repeat_max a k s pos mk = Some r ->
  exists u s', s = u ++ s' /\ forallb (accepts a) u = true /\
               k s' (pos + length u) mk = Some r.
Proof.
  revert pos. induction s as [|c s IH]; intros pos H; simpl in H.
  - exists [], []. rewrite Nat.add_0_r. auto.
  - destruct (accepts a c) eqn:Hc.
    + destruct (repeat_max a k s (S pos) mk) as [r'|] eqn:E.
      * inversion H; subst r'. destruct (IH _ E) as (u & s' & -> & Hu & Hk).
        exists (c :: u), s'. simpl. rewrite Hc, Hu.
        replace (pos + S (length u)) with (S pos + length u) by lia. auto.
      * exists [], (c :: s). rewrite Nat.add_0_r. auto.
    + exists [], (c :: s). rewrite Nat.add_0_r. auto.
Qed.

Lemma exec_lits_inv (adv : bool) (l : text) (p : pattern) (s : text) pos mk r :
  exec adv (lits l ++ p) s pos mk = Some r ->
  exists s', s = l ++ s' /\ exec adv p s' (pos + length l) mk = Some r.
Proof.
  rewrite exec_lits. destruct (startswith l s) eqn:E; [|discriminate].
  intros H. exists (drop (length l) s). split; [apply startswith_inv, E | exact H].
Qed.

Lemma exec_star_inv (adv : bool) (a : cset) (p : pattern) (s : text) pos mk r :
  exec adv (Star a :: p) s pos mk = Some r ->
  exists u s', s = u ++ s' /\ forallb (accepts a) u = true /\
               exec adv p s' (pos + length u) mk = Some r.
Proof. apply repeat_max_inv. Qed.

Lemma exec_ws_inv (adv : bool) (p : pattern) (s : text) pos mk r :
  exec adv (ws ++ p) s pos mk = Some r ->
  exists u s', s = u ++ s' /\ spaces u /\ exec adv p s' (pos + length u) mk = Some r.
Proof. apply (exec_star_inv adv CSpace). Qed.

Lemma exec_plus_inv (adv : bool) (a : cset) (p : pattern) (s : text) pos mk r :
  exec adv (Plus a :: p) s pos mk = Some r ->
  exists u s', s = u ++ s' /\ u <> [] /\ forallb (accepts a) u = true /\
               exec adv p s' (pos + length u) mk = Some r.
Proof.
  intros H. simpl in H. destruct s as [|c s]; [discriminate|].
  destruct (accepts a c) eqn:Hc; [|discriminate].
  apply repeat_max_inv in H as (u & s' & -> & Hu & Hk).
  exists (c :: u), s'. simpl. rewrite Hc, Hu.
  replace (pos + S (length u)) with (S pos + length u) by lia.
  repeat split; auto; discriminate.
Qed.

Lemma exec_one_inv (adv : bool) (a : cset) (p : pattern) (s : text) pos mk r :
  exec adv (One a :: p) s pos mk = Some r ->
  exists c s', s = c :: s' /\ accepts a c = true /\ exec adv p s' (S pos) mk = Some r.
Proof.
  intros H. simpl in H. destruct s as [|c s]; [discriminate|].
  destruct (accepts a c) eqn:Hc; [|discriminate]. eauto.
Qed.

End Inversion.

Section MatchShapes.

Ltac reassoc := repeat (rewrite <- app_assoc || rewrite <- app_comm_cons).

Lemma only_credentials_shape (s : text) pos mk r :
  exec false only_credentials s pos mk = Some r ->
  exists v2 v3 q1 q2 v4 rest,
    s = creds_object v2 v3 q1 q2 v4 ++ rest /\
    spaces v2 /\ spaces v3 /\ spaces v4 /\ is_quote q1 = true /\ is_quote q2 = true.
Proof.
  intros H. rewrite only_credentials_eq in H.
  apply exec_lits_inv in H as (s1 & -> & H).
  apply exec_ws_inv in H as (v2 & s2 & -> & H2 & H).
  apply exec_lits_inv in H as (s3 & -> & H).
  apply exec_ws_inv in H as (v3 & s4 & -> & H3 & H).
  apply exec_one_inv in H as (q1 & s5 & -> & Hq1 & H).
  apply exec_lits_inv in H as (s6 & -> & H).
  apply exec_one_inv in H as (q2 & s7 & -> & Hq2 & H).
  apply exec_ws_inv in H as (v4 & s8 & -> & H4 & H).
  apply exec_lits_inv in H as (s9 & -> & H).
  exists v2, v3, q1, q2, v4, s9. unfold creds_object. reassoc. auto 10.
Qed.

(** Every match of pattern 3 is a legacy call with only the credentials
    flag. *)
Lemma creds_shape (s : text) (e : nat) (mk : marks) :
  exec false creds_re s 0 [] = Some (e, mk) ->
  exists a v1 v2 v3 q1 q2 v4 rest,
    s = legacy_call a v1 v2 v3 q1 q2 v4 ++ rest /\
    e = length (legacy_call a v1 v2 v3 q1 q2 v4) /\
    expand creds_to s mk = lit "apiFetch(" ++ a ++ lit ")".
Proof.
  intros H. pose proof H as H0. rewrite creds_re_eq in H.
  apply exec_lits_inv in H as (s1 & -> & H). rewrite exec_mark in H.
  apply exec_plus_inv in H as (a & s2 & -> & Hne & Ha & H). rewrite exec_mark in H.
  apply exec_lits_inv in H as (s3 & -> & H).
  apply exec_ws_inv in H as (v1 & s4 & -> & H1 & H).
  apply only_credentials_shape in H as (v2 & v3 & q1 & q2 & v4 & rest & -> & H2 & H3 & H4 & Hq1 & Hq2).
  exists a, v1, v2, v3, q1, q2, v4, rest.
  assert (E : lit "fetch(apiUrl(" ++ a ++ lit ")," ++ v1 ++ creds_object v2 v3 q1 q2 v4 ++ rest =
              legacy_call a v1 v2 v3 q1 q2 v4 ++ rest)
    by (unfold legacy_call; reassoc; reflexivity).
  rewrite E in *.
  destruct (creds_match a v1 v2 v3 q1 q2 v4 rest) as (mk' & He & Hx); auto.
  rewrite He in H0. inversion H0; subst. auto.
Qed.

Lemma opts_shape (s : text) (e : nat) (mk : marks) :
  exec false opts_re s 0 [] = Some (e, mk) ->
  exists a v1 rest,
    s = (lit "fetch(apiUrl(" ++ a ++ lit ")," ++ v1 ++ lit "{") ++ rest /\
    e = length (lit "fetch(apiUrl(" ++ a ++ lit ")," ++ v1 ++ lit "{") /\
    expand opts_to s mk = lit "apiFetch(" ++ a ++ lit ", {".
Proof.
  intros H. pose proof H as H0. rewrite opts_re_eq in H.
  apply exec_lits_inv in H as (s1 & -> & H). rewrite exec_mark in H.
  apply exec_plus_inv in H as (a & s2 & -> & Hne & Ha & H). rewrite exec_mark in H.
  apply exec_lits_inv in H as (s3 & -> & H).
  apply exec_ws_inv in H as (v1 & s4 & -> & H1 & H).
  apply exec_lits_inv in H as (rest & -> & H).
  exists a, v1, rest.
  assert (E : lit "fetch(apiUrl(" ++ a ++ lit ")," ++ v1 ++ lit "{" ++ rest =
              (lit "fetch(apiUrl(" ++ a ++ lit ")," ++ v1 ++ lit "{") ++ rest)
    by (reassoc; reflexivity).
  destruct (opts_match a v1 rest) as (mk' & He & Hx); auto.
  rewrite He in H0. inversion H0; subst. rewrite <- E. auto.
Qed.

Lemma plain_shape (s : text) (e : nat) (mk : marks) :
  exec false plain_re s 0 [] = Some (e, mk) ->
  exists a rest,
    s = plain_call a ++ rest /\
    e = length (plain_call a) /\
    expand plain_to s mk = lit "apiFetch(" ++ a ++ lit ")".
Proof.
  intros H. pose proof H as H0. rewrite plain_re_eq in H.
  apply exec_lits_inv in H as (s1 & -> & H). rewrite exec_mark in H.
  apply exec_plus_inv in H as (a & s2 & -> & Hne & Ha & H). rewrite exec_mark in H.
  apply exec_lits_inv in H as (rest & -> & H).
  exists a, rest.
  assert (E : lit "fetch(apiUrl(" ++ a ++ lit "))" ++ rest = plain_call a ++ rest)
    by (unfold plain_call; reassoc; reflexivity).
  rewrite E in *.
  destruct (plain_match a rest) as (mk' & He & Hx); auto.
  rewrite He in H0. inversion H0; subst. auto.
Qed.

Lemma strip_shape (s : text) (e : nat) (mk : marks) :
  exec false strip_re s 0 [] = Some (e, mk) ->
  exists m v1 v2 v3 q1 q2 v4 rest,
    s = helper_creds_call m v1 v2 v3 q1 q2 v4 ++ rest /\
    e = length (helper_creds_call m v1 v2 v3 q1 q2 v4) /\
    expand strip_to s mk = lit "apiFetch(" ++ m ++ lit ")".
Proof.
  intros H. pose proof H as H0. rewrite strip_re_eq in H.
  apply exec_lits_inv in H as (s1 & -> & H). rewrite exec_mark in H.
  apply exec_plus_inv in H as (m & s2 & -> & Hne & Hm & H). rewrite exec_mark in H.
  apply exec_lits_inv in H as (s3 & -> & H).
  apply exec_ws_inv in H as (v1 & s4 & -> & H1 & H).
  apply only_credentials_shape in H as (v2 & v3 & q1 & q2 & v4 & rest & -> & H2 & H3 & H4 & Hq1 & Hq2).
  exists m, v1, v2, v3, q1, q2, v4, rest.
  assert (E : lit "apiFetch(" ++ m ++ lit "," ++ v1 ++ creds_object v2 v3 q1 q2 v4 ++ rest =
              helper_creds_call m v1 v2 v3 q1 q2 v4 ++ rest)
    by (unfold helper_creds_call; reassoc; reflexivity).
  rewrite E in *.
  destruct (strip_match m v1 v2 v3 q1 q2 v4 rest) as (mk' & He & Hx); auto.
  rewrite He in H0. inversion H0; subst. auto.
Qed.

(** The quoted module path. *)
Lemma from_apiBase_shape (s : text) pos mk r :
  exec false from_apiBase s pos mk = Some r ->
  exists q m q' rest,
    s = q :: m ++ q' :: rest /\
    is_quote q = true /\ no_quote m = true /\ is_quote q' = true /\
    contains (lit "apiBase") m = true.
Proof.
  intros H. rewrite from_apiBase_eq in H. rewrite exec_mark in H.
  apply exec_one_inv in H as (q & s1 & -> & Hq & H). rewrite !exec_mark in H.
  apply exec_star_inv in H as (m1 & s2 & -> & Hm1 & H).
  unfold path_tail in H.
  apply exec_lits_inv in H as (s3 & -> & H).
  apply exec_star_inv in H as (m2 & s4 & -> & Hm2 & H). rewrite !exec_mark in H.
  apply exec_one_inv in H as (q' & rest & -> & Hq' & H).
  exists q, (m1 ++ lit "apiBase" ++ m2), q', rest. repeat split; auto.
  - reassoc. reflexivity.
  - unfold no_quote. rewrite !forallb_app.
    apply andb_true_iff; split; [exact Hm1|].
    apply andb_true_iff; split; [reflexivity | exact Hm2].
  - apply contains_app.
Qed.

(** Every match of pattern 1 is an import of the one symbol. *)
Lemma import1_shape (s : text) (e : nat) (mk : marks) :
  exec false import1_re s 0 [] = Some (e, mk) ->
  exists w1 w2 w3 w4 w5 q m q' rest,
    spaces w1 /\ spaces w2 /\ spaces w3 /\ spaces w4 /\ spaces w5 /\
    is_quote q = true /\ no_quote m = true /\ is_quote q' = true /\
    contains (lit "apiBase") m = true /\
    s = import1_head w1 w2 w3 w4 w5 ++ q :: m ++ q' :: rest /\
    e = length (import1_head w1 w2 w3 w4 w5 ++ q :: m ++ [q']) /\
    expand import1_to s mk = new_import1 ++ q :: m ++ [q'].
Proof.
  intros H. pose proof H as H0. unfold import1_re, str in H. rewrite <- ?app_assoc in H.
  apply exec_lits_inv in H as (s1 & -> & H).
  apply exec_ws_inv in H as (w1 & s2 & -> & H1 & H).
  apply exec_lits_inv in H as (s3 & -> & H).
  apply exec_ws_inv in H as (w2 & s4 & -> & H2 & H).
  apply exec_lits_inv in H as (s5 & -> & H).
  apply exec_ws_inv in H as (w3 & s6 & -> & H3 & H).
  apply exec_lits_inv in H as (s7 & -> & H).
  apply exec_ws_inv in H as (w4 & s8 & -> & H4 & H).
  apply exec_lits_inv in H as (s9 & -> & H).
  apply exec_ws_inv in H as (w5 & s10 & -> & H5 & H).
  apply from_apiBase_shape in H as (q & m & q' & rest & -> & Hq & Hm & Hq' & Hc).
  exists w1, w2, w3, w4, w5, q, m, q', rest.
  assert (E : lit "import" ++ w1 ++ lit "{" ++ w2 ++ lit "apiUrl" ++ w3 ++ lit "}" ++ w4 ++
              lit "from" ++ w5 ++ q :: m ++ q' :: rest =
              import1_head w1 w2 w3 w4 w5 ++ q :: m ++ q' :: rest)
    by (unfold import1_head; reassoc; reflexivity).
  rewrite E in *.
  destruct (import1_match w1 w2 w3 w4 w5 q m q' rest) as (mk' & He & Hx); auto.
  pose proof (eq_trans (eq_sym H0) He) as Heq. inversion Heq; subst. auto 15.
Qed.

Lemma import2_shape (s : text) (e : nat) (mk : marks) :
  exec false import2_re s 0 [] = Some (e, mk) ->
  exists w1 w2 w3 w4 w5 w6 q m q' rest,
    spaces w1 /\ spaces w2 /\ spaces w3 /\ spaces w4 /\ spaces w5 /\ spaces w6 /\
    is_quote q = true /\ no_quote m = true /\ is_quote q' = true /\
    contains (lit "apiBase") m = true /\
    s = import2_head w1 w2 w3 w4 w5 w6 ++ q :: m ++ q' :: rest /\
    e = length (import2_head w1 w2 w3 w4 w5 w6 ++ q :: m ++ [q']) /\
    expand import2_to s mk = new_import2 ++ q :: m ++ [q'].
Proof.
  intros H. pose proof H as H0. unfold import2_re, str in H. rewrite <- ?app_assoc in H.
  apply exec_lits_inv in H as (s1 & -> & H).
  apply exec_ws_inv in H as (w1 & s2 & -> & H1 & H).
  apply exec_lits_inv in H as (s3 & -> & H).
  apply exec_ws_inv in H as (w2 & s4 & -> & H2 & H).
  apply exec_lits_inv in H as (s5 & -> & H).
  apply exec_ws_inv in H as (w3 & s6 & -> & H3 & H).
  apply exec_lits_inv in H as (s7 & -> & H).
  apply exec_ws_inv in H as (w4 & s8 & -> & H4 & H).
  apply exec_lits_inv in H as (s9 & -> & H).
  apply exec_ws_inv in H as (w5 & s10 & -> & H5 & H).
  apply exec_lits_inv in H as (s11 & -> & H).
  apply exec_ws_inv in H as (w6 & s12 & -> & H6 & H).
  apply from_apiBase_shape in H as (q & m & q' & rest & -> & Hq & Hm & Hq' & Hc).
  exists w1, w2, w3, w4, w5, w6, q, m, q', rest.
  assert (E : lit "import" ++ w1 ++ lit "{" ++ w2 ++ lit "API_BASE," ++ w3 ++ lit "apiUrl" ++ w4 ++
              lit "}" ++ w5 ++ lit "from" ++ w6 ++ q :: m ++ q' :: rest =
              import2_head w1 w2 w3 w4 w5 w6 ++ q :: m ++ q' :: rest)
    by (unfold import2_head; reassoc; reflexivity).
  rewrite E in *.
  destruct (import2_match w1 w2 w3 w4 w5 w6 q m q' rest) as (mk' & He & Hx); auto.
  pose proof (eq_trans (eq_sym H0) He) as Heq. inversion Heq; subst. auto 15.
Qed.

End MatchShapes.

Section Counting.

Lemma count_app (c : char) (u v : text) : count c (u ++ v) = count c u + count c v.
Proof. induction u as [|d u IH]; simpl; [reflexivity|]. rewrite IH. lia. Qed.

Lemma count_spaces (c : char) (u : text) :
  spaces u -> is_space c = false -> count c u = 0.
Proof.
  unfold spaces. intros Hu Hc. induction u as [|d u IH]; [reflexivity|].
  simpl in Hu. apply andb_true_iff in Hu as [Hd Hu]. simpl. rewrite (IH Hu).
  destruct (N.eqb d c) eqn:E; [|reflexivity].
  apply N.eqb_eq in E. subst d. rewrite Hd in Hc. discriminate.
Qed.

Lemma search_here (p : pattern) (s : text) r :
  exec false p s 0 [] = Some r -> search p s = true.
Proof. intros H. destruct s; simpl; rewrite H; reflexivity. Qed.

Lemma search_next (p : pattern) (c : char) (s : text) :
  exec false p (c :: s) 0 [] = None -> search p (c :: s) = search p s.
Proof. intros H. simpl. rewrite H. reflexivity. Qed.

Lemma search_drop (p : pattern) (s : text) (i : nat) :
  search p (drop i s) = true -> search p s = true.
Proof.
  revert i. induction s as [|c s IH]; intros i H.
  - rewrite drop_nil in H. exact H.
  - destruct i as [|i]; [exact H|]. simpl in H. apply IH in H.
    simpl. rewrite H. destruct (exec false p (c :: s) 0 []); reflexivity.
Qed.

(** Where a pattern matches nowhere, [re.sub] gives the text back. *)
Lemma sub_no_match (p : pattern) (t : template) (s : text) :
  search p s = false -> sub p t s = s.
Proof.
  induction s as [|c s IH]; intros H.
  - apply sub_end. simpl in H. destruct (exec false p [] 0 []); [discriminate|reflexivity].
  - simpl in H. destruct (exec false p (c :: s) 0 []) eqn:E; [discriminate|].
    rewrite sub_next by exact E. f_equal. apply IH, H.
Qed.

Lemma sub_empty (p : pattern) (t : template) :
  (forall s e mk, exec false p s 0 [] = Some (e, mk) -> 0 < e) ->
  sub p t [] = [].
Proof.
  intros Hp. apply sub_end. destruct (exec false p [] 0 []) as [[e mk]|] eqn:E; [|reflexivity].
  pose proof (Hp _ _ _ E). apply exec_bounded in E. simpl in E. lia.
Qed.

(** A replacement that never adds a character [c] and takes [d] of them
    away: the result has no more of them, and [d] fewer where there is
    a match. *)
Lemma sub_shrinks (p : pattern) (t : template) (c : char) (d : nat) :
  shrinks p t c d ->
  forall s, count c (sub p t s) + (if search p s then d else 0) <= count c s.
Proof.
  intros Hp s. remember (length s) as n eqn:Hn. revert s Hn.
  induction n as [n IH] using lt_wf_ind. intros s Hn.
  destruct s as [|x s].
  - rewrite sub_empty by (intros s e mk H; apply (Hp s e mk H)).
    simpl. destruct (exec false p [] 0 []) as [[e mk]|] eqn:E; [|lia].
    pose proof (proj1 (Hp _ _ _ E)). apply exec_bounded in E. simpl in E. lia.
  - destruct (exec false p (x :: s) 0 []) as [[e mk]|] eqn:E.
    + destruct (Hp _ _ _ E) as [He Hc].
      rewrite (sub_match _ _ _ _ _ E) by lia.
      rewrite (search_here _ _ _ E), count_app.
      pose proof (exec_bounded _ _ _ _ _ _ _ E) as [_ Hb]. simpl in Hb.
      assert (Hl : length (drop e (x :: s)) < n)
        by (rewrite length_drop; subst n; simpl; lia).
      pose proof (IH _ Hl (drop e (x :: s)) eq_refl) as Hr.
      rewrite <- (take_drop e (x :: s)) at 3. rewrite count_app.
      destruct (search p (drop e (x :: s))); lia.
    + rewrite sub_next, search_next by exact E.
      assert (Hl : length s < n) by (subst n; simpl; lia).
      pose proof (IH _ Hl s eq_refl) as Hr. simpl. lia.
Qed.

Lemma sub_grows (p : pattern) (t : template) (c : char) (d : nat) :
  grows p t c d ->
  forall s, count c s + (if search p s then d else 0) <= count c (sub p t s).
Proof.
  intros Hp s. remember (length s) as n eqn:Hn. revert s Hn.
  induction n as [n IH] using lt_wf_ind. intros s Hn.
  destruct s as [|x s].
  - rewrite sub_empty by (intros s e mk H; apply (Hp s e mk H)).
    simpl. destruct (exec false p [] 0 []) as [[e mk]|] eqn:E; [|lia].
    pose proof (proj1 (Hp _ _ _ E)). apply exec_bounded in E. simpl in E. lia.
  - destruct (exec false p (x :: s) 0 []) as [[e mk]|] eqn:E.
    + destruct (Hp _ _ _ E) as [He Hc].
      rewrite (sub_match _ _ _ _ _ E) by lia.
      rewrite (search_here _ _ _ E), count_app.
      pose proof (exec_bounded _ _ _ _ _ _ _ E) as [_ Hb]. simpl in Hb.
      assert (Hl : length (drop e (x :: s)) < n)
        by (rewrite length_drop; subst n; simpl; lia).
      pose proof (IH _ Hl (drop e (x :: s)) eq_refl) as Hr.
      rewrite <- (take_drop e (x :: s)) at 1. rewrite count_app.
      destruct (search p (drop e (x :: s))); lia.
    + rewrite sub_next, search_next by exact E.
      assert (Hl : length s < n) by (subst n; simpl; lia).
      pose proof (IH _ Hl s eq_refl) as Hr. simpl. lia.
Qed.

End Counting.

Section FixedPoint.

Ltac count_lits :=
  repeat match goal with
  | |- context [count ?c (lit ?s)] =>
      let v := eval vm_compute in (count c (lit s)) in
      change (count c (lit s)) with v
  end.

Lemma creds_shrinks_paren : shrinks creds_re creds_to lparen 1.
Proof.
  intros s e mk H.
  apply creds_shape in H as (a & v1 & v2 & v3 & q1 & q2 & v4 & rest & -> & -> & Hx).
  rewrite Hx, take_app_length. unfold legacy_call. split.
  - rewrite length_app. simpl. lia.
  - rewrite !count_app. count_lits. lia.
Qed.

Lemma opts_shrinks_paren : shrinks opts_re opts_to lparen 1.
Proof.
  intros s e mk H. apply opts_shape in H as (a & v1 & rest & -> & -> & Hx).
  rewrite Hx, take_app_length. split.
  - rewrite length_app. simpl. lia.
  - rewrite !count_app. count_lits. lia.
Qed.

Lemma plain_shrinks_paren : shrinks plain_re plain_to lparen 1.
Proof.
  intros s e mk H. apply plain_shape in H as (a & rest & -> & -> & Hx).
  rewrite Hx, take_app_length. unfold plain_call. split.
  - rewrite length_app. simpl. lia.
  - rewrite !count_app. count_lits. lia.
Qed.

Lemma strip_shrinks_paren : shrinks strip_re strip_to lparen 0.
Proof.
  intros s e mk H.
  apply strip_shape in H as (m & v1 & v2 & v3 & q1 & q2 & v4 & rest & -> & -> & Hx).
  rewrite Hx, take_app_length. unfold helper_creds_call. split.
  - rewrite length_app. simpl. lia.
  - rewrite !count_app. count_lits. lia.
Qed.

Lemma strip_shrinks_brace : shrinks strip_re strip_to lbrace 1.
Proof.
  intros s e mk H.
  apply strip_shape in H as (m & v1 & v2 & v3 & q1 & q2 & v4 & rest & -> & -> & Hx).
  rewrite Hx, take_app_length. unfold helper_creds_call, creds_object. split.
  - rewrite length_app. simpl. lia.
  - rewrite !count_app. count_lits. lia.
Qed.

Lemma import1_counts (c : char) (s : text) (e : nat) (mk : marks) :
  exec false import1_re s 0 [] = Some (e, mk) ->
  exists w1 w2 w3 w4 w5 x,
    spaces w1 /\ spaces w2 /\ spaces w3 /\ spaces w4 /\ spaces w5 /\ 0 < e /\
    count c (take e s) = count c (import1_head w1 w2 w3 w4 w5) + x /\
    count c (expand import1_to s mk) = count c new_import1 + x.
Proof.
  intros H.
  apply import1_shape in H
    as (w1 & w2 & w3 & w4 & w5 & q & m & q' & rest & H1 & H2 & H3 & H4 & H5 &
        _ & _ & _ & _ & -> & -> & Hx).
  exists w1, w2, w3, w4, w5, (count c (q :: m ++ [q'])).
  rewrite Hx, <- (app_quoted (import1_head w1 w2 w3 w4 w5) q m q' rest).
  rewrite take_app_length, !count_app.
  repeat split; auto. rewrite length_app. unfold import1_head. rewrite length_app. simpl. lia.
Qed.

Lemma import2_counts (c : char) (s : text) (e : nat) (mk : marks) :
  exec false import2_re s 0 [] = Some (e, mk) ->
  exists w1 w2 w3 w4 w5 w6 x,
    spaces w1 /\ spaces w2 /\ spaces w3 /\ spaces w4 /\ spaces w5 /\ spaces w6 /\ 0 < e /\
    count c (take e s) = count c (import2_head w1 w2 w3 w4 w5 w6) + x /\
    count c (expand import2_to s mk) = count c new_import2 + x.
Proof.
  intros H.
  apply import2_shape in H
    as (w1 & w2 & w3 & w4 & w5 & w6 & q & m & q' & rest & H1 & H2 & H3 & H4 & H5 & H6 &
        _ & _ & _ & _ & -> & -> & Hx).
  exists w1, w2, w3, w4, w5, w6, (count c (q :: m ++ [q'])).
  rewrite Hx, <- (app_quoted (import2_head w1 w2 w3 w4 w5 w6) q m q' rest).
  rewrite take_app_length, !count_app.
  repeat split; auto. rewrite length_app. unfold import2_head. rewrite length_app. simpl. lia.
Qed.

Lemma import1_shrinks (c : char) :
  c = lparen \/ c = lbrace -> shrinks import1_re import1_to c 0.
Proof.
  intros Hc s e mk H.
  destruct (import1_counts c _ _ _ H)
    as (w1 & w2 & w3 & w4 & w5 & x & _ & _ & _ & _ & _ & He & Hm & Hx).
  split; [exact He|]. rewrite Hm, Hx. unfold import1_head, new_import1.
  rewrite !count_app. destruct Hc as [->| ->]; count_lits; lia.
Qed.

Lemma import2_shrinks (c : char) :
  c = lparen \/ c = lbrace -> shrinks import2_re import2_to c 0.
Proof.
  intros Hc s e mk H.
  destruct (import2_counts c _ _ _ H)
    as (w1 & w2 & w3 & w4 & w5 & w6 & x & _ & _ & _ & _ & _ & _ & He & Hm & Hx).
  split; [exact He|]. rewrite Hm, Hx. unfold import2_head, new_import2.
  rewrite !count_app. destruct Hc as [->| ->]; count_lits; lia.
Qed.

Lemma import1_grows_comma : grows import1_re import1_to comma 1.
Proof.
  intros s e mk H.
  destruct (import1_counts comma _ _ _ H)
    as (w1 & w2 & w3 & w4 & w5 & x & H1 & H2 & H3 & H4 & H5 & He & Hm & Hx).
  split; [exact He|]. rewrite Hm, Hx. unfold import1_head, new_import1.
  rewrite !count_app. count_lits.
  rewrite !(count_spaces comma) by (assumption || reflexivity). lia.
Qed.

Lemma import2_grows_comma : grows import2_re import2_to comma 1.
Proof.
  intros s e mk H.
  destruct (import2_counts comma _ _ _ H)
    as (w1 & w2 & w3 & w4 & w5 & w6 & x & H1 & H2 & H3 & H4 & H5 & H6 & He & Hm & Hx).
  split; [exact He|]. rewrite Hm, Hx. unfold import2_head, new_import2.
  rewrite !count_app. count_lits.
  rewrite !(count_spaces comma) by (assumption || reflexivity). lia.
Qed.

Lemma settled_spec (c : text) :
  settled c = true <->
  search import1_re c = false /\ search import2_re c = false /\
  search creds_re c = false /\ search opts_re c = false /\
  search plain_re c = false /\ search strip_re c = false.
Proof.
  unfold settled, patterns. cbn [forallb]. rewrite !andb_true_iff, !negb_true_iff.
  tauto.
Qed.

(** A text in which no pattern matches goes through the six
    substitutions as it is. *)
Lemma settled_fixed (c : text) : settled c = true -> substitutions c = c.
Proof.
  intros H. apply settled_spec in H as (H1 & H2 & H3 & H4 & H5 & H6).
  unfold substitutions.
  rewrite (step1_eq c), (sub_no_match _ _ _ H1).
  rewrite (step2_eq c), (sub_no_match _ _ _ H2).
  rewrite (step3_eq c), (sub_no_match _ _ _ H3).
  rewrite (step4_eq c), (sub_no_match _ _ _ H4).
  rewrite (step5_eq c), (sub_no_match _ _ _ H5).
  rewrite (step6_eq c), (sub_no_match _ _ _ H6).
  reflexivity.
Qed.

(** And only such a text does: every replacement of patterns 3 to 5
    takes an opening parenthesis away and none adds one; with these out
    of the way, pattern 6 takes an opening brace away and the import
    patterns add none; and the import patterns add a comma. *)
Lemma fixed_settled (c : text) : substitutions c = c -> settled c = true.
Proof.
  unfold substitutions. intros H.
  set (s1 := step1 c) in *. set (s2 := step2 s1) in *.
  set (s3 := step3 s2) in *. set (s4 := step4 s3) in *. set (s5 := step5 s4) in *.
  pose proof (sub_shrinks _ _ _ _ (import1_shrinks lparen (or_introl eq_refl)) c) as P1.
  pose proof (sub_shrinks _ _ _ _ (import2_shrinks lparen (or_introl eq_refl)) s1) as P2.
  pose proof (sub_shrinks _ _ _ _ creds_shrinks_paren s2) as P3.
  pose proof (sub_shrinks _ _ _ _ opts_shrinks_paren s3) as P4.
  pose proof (sub_shrinks _ _ _ _ plain_shrinks_paren s4) as P5.
  pose proof (sub_shrinks _ _ _ _ strip_shrinks_paren s5) as P6.
  rewrite <- step1_eq in P1. rewrite <- step2_eq in P2. rewrite <- step3_eq in P3.
  rewrite <- step4_eq in P4. rewrite <- step5_eq in P5. rewrite <- step6_eq in P6.
  fold s1 in P1. fold s2 in P2. fold s3 in P3. fold s4 in P4. fold s5 in P5.
  rewrite H in P6.
  assert (M3 : search creds_re s2 = false)
    by (destruct (search creds_re s2); [|reflexivity];
        destruct (search import1_re c), (search import2_re s1), (search opts_re s3),
                 (search plain_re s4), (search strip_re s5); lia).
  assert (E3 : s3 = s2) by (unfold s3; rewrite step3_eq; apply sub_no_match, M3).
  assert (M4 : search opts_re s3 = false)
    by (destruct (search opts_re s3); [|reflexivity];
        destruct (search import1_re c), (search import2_re s1), (search creds_re s2),
                 (search plain_re s4), (search strip_re s5); lia).
  assert (E4 : s4 = s3) by (unfold s4; rewrite step4_eq; apply sub_no_match, M4).
  assert (M5 : search plain_re s4 = false)
    by (destruct (search plain_re s4); [|reflexivity];
        destruct (search import1_re c), (search import2_re s1), (search creds_re s2),
                 (search opts_re s3), (search strip_re s5); lia).
  assert (E5 : s5 = s4) by (unfold s5; rewrite step5_eq; apply sub_no_match, M5).
  clear P1 P2 P3 P4 P5 P6.
  pose proof (sub_shrinks _ _ _ _ (import1_shrinks lbrace (or_intror eq_refl)) c) as B1.
  pose proof (sub_shrinks _ _ _ _ (import2_shrinks lbrace (or_intror eq_refl)) s1) as B2.
  pose proof (sub_shrinks _ _ _ _ strip_shrinks_brace s5) as B6.
  rewrite <- step1_eq in B1. rewrite <- step2_eq in B2. rewrite <- step6_eq in B6.
  fold s1 in B1. fold s2 in B2. rewrite H in B6.
  assert (E52 : s5 = s2) by congruence. rewrite E52 in B6, H.
  assert (M6 : search strip_re s2 = false)
    by (destruct (search strip_re s2); [|reflexivity];
        destruct (search import1_re c), (search import2_re s1); lia).
  assert (E6 : s2 = c) by (rewrite <- H, step6_eq; symmetry; apply sub_no_match, M6).
  clear B1 B2 B6.
  pose proof (sub_grows _ _ _ _ import1_grows_comma c) as C1.
  pose proof (sub_grows _ _ _ _ import2_grows_comma s1) as C2.
  rewrite <- step1_eq in C1. rewrite <- step2_eq in C2. fold s1 in C1. fold s2 in C2.
  rewrite E6 in C2.
  assert (M1 : search import1_re c = false)
    by (destruct (search import1_re c); [|reflexivity];
        destruct (search import2_re s1); lia).
  assert (E1 : s1 = c) by (unfold s1; rewrite step1_eq; apply sub_no_match, M1).
  assert (M2 : search import2_re s1 = false)
    by (destruct (search import2_re s1); [|reflexivity];
        destruct (search import1_re c); lia).
  apply settled_spec.
  rewrite E4, E3 in M5. rewrite E3 in M4. rewrite E6 in M3, M4, M5, M6. rewrite E1 in M2.
  auto 10.
Qed.


(** C1, as the code has it.  A second run, on the output c1 of a first
    run, writes nothing and gives false exactly when c1 has no fetch(api
    in it or none of the six patterns matches anywhere in c1; so it does
    after a first run that gave false.  When c1 has fetch(api in it and
    some pattern matches in it, the second run gives true and writes the
    content once more substituted, which differs from c1. *)
Theorem second_run_changes_nothing_iff
    (fp : path) (w w1 : world) (c c1 : text) (b : bool) :
  files w !! fp = Some c ->
  update_file_with_apiFetch fp w = (Ok b, w1) ->
  files w1 !! fp = Some c1 ->
  (contains (lit "fetch(api") c1 = false \/ settled c1 = true <->
   update_file_with_apiFetch fp w1 = (Ok false, w1)) /\
  (contains (lit "fetch(api") c1 = true -> settled c1 = false ->
   exists w2,
     update_file_with_apiFetch fp w1 = (Ok true, w2) /\
     files w2 !! fp = Some (substitutions c1) /\
     substitutions c1 <> c1) /\
  (b = false -> update_file_with_apiFetch fp w1 = (Ok false, w1)).
Proof.
  intros Hf Hrun Hf1.
  assert (Hg : forall x, contains (lit "fetch(api") x = false ->
                 negb (contains (lit "fetch(apiUrl(") x) &&
                 negb (contains (lit "fetch(api") x) = true).
  { intros x Hx. rewrite Hx.
    destruct (contains (lit "fetch(apiUrl(") x) eqn:E; [|reflexivity].
    change (lit "fetch(apiUrl(") with (lit "fetch(api" ++ lit "Url(") in E.
    apply contains_longer in E.
    exact (False_ind _ (diff_true_false (eq_trans (eq_sym E) Hx))). }
  rewrite (update_run _ _ _ Hf1).
  split; [|split].
  - split.
    + intros [Hc|Hs].
      * rewrite (Hg _ Hc). reflexivity.
      * apply settled_fixed in Hs. rewrite Hs. unfold text_eqb.
        rewrite bool_decide_eq_true_2 by reflexivity.
        destruct (negb _ && negb _); reflexivity.
    + destruct (contains (lit "fetch(api") c1) eqn:Hc; [|left; reflexivity].
      rewrite andb_false_r. unfold text_eqb.
      destruct (bool_decide_reflect (substitutions c1 = c1)) as [E|E]; cbn [negb].
      * intros _. right. apply fixed_settled, E.
      * intros H. apply pair_equal_spec in H as [H _]. discriminate H.
  - intros Hc Hs. rewrite Hc, andb_false_r.
    assert (Hne : substitutions c1 <> c1).
    { intros E. apply fixed_settled in E.
      exact (diff_true_false (eq_trans (eq_sym E) Hs)). }
    unfold text_eqb. rewrite bool_decide_eq_false_2 by exact Hne. cbn [negb].
    eexists. split; [reflexivity|]. split; [apply lookup_insert_eq | exact Hne].
  - intros ->. rewrite (update_run _ _ _ Hf) in Hrun.
    destruct (negb (contains (lit "fetch(apiUrl(") c) &&
              negb (contains (lit "fetch(api") c)) eqn:G.
    + apply pair_equal_spec in Hrun as [_ <-].
      assert (c1 = c) as -> by (unfold path, text in *; congruence).
      rewrite G. reflexivity.
    + destruct (negb (text_eqb (substitutions c) c)) eqn:E.
      * apply pair_equal_spec in Hrun as [Hrun _]. discriminate Hrun.
      * apply pair_equal_spec in Hrun as [_ <-].
        assert (c1 = c) as -> by (unfold path, text in *; congruence).
        rewrite G, E. reflexivity.
Qed.

Lemma second_run_iff_witness :
  exists w1,
    update_file_with_apiFetch a_ts (one_file a_ts routes_then_call) = (Ok true, w1) /\
    files w1 !! a_ts = Some routes_then_helper /\
    contains (lit "fetch(api") routes_then_helper = true /\
    update_file_with_apiFetch a_ts w1 = (Ok false, w1).
Proof.
  eexists. split; [vm_compute; reflexivity|]. split; [reflexivity|].
  split; [reflexivity|].
  apply (proj1 (proj1 (second_run_changes_nothing_iff
                         a_ts (one_file a_ts routes_then_call) _
                         routes_then_call routes_then_helper true
                         eq_refl ltac:(vm_compute; reflexivity) eq_refl))).
  right. vm_compute. reflexivity.
Defined.

End FixedPoint.

(** ** Import statements anywhere in a file *)

Section BeforeImport.

Lemma mem_spaces (c : char) (u : text) :
  spaces u -> is_space c = false -> mem c u = false.
Proof.
  unfold spaces. intros Hu Hc. induction u as [|d u IH]; [reflexivity|].
  simpl in Hu. apply andb_true_iff in Hu as [Hd Hu]. simpl. rewrite (IH Hu), orb_false_r.
  apply N.eqb_neq. intros ->. rewrite Hd in Hc. discriminate.
Qed.


(** An occurrence of [l] that begins in [d] lies in [d] or runs over its
    end. *)
Lemma startswith_app_cases (l d x : text) :
  startswith l (d ++ x) = true ->
  startswith l d = true \/
  (length d < length l /\ startswith (drop (length d) l) x = true).
Proof.
  revert d. induction l as [|a l IH]; intros d H; [left; reflexivity|].
  destruct d as [|b d].
  - right. simpl. split; [lia | exact H].
  - simpl in H. apply andb_true_iff in H as [Hab H].
    destruct (IH d H) as [Hd|[Hl Hd]].
    + left. simpl. rewrite Hab, Hd. reflexivity.
    + right. simpl. split; [lia | exact Hd].
Qed.











(** A run on a file that the guard lets through and that the
    substitutions change. *)
Lemma update_changes (fp : path) (w : world) (c c' : text) :
  files w !! fp = Some c ->
  contains (lit "fetch(api") c = true ->
  substitutions c = c' -> c' <> c ->
  exists w',
    update_file_with_apiFetch fp w = (Ok true, w') /\
    files w' !! fp = Some c' /\
    trace w' = trace w ++ [EvWrite fp c'; EvPrint (updated_msg fp)].
Proof.
  intros Hf Hc Hs Hne. rewrite (update_run _ _ _ Hf), Hs, Hc.
  cbn [negb]. rewrite andb_false_r.
  unfold text_eqb. rewrite bool_decide_eq_false_2 by exact Hne.
  cbn [negb]. eexists. split; [reflexivity|]. simpl.
  split; [apply lookup_insert_eq | reflexivity].
Qed.




End BeforeImport.

(** ** The credentials flag alone (pattern 6), anywhere in a file *)

Section StripAnywhere.

Ltac reassoc := repeat (rewrite <- app_assoc || rewrite <- app_comm_cons).

(** Every match of pattern 6, with what its parts are. *)
Lemma strip_match_inv (s : text) (e : nat) (mk : marks) :
  exec false strip_re s 0 [] = Some (e, mk) ->
  exists m v1 v2 v3 q1 q2 v4 rest,
    m <> [] /\ avoids "," m = true /\
    spaces v1 /\ spaces v2 /\ spaces v3 /\ spaces v4 /\
    is_quote q1 = true /\ is_quote q2 = true /\
    s = helper_creds_call m v1 v2 v3 q1 q2 v4 ++ rest /\
    e = length (helper_creds_call m v1 v2 v3 q1 q2 v4) /\
    expand strip_to s mk = lit "apiFetch(" ++ m ++ lit ")".
Proof.
  intros H. pose proof H as H0. rewrite strip_re_eq in H.
  apply exec_lits_inv in H as (s1 & -> & H). rewrite exec_mark in H.
  apply exec_plus_inv in H as (m & s2 & -> & Hne & Hm & H). rewrite exec_mark in H.
  apply exec_lits_inv in H as (s3 & -> & H).
  apply exec_ws_inv in H as (v1 & s4 & -> & H1 & H).
  apply only_credentials_shape in H
    as (v2 & v3 & q1 & q2 & v4 & rest & -> & H2 & H3 & H4 & Hq1 & Hq2).
  exists m, v1, v2, v3, q1, q2, v4, rest.
  assert (E : lit "apiFetch(" ++ m ++ lit "," ++ v1 ++ creds_object v2 v3 q1 q2 v4 ++ rest =
              helper_creds_call m v1 v2 v3 q1 q2 v4 ++ rest)
    by (unfold helper_creds_call; reassoc; reflexivity).
  rewrite E in *.
  destruct (strip_match m v1 v2 v3 q1 q2 v4 rest) as (mk' & He & Hx); auto.
  pose proof (eq_trans (eq_sym H0) He) as Heq. inversion Heq; subst. auto 15.
Qed.

(** A text is cut at its first [c] in one way only. *)
Lemma first_split (c : char) (u u' x x' : text) :
  mem c u = false -> mem c u' = false ->
  u ++ c :: x = u' ++ c :: x' -> u = u' /\ x = x'.
Proof.
  revert u'. induction u as [|a u IH]; intros [|a' u'] Hu Hu' E; simpl in *.
  - injection E as <-. auto.
  - injection E as <- _. rewrite N.eqb_refl in Hu'. discriminate.
  - injection E as -> _. rewrite N.eqb_refl in Hu. discriminate.
  - injection E as <- E. apply orb_false_iff in Hu as [_ Hu], Hu' as [_ Hu'].
    destruct (IH u' Hu Hu' E) as [-> ->]. auto.
Qed.

Lemma mem_split_first (c : char) (u : text) :
  mem c u = true -> exists u0 u1, u = u0 ++ c :: u1 /\ mem c u0 = false.
Proof.
  induction u as [|a u IH]; [discriminate|]. simpl. intros H.
  destruct (N.eqb c a) eqn:E.
  - apply N.eqb_eq in E. subst a. exists [], u. auto.
  - destruct (IH H) as (u0 & u1 & -> & H0). exists (a :: u0), u1. simpl.
    rewrite E, H0. auto.
Qed.

Lemma mem_quote (c q : char) :
  is_quote q = true -> is_quote c = false -> N.eqb c q = false.
Proof.
  intros Hq Hc. apply N.eqb_neq. intros ->. rewrite Hq in Hc. discriminate.
Qed.

(** The options object with only the credentials flag has no p in it. *)
Lemma creds_object_no_p (v1 v2 v3 : text) (q1 q2 : char) (v4 : text) :
  spaces v1 -> spaces v2 -> spaces v3 -> spaces v4 ->
  is_quote q1 = true -> is_quote q2 = true ->
  mem 112%N (v1 ++ creds_object v2 v3 q1 q2 v4) = false.
Proof.
  intros H1 H2 H3 H4 Hq1 Hq2. unfold creds_object.
  repeat first [rewrite mem_app | progress cbn [mem]].
  rewrite (mem_spaces _ v1), (mem_spaces _ v2), (mem_spaces _ v3), (mem_spaces _ v4)
    by (assumption || reflexivity).
  rewrite (mem_quote _ q1), (mem_quote _ q2) by (assumption || reflexivity).
  reflexivity.
Qed.

Lemma creds_object_end (v1 v2 v3 : text) (q1 q2 : char) (v4 : text) :
  exists X, v1 ++ creds_object v2 v3 q1 q2 v4 = X ++ [41%N].
Proof.
  exists (v1 ++ lit "{" ++ v2 ++ lit "credentials:" ++ v3 ++ q1 :: lit "include" ++
          q2 :: v4 ++ [125%N]).
  unfold creds_object. reassoc. reflexivity.
Qed.

(** Where the white space and the options object end is read off the
    text. *)
Lemma creds_object_unique (v1 v2 v3 : text) (q1 q2 : char) (v4 : text) (post : text)
    (v1' v2' v3' : text) (q1' q2' : char) (v4' : text) (rest' : text) :
  spaces v1 -> spaces v2 -> spaces v3 -> spaces v4 ->
  is_quote q1 = true -> is_quote q2 = true ->
  spaces v1' -> spaces v2' -> spaces v3' -> spaces v4' ->
  is_quote q1' = true -> is_quote q2' = true ->
  v1 ++ creds_object v2 v3 q1 q2 v4 ++ post =
  v1' ++ creds_object v2' v3' q1' q2' v4' ++ rest' ->
  post = rest'.
Proof.
  intros H1 H2 H3 H4 Hq1 Hq2 H1' H2' H3' H4' Hq1' Hq2' E.
  assert (F : forall u w x z r : text,
            spaces u -> spaces w -> spaces x -> spaces z ->
            forall qa qb, is_quote qa = true -> is_quote qb = true ->
            exec false (ws ++ only_credentials) (u ++ creds_object w x qa qb z ++ r) 0 [] =
            Some (length (u ++ creds_object w x qa qb z), [])).
  { intros u w x z r Hu Hw Hx Hz qa qb Hqa Hqb.
    apply exec_ws; [exact Hu | reflexivity |].
    rewrite exec_only_credentials by assumption. rewrite length_app. reflexivity. }
  pose proof (F v1 v2 v3 v4 post H1 H2 H3 H4 q1 q2 Hq1 Hq2) as Fa.
  pose proof (F v1' v2' v3' v4' rest' H1' H2' H3' H4' q1' q2' Hq1' Hq2') as Fb.
  rewrite E in Fa. pose proof (eq_trans (eq_sym Fa) Fb) as Heq.
  injection Heq as Hl.
  apply (f_equal (drop (length (v1 ++ creds_object v2 v3 q1 q2 v4)))) in E.
  rewrite (app_assoc v1), drop_app_length in E.
  rewrite Hl, (app_assoc v1'), drop_app_length in E. exact E.
Qed.

(** A pattern that opens with [l] does not match at a position of a
    text without [l], before a text [h] that no end of [l] begins. *)
Lemma no_match_before (l : text) (p : pattern) (a h s : text) r :
  opens_with l p -> contains l a = false -> apart l h = true -> a <> [] ->
  exec false p (a ++ h ++ s) 0 [] = Some r -> False.
Proof.
  intros Hp Ha Hh Hne E.
  destruct (startswith l (a ++ h ++ s)) eqn:Es.
  - apply startswith_app_cases in Es as [Es|[Hl Es]].
    + apply contains_here in Es.
      exact (diff_true_false (eq_trans (eq_sym Es) Ha)).
    + unfold apart in Hh. rewrite forallb_forall in Hh.
      assert (Hk : clash (drop (length a) l) h = true).
      { apply Hh. apply in_seq. destruct a; [congruence|]. simpl in *. lia. }
      rewrite (clash_startswith _ _ s Hk) in Es. discriminate.
  - rewrite (exec_opens_fail _ l _ _ _ _ Hp Es) in E. discriminate.
Qed.

(** Pattern 6 takes the options object out of a helper call whose first
    argument has no comma, whatever stands before the call: a match
    that begins before the call ends before it or at the end of its
    options object.  The text before the call is copied when no call of
    the helper opens in it. *)
Lemma step6_strips_anywhere (M v1 v2 v3 : text) (q1 q2 : char) (v4 post : text) :
  M <> [] -> avoids "," M = true ->
  spaces v1 -> spaces v2 -> spaces v3 -> spaces v4 ->
  is_quote q1 = true -> is_quote q2 = true ->
  forall A : text,
  exists A' : text,
    step6 (A ++ helper_creds_call M v1 v2 v3 q1 q2 v4 ++ post) =
    A' ++ lit "apiFetch(" ++ M ++ lit ")" ++ step6 post /\
    (contains (lit "apiFetch(") A = false -> A' = A).
Proof.
  intros Hne HM H1 H2 H3 H4 Hq1 Hq2 A.
  remember (length A) as n eqn:Hn. revert A Hn.
  induction n as [n IH] using lt_wf_ind. intros A Hn.
  destruct A as [|x A1].
  - exists []. split; [|reflexivity]. apply step6_strips; assumption.
  - destruct (exec false strip_re
                ((x :: A1) ++ helper_creds_call M v1 v2 v3 q1 q2 v4 ++ post) 0 [])
      as [[e mk]|] eqn:E.
    + pose proof E as E0.
      assert (Hpin : forall A' : text,
                contains (lit "apiFetch(") (x :: A1) = false -> A' = x :: A1).
      { intros A' Hc. exfalso. revert E0. unfold helper_creds_call. rewrite <- !app_assoc.
        intros E0.
        apply (no_match_before (lit "apiFetch(") strip_re (x :: A1) (lit "apiFetch(") _ _
                 strip_opens Hc eq_refl ltac:(discriminate) E0). }
      apply strip_match_inv in E
        as (m' & v1' & v2' & v3' & q1' & q2' & v4' & rest' & Hne' & Hm' &
            H1' & H2' & H3' & H4' & Hq1' & Hq2' & Ht & He & Hx).
      rewrite step6_eq, (sub_match _ _ _ _ _ E0), Hx, <- step6_eq;
        [|rewrite He; unfold helper_creds_call; rewrite length_app; simpl; lia].
      rewrite Ht, He, drop_app_length.
      assert (HcM : mem comma (lit "apiFetch(" ++ M) = false).
      { rewrite mem_app. replace (mem comma M) with false
          by (symmetry; eapply avoids_mem; [exact HM | reflexivity]). reflexivity. }
      assert (Hcm' : mem comma (lit "apiFetch(" ++ m') = false).
      { rewrite mem_app. replace (mem comma m') with false
          by (symmetry; eapply avoids_mem; [exact Hm' | reflexivity]). reflexivity. }
      unfold helper_creds_call in Ht.
      destruct (mem comma (x :: A1)) eqn:HcA.
      * (* a comma before the call: the match ends before the call *)
        apply mem_split_first in HcA as (A0 & A2 & HA & HA0).
        rewrite HA in Ht.
        assert (Ht' : A0 ++ comma :: (A2 ++ (lit "apiFetch(" ++ M ++ lit "," ++ v1 ++
                        creds_object v2 v3 q1 q2 v4) ++ post) =
                      (lit "apiFetch(" ++ m') ++ comma ::
                        ((v1' ++ creds_object v2' v3' q1' q2' v4') ++ rest')).
        { revert Ht. reassoc. intros Ht. exact Ht. }
        apply first_split in Ht' as [E1 E2]; [|exact HA0|exact Hcm'].
        symmetry in E2. apply app_eq_app in E2 as (l & [[E3 E4]|[E3 E4]]).
        -- (* the match would run into the call *)
           destruct l as [|c1 l].
           ++ destruct (IH 0 ltac:(subst n; simpl; lia) [] eq_refl) as (A' & HA' & _).
              exists (lit "apiFetch(" ++ m' ++ lit ")" ++ A').
              split; [|apply Hpin].
              assert (HA'' : step6 rest' = A' ++ lit "apiFetch(" ++ M ++ lit ")" ++ step6 post).
              { replace rest' with
                  ((lit "apiFetch(" ++ M ++ lit "," ++ v1 ++
                    creds_object v2 v3 q1 q2 v4) ++ post) by exact E4.
                exact HA'. }
              rewrite HA''. reassoc. reflexivity.
           ++ exfalso. simpl in E4. injection E4 as <- E4.
              pose proof (creds_object_no_p v1' v2' v3' q1' q2' v4' H1' H2' H3' H4' Hq1' Hq2')
                as Hp.
              rewrite E3 in Hp. rewrite mem_app in Hp. apply orb_false_iff in Hp as [_ Hp].
              destruct l as [|c2 l].
              ** destruct (creds_object_end v1' v2' v3' q1' q2' v4') as (X & HX).
                 rewrite E3 in HX. apply app_inj_tail in HX as [_ HX]. discriminate HX.
              ** simpl in E4. injection E4 as <- E4. simpl in Hp. discriminate Hp.
        -- (* the match ends in the text before the call *)
           assert (Hl : length l < n).
           { subst n. rewrite HA, E3. simpl. rewrite !length_app. simpl.
             rewrite !length_app. lia. }
           destruct (IH _ Hl l eq_refl) as (A' & HA' & _).
           exists (lit "apiFetch(" ++ m' ++ lit ")" ++ A').
           split; [|apply Hpin].
           assert (HA'' : step6 rest' = A' ++ lit "apiFetch(" ++ M ++ lit ")" ++ step6 post)
             by (rewrite E4; exact HA').
           rewrite HA''. reassoc. reflexivity.
      * (* no comma before the call: the match ends with the call *)
        assert (Ht' : ((x :: A1) ++ lit "apiFetch(" ++ M) ++ comma ::
                        (v1 ++ creds_object v2 v3 q1 q2 v4 ++ post) =
                      (lit "apiFetch(" ++ m') ++ comma ::
                        (v1' ++ creds_object v2' v3' q1' q2' v4' ++ rest')).
        { revert Ht. reassoc. intros Ht. exact Ht. }
        apply first_split in Ht' as [E1 E2];
          [|rewrite mem_app, HcA; exact HcM|exact Hcm'].
        apply creds_object_unique in E2; auto. subst rest'.
        exists (x :: A1). split; [|reflexivity].
        rewrite (app_assoc (lit "apiFetch(") m'), <- E1. reassoc. reflexivity.
    + rewrite step6_eq. change ((x :: A1) ++ helper_creds_call M v1 v2 v3 q1 q2 v4 ++ post)
        with (x :: A1 ++ helper_creds_call M v1 v2 v3 q1 q2 v4 ++ post) in *.
      rewrite sub_next by exact E. rewrite <- step6_eq.
      destruct (IH (length A1) ltac:(subst n; simpl; lia) A1 eq_refl) as (A' & HA' & Hk).
      rewrite HA'. exists (x :: A'). split; [reflexivity|].
      intros Hc. apply contains_false_tail in Hc. rewrite (Hk Hc). reflexivity.
Qed.

End StripAnywhere.

(** ** The options object with only the credentials flag is removed *)

Section StripClaim.

Lemma settled_first_five (c : text) : settled c = true -> first_five c = c.
Proof.
  intros H. apply settled_spec in H as (H1 & H2 & H3 & H4 & H5 & _).
  unfold first_five.
  rewrite (step1_eq c), (sub_no_match _ _ _ H1).
  rewrite (step2_eq c), (sub_no_match _ _ _ H2).
  rewrite (step3_eq c), (sub_no_match _ _ _ H3).
  rewrite (step4_eq c), (sub_no_match _ _ _ H4).
  rewrite (step5_eq c), (sub_no_match _ _ _ H5).
  reflexivity.
Qed.

(** C3, as the code has it.  After the first five substitutions, a call
    of the new helper whose first argument has no comma and whose options
    object holds only the credentials flag loses that object, wherever
    the call stands: the file is written with apiFetch(ARG) in the place
    of the call, followed by the text after the call gone through the
    sixth substitution, and the result is true.  The text before the
    call is as it was when no call of the helper opens in it.  The white
    space of the options object is any, the quotes are of either
    kind. *)
Theorem credentials_only_options_removed
    (fp : path) (w : world) (c A M v1 v2 v3 : text) (q1 q2 : char) (v4 post : text) :
  files w !! fp = Some c ->
  contains (lit "fetch(api") c = true ->
  first_five c = A ++ helper_creds_call M v1 v2 v3 q1 q2 v4 ++ post ->
  M <> [] -> avoids "," M = true ->
  spaces v1 -> spaces v2 -> spaces v3 -> spaces v4 ->
  is_quote q1 = true -> is_quote q2 = true ->
  exists (w' : world) (A' : text),
    update_file_with_apiFetch fp w = (Ok true, w') /\
    files w' !! fp = Some (A' ++ lit "apiFetch(" ++ M ++ lit ")" ++ step6 post) /\
    trace w' = trace w ++
      [EvWrite fp (A' ++ lit "apiFetch(" ++ M ++ lit ")" ++ step6 post);
       EvPrint (updated_msg fp)] /\
    (contains (lit "apiFetch(") A = false -> A' = A).
Proof.
  intros Hf Hg H5 Hne HM H1 H2 H3 H4 Hq1 Hq2.
  destruct (step6_strips_anywhere M v1 v2 v3 q1 q2 v4 post Hne HM H1 H2 H3 H4 Hq1 Hq2 A)
    as (A' & HA' & Hpin).
  assert (Hs : substitutions c = A' ++ lit "apiFetch(" ++ M ++ lit ")" ++ step6 post).
  { rewrite <- HA', <- H5. reflexivity. }
  destruct (update_changes fp w c _ Hf Hg Hs) as (w' & Hr & Hfile & Htrace).
  - rewrite <- Hs. intros Hfix. apply fixed_settled in Hfix.
    pose proof (settled_first_five c Hfix) as Hc. rewrite H5 in Hc.
    apply settled_spec in Hfix as (_ & _ & _ & _ & _ & H6).
    destruct (strip_match M v1 v2 v3 q1 q2 v4 post) as (mk & He & _); auto.
    assert (Hsearch : search strip_re c = true).
    { rewrite <- Hc. apply (search_drop _ _ (length A)). rewrite drop_app_length.
      apply (search_here _ _ _ He). }
    exact (diff_true_false (eq_trans (eq_sym Hsearch) H6)).
  - exists w', A'. auto.
Qed.

Lemma credentials_only_options_witness :
  exists (w' : world) (A' : text),
    update_file_with_apiFetch a_ts (one_file a_ts paren_arg) = (Ok true, w') /\
    files w' !! a_ts =
      Some (A' ++ lit "apiFetch(" ++ lit "f(a)" ++ lit ")" ++ step6 (lit ";")) /\
    trace w' = [] ++
      [EvWrite a_ts (A' ++ lit "apiFetch(" ++ lit "f(a)" ++ lit ")" ++ step6 (lit ";"));
       EvPrint (updated_msg a_ts)] /\
    (contains (lit "apiFetch(") (lit "await ") = false -> A' = lit "await ").
Proof.
  apply (credentials_only_options_removed a_ts (one_file a_ts paren_arg) paren_arg
           (lit "await ") (lit "f(a)") sp sp sp dq dq sp (lit ";"));
    [reflexivity | reflexivity | vm_compute; reflexivity | discriminate | reflexivity ..].
Defined.

End StripClaim.

(** ** Texts in which a pattern matches nowhere *)

Section Silent.


Lemma silent_nil (p : pattern) (s : text) : silent p [] s.
Proof. intros i Hi. simpl in Hi. lia. Qed.





Lemma silent_clashes (l : text) (p : pattern) (u s : text) :
  opens_with l p -> clashes l u = true -> silent p u s.
Proof.
  intros Hp. induction u as [|c u IH]; intros H i Hi; [simpl in Hi; lia|].
  simpl in H. apply andb_true_iff in H as [Hc Hu].
  destruct i as [|i].
  - apply (exec_opens_fail _ l); auto. apply (clash_startswith l (c :: u) s Hc).
  - simpl. apply IH; [exact Hu | simpl in Hi; lia].
Qed.


Lemma silent_free (l : text) (p : pattern) (u s : text) :
  opens_with l p -> contains l u = false -> foreign_next l s = true ->
  silent p u s.
Proof.
  intros Hp Ha Hs i Hi.
  rewrite drop_app_le by lia. apply (exec_opens_fail _ l); auto.
  destruct (startswith l (drop i u ++ s)) eqn:E; [|reflexivity].
  assert (E' : startswith l (drop i u) = true).
  { destruct s as [|d s]; [rewrite app_nil_r in E; exact E|].
    simpl in Hs. apply negb_true_iff in Hs. eapply startswith_sep; eauto. }
  apply contains_here, contains_drop in E'.
  exact (False_ind _ (diff_true_false (eq_trans (eq_sym E') Ha))).
Qed.

End Silent.

(** ** More on occurrences *)

Section ContainsMore.







End ContainsMore.

(** ** What the import substitutions keep *)

Section ImportKeeps.

Variable p : pattern.
Variable t : template.
Variable is_head : text -> Prop.
Variable new_head : text.

(** A match is a head, then the module path in quotes; the head is
    replaced by the new head. *)
Hypothesis p_shape : forall s e mk,
  exec false p s 0 [] = Some (e, mk) ->
  exists h q m q' rest,
    is_head h /\ s = h ++ q :: m ++ q' :: rest /\
    e = length (h ++ q :: m ++ [q']) /\
    expand t s mk = new_head ++ q :: m ++ [q'].

(** A match begins with the letter i, then characters other than f up
    to the symbol apiUrl. *)
Hypothesis p_begins : forall s r,
  exec false p s 0 [] = Some r ->
  exists X Y, s = 105%N :: X ++ lit "apiUrl" ++ Y /\ mem 102%N X = false.

(** In a head, the letter f is followed by the letter r. *)
Hypothesis head_f : forall h x y,
  is_head h -> h = x ++ 102%N :: y -> exists y', y = 114%N :: y'.

(** The new head brings no legacy call. *)
Hypothesis new_head_clean : forall L R,
  contains (lit "fetch(apiUrl(") L = false ->
  contains (lit "fetch(apiUrl(") R = false ->
  contains (lit "fetch(apiUrl(") (L ++ new_head ++ R) = false.

Ltac reassoc := repeat (rewrite <- app_assoc || rewrite <- app_comm_cons).



End ImportKeeps.

(** ** What pattern 6 keeps *)

Section KeepsCall.

Ltac reassoc := repeat (rewrite <- app_assoc || rewrite <- app_comm_cons).





End KeepsCall.

(** ** The first legacy call of a file *)

Section FirstLegacyCall.

Ltac reassoc := repeat (rewrite <- app_assoc || rewrite <- app_comm_cons).













End FirstLegacyCall.

(** ** The legacy call with only the credentials flag, anywhere in a file *)

Section LegacyCallClaim.



End LegacyCallClaim.
